(** * EventBus.hpp: a type-indexed publish/subscribe event bus

    A shallow embedding of [src/event bus/EventBus.hpp]:
    - the event type id registry ([GetUniqueEventId], [GetEventId<Event>]),
    - the per-type [EventPool<Event>] (a [Signal<void(Event)>] and a
      [std::vector<Event>] of pending events),
    - the [EventBus] (a [std::vector<EventPoolBase*>] indexed by type id).

    Bound callables are user code that may call back into the bus, so the
    bus operations are interpreted with a call-depth budget, and a run leaves
    a log of the calls made and of the callables invoked.

    The file has the model first (registry, data, interpreter, observers and
    invariants, concrete programs), then the properties: the registry, the
    invariant of the reachable worlds, runs with passive callables, runs
    whose callables enqueue during a flush, the pools that exist and their
    order; then further properties of the calls and of callables that call
    back into the bus. *)

From stdpp Require Import base option list relations strings gmap.

Set Warnings "-register-all".

(** A C++ event type is identified by the name of the template argument. *)
Abbreviation TypeKey := string (only parsing).

(** ** Event type id registry *)

Module Registry.

(** [id] is the function-local [static int id] of [GetUniqueEventId];
    [eventID] collects the function-local statics [static int eventID] of
    the instantiations [GetEventId<Event>]: a type has an entry once its
    static has been initialised.  The counter is a C++ [int]; it is modelled
    as an unbounded natural number, signed overflow after 2^31 - 1 distinct
    event types being undefined in C++. *)
Record t : Type := mk {
  id : nat;
  eventID : gmap string nat
}.

Definition initial : t := {| id := 0; eventID := ∅ |}.

(** [static int id = 0; return id++;] *)
Definition GetUniqueEventId (r : t) : nat * t :=
  (id r, {| id := S (id r); eventID := eventID r |}).

(** [static int eventID = GetUniqueEventId(); return eventID;] *)
Definition GetEventId (T : TypeKey) (r : t) : nat * t :=
  match eventID r !! T with
  | Some i => (i, r)
  | None =>
      let '(i, r') := GetUniqueEventId r in
      (i, {| id := id r'; eventID := <[T := i]> (eventID r') |})
  end.

(** The ids returned by a sequence of id requests, and the registry
    after them. *)
Fixpoint requests (Ts : list TypeKey) (r : t) : list nat * t :=
  match Ts with
  | [] => ([], r)
  | T :: Ts' =>
      let '(i, r1) := GetEventId T r in
      let '(ids, r2) := requests Ts' r1 in
      (i :: ids, r2)
  end.

Definition after (Ts : list TypeKey) : t := (requests Ts initial).2.

(** Registry invariant: the assigned ids are exactly [0 .. id - 1], one
    type per id. *)
Record wf (r : t) : Prop := {
  wf_bound : ∀ T i, eventID r !! T = Some i → i < id r;
  wf_inj : ∀ T U i, eventID r !! T = Some i → eventID r !! U = Some i → T = U;
  wf_dense : ∀ i, i < id r → ∃ T, eventID r !! T = Some i
}.

End Registry.

(** ** Outcomes of a run *)

Inductive Outcome (A : Type) : Type :=
| Done (a : A)   (* the call returned *)
| OutOfFuel      (* the call-depth budget of the interpreter ran out *)
| Undefined      (* the run uses an iterator that was invalidated, or reads
                    an element that is no longer in the vector: undefined
                    behaviour in C++ *)
| IllFormed.     (* the call does not compile *)
Arguments Done {A} a.
Arguments OutOfFuel {A}.
Arguments Undefined {A}.
Arguments IllFormed {A}.

Definition Outcome_bind {A B : Type} (k : A → Outcome B) (m : Outcome A) : Outcome B :=
  match m with
  | Done a => k a
  | OutOfFuel => OutOfFuel
  | Undefined => Undefined
  | IllFormed => IllFormed
  end.

#[global] Instance Outcome_mbind : MBind Outcome := @Outcome_bind.

(** The nullary member functions an [EventPool<Event>] declares
    (EventBus.hpp lines 67 and 75), looked up by name. *)
Inductive PoolMember : Type := MDispatchQueuedEvents | MClearEventQueue.

Definition EventPool_member (name : string) : option PoolMember :=
  if decide (name = "DispatchQueuedEvents") then Some MDispatchQueuedEvents
  else if decide (name = "ClearEventQueue") then Some MClearEventQueue
  else None.

(** ** Data model *)

Section Model.

Context {Args Payload : Type}.

(** [Event event{std::forward<Args>(args)...}] builds the event from
    constructor arguments; the overloads taking [Event &&event] copy an
    event that is already built. *)
Variable construct : TypeKey → Args → Payload.

Inductive Init : Type :=
| FromArgs (a : Args)
| FromValue (v : Payload).

(** An event value, tagged with the static type it was built as. *)
Record Event : Type := {
  ev_type : TypeKey;
  ev_value : Payload
}.

Definition build (T : TypeKey) (a : Init) : Event :=
  {| ev_type := T;
     ev_value := match a with FromArgs x => construct T x | FromValue v => v end |}.

(** Modelled from the spec: the [Connection] handle of signal.hpp, the
    header included from [../../delegates/] ("an opaque revocable handle
    returned when a callable is bound to a dispatch point").  It names the
    pool's signal and the binding in it. *)
Record Connection : Type := {
  conn_pool : nat;
  conn_slot : nat
}.

(** The calls a program, or a bound callable, can make.  A callable receives
    the event by value ([Signal<void(Event)>]) and is given by the calls it
    makes on the bus in response. *)
Inductive Call : Type :=
| CallTriggerEvent (T : TypeKey) (a : Init)
| CallEnqueueEvent (T : TypeKey) (a : Init)
| CallDispatchQueuedEvents
| CallDispatchQueuedEventsOf (Ts : list TypeKey)
| CallClearEventQueues
| CallClearEventQueuesOf (Ts : list TypeKey)
| CallSubscribeToEvent (T : TypeKey) (name : nat) (body : Payload → list Call)
| CallUnsubscribeFromEvent (c : Connection)
| CallGetEventId (T : TypeKey).
(* [CallGetEventId]: [GetEventId<T>()] requested outside this bus, by another
   [EventBus] object or directly; the registry is process-wide. *)

(** Modelled from the spec: the [Signal<void(Event)>] of signal.hpp, the
    header included from [../../delegates/] ("a per-event-type multicast
    invoker that holds zero or more bound callables and invokes them all, in
    subscription order, with one event instance"; "[Bind(callable) ->
    Connection]"; "[Connection.Disconnect()] idempotently revoking a
    binding"). *)
Record Slot : Type := {
  slot_id : nat;
  slot_type : TypeKey;   (* the [Event] of the [SubscribeToEvent<Event>] that bound it *)
  slot_name : nat;
  slot_body : Payload → list Call
}.

Record Signal : Type := {
  slots : list Slot;
  next_slot : nat
}.

Definition Signal_empty : Signal := {| slots := []; next_slot := 0 |}.

Definition Signal_Bind (T : TypeKey) (name : nat) (body : Payload → list Call)
    (sg : Signal) : Signal :=
  {| slots := slots sg ++ [{| slot_id := next_slot sg; slot_type := T;
                              slot_name := name; slot_body := body |}];
     next_slot := S (next_slot sg) |}.

Definition Signal_Disconnect (k : nat) (sg : Signal) : Signal :=
  {| slots := filter (λ s, slot_id s ≠ k) (slots sg);
     next_slot := next_slot sg |}.

(** [EventPool<Event>]: lines 80-83. *)
Record EventPool : Type := {
  pool_type : TypeKey;            (* the template argument [Event] *)
  mSignal : Signal;
  mEventQueue : list Event
}.

Definition new_EventPool (T : TypeKey) : EventPool :=
  {| pool_type := T; mSignal := Signal_empty; mEventQueue := [] |}.

(** What an observer of a run sees. *)
Inductive Obs : Type :=
| Entered (c : Call)               (* a call was made *)
| Invoked (s : Slot) (e : Event).  (* the callable bound in [s] was called with [e] *)

(** The process state: the registry statics and one [EventBus].  A null
    [EventPoolBase*] is [None].  [created] and [log] record the run: the
    types in the order [new EventPool<Event>] ran for them, and the
    observations so far. *)
Record World : Type := {
  registry : Registry.t;
  mEventPools : list (option EventPool);
  created : list TypeKey;
  log : list Obs
}.

Definition initial_world : World :=
  {| registry := Registry.initial; mEventPools := []; created := []; log := [] |}.

Definition note (o : Obs) (w : World) : World :=
  {| registry := registry w; mEventPools := mEventPools w;
     created := created w; log := log w ++ [o] |}.

Definition notes (tr : list Obs) (w : World) : World :=
  {| registry := registry w; mEventPools := mEventPools w;
     created := created w; log := log w ++ tr |}.

Definition pool_at (idx : nat) (w : World) : option EventPool :=
  match mEventPools w !! idx with
  | Some (Some p) => Some p
  | _ => None
  end.

Definition update_pool (idx : nat) (f : EventPool → EventPool) (w : World) : World :=
  {| registry := registry w;
     mEventPools := alter (fmap f) idx (mEventPools w);
     created := created w; log := log w |}.

Definition slots_at (idx : nat) (w : World) : list Slot :=
  from_option (λ p, slots (mSignal p)) [] (pool_at idx w).

Definition queue_at (idx : nat) (w : World) : list Event :=
  from_option mEventQueue [] (pool_at idx w).

(** ** EventBus::GetEventHandler (lines 166-178)

    The returned reference is modelled by the index of the pool. *)
Definition grown (eventHandlerIndex : nat) (l : list (option EventPool))
    : list (option EventPool) :=
  (* if (eventHandlerIndex >= mEventPools.size())
         mEventPools.resize(eventHandlerIndex + 1); *)
  if bool_decide (length l ≤ eventHandlerIndex)
  then resize (S eventHandlerIndex) None l
  else l.

Definition GetEventHandler (T : TypeKey) (w : World) : nat * World :=
  let '(eventHandlerIndex, r) := Registry.GetEventId T (registry w) in
  let pools := grown eventHandlerIndex (mEventPools w) in
  match pools !! eventHandlerIndex with
  | Some (Some _) =>
      (eventHandlerIndex,
       {| registry := r; mEventPools := pools;
          created := created w; log := log w |})
  | _ =>
      (eventHandlerIndex,
       {| registry := r;
          mEventPools := <[eventHandlerIndex := Some (new_EventPool T)]> pools;
          created := created w ++ [T]; log := log w |})
  end.

(** ** EventPool members that invoke no callable *)

(** [mEventQueue.push_back({args...})] / [mEventQueue.emplace_back(args...)]
    (lines 45-55): both overloads append the event built from the arguments. *)
Definition EventPool_EnqueueEvent (this : nat) (T : TypeKey) (a : Init) (w : World) : World :=
  update_pool this
    (λ p, {| pool_type := pool_type p; mSignal := mSignal p;
             mEventQueue := mEventQueue p ++ [build T a] |}) w.

(** [mEventQueue.clear()] (lines 75-78). *)
Definition clear_queue (p : EventPool) : EventPool :=
  {| pool_type := pool_type p; mSignal := mSignal p; mEventQueue := [] |}.

Definition EventPool_ClearEventQueue (this : nat) (w : World) : World :=
  update_pool this clear_queue w.

(** ** Iterators into a vector that callables modify

    Both range-for loops of the bus call user code from their body.  A
    range-for evaluates [begin()] and [end()] once and keeps the two
    iterators.  On a [std::vector], [push_back] and [emplace_back] invalidate
    the past-the-end iterator, and every iterator when they reallocate;
    [clear] invalidates every iterator; a [resize] that grows the vector
    inserts at its end and invalidates like [push_back].  Once a callable has
    made such a call on the vector a loop is iterating, the [++] and [!=] of
    the loop are on invalidated iterators: the behaviour is undefined from
    there, whether or not the storage happens to stay in place. *)

(** The calls in a trace. *)
Definition calls (tr : list Obs) : list Call :=
  omap (λ o, match o with Entered c => Some c | Invoked _ _ => None end) tr.

(** The calls made since the world was [w0], the log being append-only. *)
Definition since (w0 w1 : World) : list Call :=
  calls (drop (length (log w0)) (log w1)).

(** A call that, when it returns, has modified the [mEventQueue] of the pool
    [this]: [EnqueueEvent] for the type of the pool ([push_back] or
    [emplace_back], lines 48 and 54), [ClearEventQueues] of all pools or of
    that type ([clear], line 77), and [DispatchQueuedEvents()], which ends
    the flush of every pool by [ClearEventQueue()] (line 72). *)
Definition edits_queue (r : Registry.t) (this : nat) (c : Call) : bool :=
  match c with
  | CallEnqueueEvent T _ => bool_decide (Registry.eventID r !! T = Some this)
  | CallClearEventQueuesOf Ts =>
      existsb (λ T, bool_decide (Registry.eventID r !! T = Some this)) Ts
  | CallClearEventQueues | CallDispatchQueuedEvents => true
  | _ => false
  end.

(** The iterators into the buffer of the pool [this] that were taken in [w0]
    are invalid in [w1]. *)
Definition invalidated (this : nat) (w0 w1 : World) : bool :=
  existsb (edits_queue (registry w1) this) (since w0 w1).

(** ** The interpreter *)

Section Interp.

(** How a call made by a bound callable runs. *)
Variable rec : Call → World → Outcome World.

Fixpoint run (cs : list Call) (w : World) : Outcome World :=
  match cs with
  | [] => Done w
  | c :: cs' => w1 ← rec c w; run cs' w1
  end.

Definition call_slot (s : Slot) (e : Event) (w : World) : Outcome World :=
  run (slot_body s (ev_value e)) (note (Invoked s e) w).

Fixpoint invoke (ss : list Slot) (e : Event) (w : World) : Outcome World :=
  match ss with
  | [] => Done w
  | s :: ss' => w1 ← call_slot s e w; invoke ss' e w1
  end.

(** Modelled from the spec: [Signal::operator()] of signal.hpp, the header
    included from [../../delegates/] ("[Invoke(event)] invoking all bound
    callables", "in subscription order"): the callables bound when the
    invocation starts are called in the order they were bound. *)
Definition Signal_call (this : nat) (e : Event) (w : World) : Outcome World :=
  invoke (slots_at this w) e w.

(** [Event event{std::forward<Args>(args)...}; mSignal(event);] (lines 37-42). *)
Definition EventPool_TriggerEvent (this : nat) (T : TypeKey) (a : Init) (w : World)
    : Outcome World :=
  Signal_call this (build T a) w.

(** [for (auto &event : mEventQueue) mSignal(event);] (lines 69-70).  The
    range-for evaluates [begin()] and [end()] once, so the loop makes as many
    steps as the vector had elements at entry, and step [i] reads element
    [i].  The signal takes the event by value.  When [mSignal(event)] returns
    and a callable has meanwhile modified this [mEventQueue], the loop goes
    on with invalidated iterators: undefined behaviour. *)
Fixpoint flush (n i : nat) (this : nat) (w : World) : Outcome World :=
  match n with
  | 0 => Done w
  | S n' =>
      match queue_at this w !! i with
      | Some e =>
          w1 ← Signal_call this e w;
          if invalidated this w w1 then Undefined else flush n' (S i) this w1
      | None => Undefined
      end
  end.

(** [EventPool::DispatchQueuedEvents] (lines 67-73). *)
Definition EventPool_DispatchQueuedEvents (this : nat) (w : World) : Outcome World :=
  w1 ← flush (length (queue_at this w)) 0 this w;
  Done (EventPool_ClearEventQueue this w1).

(** [GetEventHandler<Event>().TriggerEvent(args...)] (lines 180-190). *)
Definition EventBus_TriggerEvent (T : TypeKey) (a : Init) (w : World) : Outcome World :=
  let '(h, w1) := GetEventHandler T w in EventPool_TriggerEvent h T a w1.

(** [GetEventHandler<Event>().EnqueueEvent(args...)] (lines 192-202). *)
Definition EventBus_EnqueueEvent (T : TypeKey) (a : Init) (w : World) : World :=
  let '(h, w1) := GetEventHandler T w in EventPool_EnqueueEvent h T a w1.

(** A call [pool.name()] of a nullary member of the pool. *)
Definition call_member (name : string) (this : nat) (w : World) : Outcome World :=
  match EventPool_member name with
  | Some MDispatchQueuedEvents => EventPool_DispatchQueuedEvents this w
  | Some MClearEventQueue => Done (EventPool_ClearEventQueue this w)
  | None => IllFormed
  end.

(** [(GetEventHandler<Event>().DispatchEvents(), ...);] (lines 204-208): one
    call per type of the pack, left to right. *)
Fixpoint EventBus_DispatchQueuedEventsOf (Ts : list TypeKey) (w : World) : Outcome World :=
  match Ts with
  | [] => Done w
  | T :: Ts' =>
      let '(h, w1) := GetEventHandler T w in
      w2 ← call_member "DispatchEvents" h w1;
      EventBus_DispatchQueuedEventsOf Ts' w2
  end.

(** [for (EventPoolBase *eventHandler : mEventPools) if (eventHandler)
    eventHandler->DispatchQueuedEvents();] (lines 210-215), the range-for
    read as in [flush].  The only modification of [mEventPools] is the
    [resize] of [GetEventHandler] (line 172), which grows it: the iterators
    of the loop are valid as long as the vector has the size it had.  The
    assignment of line 175 to an element invalidates nothing.  When the
    flush of a pool returns and a callable has meanwhile made the vector
    grow, the loop goes on with invalidated iterators: undefined
    behaviour. *)
Fixpoint dispatch_loop (n i : nat) (w : World) : Outcome World :=
  match n with
  | 0 => Done w
  | S n' =>
      match mEventPools w !! i with
      | Some (Some _) =>
          w1 ← EventPool_DispatchQueuedEvents i w;
          if decide (length (mEventPools w1) = length (mEventPools w))
          then dispatch_loop n' (S i) w1
          else Undefined
      | Some None => dispatch_loop n' (S i) w
      | None => Undefined
      end
  end.

Definition EventBus_DispatchQueuedEvents (w : World) : Outcome World :=
  dispatch_loop (length (mEventPools w)) 0 w.

(** [(GetEventHandler<Events>().ClearEventQueue(), ...);] (lines 217-221). *)
Fixpoint EventBus_ClearEventQueuesOf (Ts : list TypeKey) (w : World) : Outcome World :=
  match Ts with
  | [] => Done w
  | T :: Ts' =>
      let '(h, w1) := GetEventHandler T w in
      w2 ← call_member "ClearEventQueue" h w1;
      EventBus_ClearEventQueuesOf Ts' w2
  end.

(** [for (auto eventHandler : mEventPools) if (eventHandler)
    eventHandler->ClearEventQueue();] (lines 223-228).  No callable runs, so
    the loop is a map over the vector. *)
Definition EventBus_ClearEventQueues (w : World) : World :=
  {| registry := registry w;
     mEventPools := fmap (M:=option) clear_queue <$> mEventPools w;
     created := created w; log := log w |}.

(** [return GetEventHandler<Event>().mSignal.Bind(...)] (lines 139-153). *)
Definition EventBus_SubscribeToEvent (T : TypeKey) (name : nat)
    (body : Payload → list Call) (w : World) : Connection * World :=
  let '(h, w1) := GetEventHandler T w in
  ({| conn_pool := h;
      conn_slot := from_option (λ p, next_slot (mSignal p)) 0 (pool_at h w1) |},
   update_pool h
     (λ p, {| pool_type := pool_type p;
              mSignal := Signal_Bind T name body (mSignal p);
              mEventQueue := mEventQueue p |}) w1).

(** [connection.Disconnect()] (lines 155-158). *)
Definition EventBus_UnsubscribeFromEvent (c : Connection) (w : World) : World :=
  update_pool (conn_pool c)
    (λ p, {| pool_type := pool_type p;
             mSignal := Signal_Disconnect (conn_slot c) (mSignal p);
             mEventQueue := mEventQueue p |}) w.

Definition external_GetEventId (T : TypeKey) (w : World) : World :=
  {| registry := (Registry.GetEventId T (registry w)).2;
     mEventPools := mEventPools w; created := created w; log := log w |}.

(** One call on the bus. *)
Definition step (c : Call) (w0 : World) : Outcome World :=
  let w := note (Entered c) w0 in
  match c with
  | CallTriggerEvent T a => EventBus_TriggerEvent T a w
  | CallEnqueueEvent T a => Done (EventBus_EnqueueEvent T a w)
  | CallDispatchQueuedEvents => EventBus_DispatchQueuedEvents w
  | CallDispatchQueuedEventsOf Ts => EventBus_DispatchQueuedEventsOf Ts w
  | CallClearEventQueues => Done (EventBus_ClearEventQueues w)
  | CallClearEventQueuesOf Ts => EventBus_ClearEventQueuesOf Ts w
  | CallSubscribeToEvent T name body => Done (EventBus_SubscribeToEvent T name body w).2
  | CallUnsubscribeFromEvent k => Done (EventBus_UnsubscribeFromEvent k w)
  | CallGetEventId T => Done (external_GetEventId T w)
  end.

End Interp.

(** [exec fuel c w]: the call [c] in the world [w], callables nesting at most
    [fuel - 1] calls deep. *)
Fixpoint exec (fuel : nat) (c : Call) (w : World) : Outcome World :=
  match fuel with
  | 0 => OutOfFuel
  | S fuel' => step (exec fuel') c w
  end.

(** A program: a sequence of calls made from outside any callable. *)
Definition program (fuel : nat) (cs : list Call) (w : World) : Outcome World :=
  run (exec fuel) cs w.

Definition Reachable (w : World) : Prop :=
  ∃ fuel cs, program fuel cs initial_world = Done w.


(** ** Observers of a world, used to state the properties *)

(** The pool of a type: the slot of [mEventPools] at the type's id. *)
Definition pool_of (w : World) (T : TypeKey) : option EventPool :=
  i ← Registry.eventID (registry w) !! T; pool_at i w.

Definition pool_exists (w : World) (T : TypeKey) : Prop := is_Some (pool_of w T).

(** The callables bound to [T], in subscription order, and [T]'s pending
    buffer. *)
Definition bound (w : World) (T : TypeKey) : list Slot :=
  from_option (λ p, slots (mSignal p)) [] (pool_of w T).

Definition pending (w : World) (T : TypeKey) : list Event :=
  from_option mEventQueue [] (pool_of w T).

(** The pools that exist, in index order. *)
Definition pools_in_order (w : World) : list EventPool := omap id (mEventPools w).

(** A callable that makes no call on the bus, and one that only enqueues
    events of type [T]. *)
Definition passive (s : Slot) : Prop := ∀ v, slot_body s v = [].

Definition all_passive (w : World) : Prop := ∀ i s, s ∈ slots_at i w → passive s.

Definition is_enqueue (T : TypeKey) (c : Call) : Prop :=
  match c with
  | CallEnqueueEvent U _ => U = T
  | _ => False
  end.

Definition enqueues_only (T : TypeKey) (s : Slot) : Prop :=
  ∀ v, Forall (is_enqueue T) (slot_body s v).

(** What one signal call, and the flush of a buffer, show when the callables
    are passive. *)
Definition invocations (ss : list Slot) (e : Event) : list Obs :=
  (λ s, Invoked s e) <$> ss.

Definition flush_obs (ss : list Slot) (q : list Event) : list Obs :=
  q ≫= invocations ss.

Definition pool_obs (p : EventPool) : list Obs :=
  flush_obs (slots (mSignal p)) (mEventQueue p).

(** Each event of a buffer, in order, given once to each callable, in order. *)
Definition pairing (ss : list Slot) (q : list Event) : list (Slot * Event) :=
  e ← q; (λ s, (s, e)) <$> ss.

(** The invocations in a trace, and those of the callables subscribed
    for [T]. *)
Definition deliveries (tr : list Obs) : list (Slot * Event) :=
  omap (λ o, match o with Invoked s e => Some (s, e) | Entered _ => None end) tr.

Definition deliveries_to (T : TypeKey) (tr : list Obs) : list (Slot * Event) :=
  filter (λ d, slot_type d.1 = T) (deliveries tr).

(** What the flush of a buffer shows when the callables make calls that
    invoke no callable in turn: each invocation is followed by the calls the
    callable made. *)
Definition reentrant_obs (ss : list Slot) (q : list Event) : list Obs :=
  e ← q; s ← ss; Invoked s e :: (Entered <$> slot_body s (ev_value e)).

(** The calls that resolve the handler of [T] and by that create its pool.
    The selective dispatch is left out: no run of it with a type completes. *)
Definition creates (c : Call) (T : TypeKey) : Prop :=
  match c with
  | CallTriggerEvent U _ | CallEnqueueEvent U _ | CallSubscribeToEvent U _ _ => U = T
  | CallClearEventQueuesOf Us => T ∈ Us
  | _ => False
  end.

(** Trigger, Enqueue or Subscribe for [T]. *)
Definition uses (c : Call) (T : TypeKey) : Prop :=
  match c with
  | CallTriggerEvent U _ | CallEnqueueEvent U _ | CallSubscribeToEvent U _ _ => U = T
  | _ => False
  end.

(** No type id was requested outside this bus. *)
Definition exclusive (w : World) : Prop := ∀ T, Entered (CallGetEventId T) ∉ log w.

(** Every type that has an id has its pool, and the pools, in index order,
    are the pools in creation order: what holds when the ids are allocated by
    this bus only. *)
Definition own_ids (w : World) : Prop :=
  (∀ T i, Registry.eventID (registry w) !! T = Some i → is_Some (pool_at i w)) ∧
  pool_type <$> pools_in_order w = created w.

(** ** Invariant of the reachable worlds *)

Record wf (w : World) : Prop := {
  wf_registry : Registry.wf (registry w);
  (* the pool at index [i] is the [EventPool<Event>] of the type with id [i]:
     the [static_cast] of [GetEventHandler] is to the right type *)
  wf_pool : ∀ i p, pool_at i w = Some p →
    Registry.eventID (registry w) !! pool_type p = Some i;
  wf_slot : ∀ i p s, pool_at i w = Some p → s ∈ slots (mSignal p) →
    slot_type s = pool_type p;
  wf_event : ∀ i p e, pool_at i w = Some p → e ∈ mEventQueue p →
    ev_type e = pool_type p;
  wf_log : ∀ s e, Invoked s e ∈ log w → slot_type s = ev_type e
}.

(** The worlds during a flush of the pool [h] of [T] that started with the
    callables [ss] and the buffer [q], when the callables only enqueue
    events of type [T]. *)
Definition flushing (T : TypeKey) (h : nat) (ss : list Slot) (q : list Event)
    (w : World) : Prop :=
  wf w ∧ Registry.eventID (registry w) !! T = Some h ∧
  is_Some (pool_at h w) ∧ slots_at h w = ss ∧
  ∃ extra, queue_at h w = q ++ extra.

(** The state changes of a run between two invocations of callables. *)
Definition quiet (c : Call) : bool :=
  match c with
  | CallTriggerEvent _ _ | CallDispatchQueuedEvents => false
  | _ => true
  end.

Inductive atomic : World → World → Prop :=
| atomic_call rec c w w' :
    quiet c = true → step rec c w = Done w' → atomic w w'
| atomic_trigger T a w :
    atomic w (GetEventHandler T (note (Entered (CallTriggerEvent T a)) w)).2
| atomic_dispatch w :
    atomic w (note (Entered CallDispatchQueuedEvents) w)
| atomic_invoked s e w :
    slot_type s = ev_type e → atomic w (note (Invoked s e) w)
| atomic_flushed i w :
    atomic w (EventPool_ClearEventQueue i w).

(** ** Further observers *)

(** The event a trigger or enqueue call builds. *)
Definition call_event (c : Call) : option Event :=
  match c with
  | CallTriggerEvent T a | CallEnqueueEvent T a => Some (build T a)
  | _ => None
  end.

(** A callable that only triggers events of type [U]; one whose first call is
    a trigger of [T]; one that calls [ClearEventQueues()]. *)
Definition is_trigger (U : TypeKey) (c : Call) : Prop :=
  match c with
  | CallTriggerEvent V _ => V = U
  | _ => False
  end.

Definition triggers_only (U : TypeKey) (s : Slot) : Prop :=
  ∀ v, Forall (is_trigger U) (slot_body s v).

Definition retriggers (T : TypeKey) (s : Slot) : Prop :=
  ∀ v, ∃ a cs, slot_body s v = CallTriggerEvent T a :: cs.

Definition clears_all (s : Slot) : Prop :=
  ∀ v, slot_body s v = [CallClearEventQueues].

(** What the calls [cs] of a callable show when each is a trigger that
    reaches the passive callables [ss]. *)
Definition nested_obs (ss : list Slot) (cs : list Call) : list Obs :=
  c ← cs; Entered c :: from_option (invocations ss) [] (call_event c).

(** What a run never undoes: the ids of the types stay, the vector does not
    shrink, and it holds no slot beyond the ids that were allocated. *)
Definition stays (w w' : World) : Prop :=
  (∀ T i, Registry.eventID (registry w) !! T = Some i →
          Registry.eventID (registry w') !! T = Some i) ∧
  length (mEventPools w) ≤ length (mEventPools w') ∧
  (length (mEventPools w) ≤ Registry.id (registry w) →
   length (mEventPools w') ≤ Registry.id (registry w')).

(** [evs] appended to the buffer of a pool; the events the callables [ss]
    enqueue when they are given the events [q]; a world that differs from
    another in that [evs] were appended to the buffer of the pool [h]. *)
Definition push_all (evs : list Event) (p : EventPool) : EventPool :=
  {| pool_type := pool_type p; mSignal := mSignal p;
     mEventQueue := mEventQueue p ++ evs |}.

Definition enqueued_by (ss : list Slot) (q : list Event) : list Event :=
  e ← q; s ← ss; omap call_event (slot_body s (ev_value e)).

Definition appended (h : nat) (evs : list Event) (w0 w1 : World) : Prop :=
  registry w1 = registry w0 ∧ created w1 = created w0 ∧
  mEventPools w1 = alter (fmap (push_all evs)) h (mEventPools w0).

End Model.

(** ** Concrete programs *)

Module Examples.

(** [struct Damage { int amount; }]-like events: the payload is the argument. *)
Definition ctor (T : TypeKey) (a : Z) : Z := a.

Definition observer (v : Z) : list (@Call Z Z) := [].

(** A callable that enqueues a further [Tick] whenever it receives one. *)
Definition requeue (v : Z) : list (@Call Z Z) :=
  [CallEnqueueEvent "Tick" (FromArgs (v + 1)%Z)].

Definition run_of (cs : list (@Call Z Z)) : @World Z Z :=
  match program ctor 2 cs initial_world with
  | Done w => w
  | _ => initial_world
  end.

Definition names (tr : list (@Obs Z Z)) : list (nat * TypeKey * Z) :=
  (λ d : Slot * Event, (slot_name d.1, ev_type d.2, ev_value d.2)) <$> deliveries tr.

Definition damage_setup : list (@Call Z Z) :=
  [CallSubscribeToEvent "Damage" 1 observer;
   CallSubscribeToEvent "Heal" 2 observer;
   CallEnqueueEvent "Heal" (FromArgs 3%Z)].

Definition tick_setup : list (@Call Z Z) :=
  [CallSubscribeToEvent "Tick" 7 requeue;
   CallEnqueueEvent "Tick" (FromArgs 1%Z)].

Definition foreign_id_setup : list (@Call Z Z) :=
  [CallGetEventId "B";
   CallSubscribeToEvent "A" 1 observer;
   CallSubscribeToEvent "B" 2 observer;
   CallEnqueueEvent "A" (FromArgs 1%Z);
   CallEnqueueEvent "B" (FromArgs 2%Z)].

End Examples.

(** * Properties *)

(** ** The registry *)

Module RegistryFacts.
Import Registry.

Lemma wf_initial : wf initial.
Proof.
  split; simpl.
  - intros T i H. by rewrite lookup_empty in H.
  - intros T U i H. by rewrite lookup_empty in H.
  - intros i H. lia.
Qed.

Lemma GetEventId_cached T i r :
  eventID r !! T = Some i → GetEventId T r = (i, r).
Proof. intros H. unfold GetEventId. by rewrite H. Qed.

Lemma GetEventId_fresh T r :
  eventID r !! T = None →
  GetEventId T r = (id r, {| id := S (id r); eventID := <[T := id r]> (eventID r) |}).
Proof. intros H. unfold GetEventId. by rewrite H. Qed.

Lemma GetEventId_lookup T r :
  eventID (GetEventId T r).2 !! T = Some (GetEventId T r).1.
Proof.
  unfold GetEventId. destruct (eventID r !! T) as [i|] eqn:E; simpl; [done|].
  by rewrite lookup_insert_eq.
Qed.

(** Entries of the cache are never changed or removed. *)
Lemma GetEventId_mono T r U i :
  eventID r !! U = Some i → eventID (GetEventId T r).2 !! U = Some i.
Proof.
  intros H. unfold GetEventId.
  destruct (eventID r !! T) as [j|] eqn:E; simpl; [done|].
  rewrite lookup_insert_ne; [done|]. intros ->. congruence.
Qed.

Lemma GetEventId_id_mono T r : id r ≤ id (GetEventId T r).2.
Proof. unfold GetEventId. destruct (eventID r !! T); simpl; lia. Qed.

Lemma GetEventId_wf T r : wf r → wf (GetEventId T r).2.
Proof.
  intros [Hb Hi Hd]. unfold GetEventId.
  destruct (eventID r !! T) as [j|] eqn:E; simpl; [by split|].
  split; simpl.
  - intros U i. rewrite lookup_insert. case_decide; intros Hi'.
    + injection Hi' as <-. lia.
    + apply Hb in Hi'. lia.
  - intros U V i. rewrite !lookup_insert.
    repeat case_decide; intros H1 H2; simplify_eq; try done.
    + apply Hb in H2. lia.
    + apply Hb in H1. lia.
    + eauto.
  - intros i Hlt. destruct (decide (i = id r)) as [->|Hne].
    + exists T. by rewrite lookup_insert_eq.
    + destruct (Hd i) as [U HU]; [lia|]. exists U.
      rewrite lookup_insert_ne; [done|]. intros ->. congruence.
Qed.

Lemma requests_wf Ts r : wf r → wf (requests Ts r).2.
Proof.
  revert r. induction Ts as [|T Ts IH]; intros r Hwf; simpl; [done|].
  destruct (GetEventId T r) as [i r1] eqn:E1.
  specialize (IH r1). destruct (requests Ts r1) as [ids r2] eqn:E2. simpl in *.
  apply IH. replace r1 with (GetEventId T r).2 by (by rewrite E1).
  by apply GetEventId_wf.
Qed.

Lemma after_wf Ts : wf (after Ts).
Proof. apply requests_wf, wf_initial. Qed.

Lemma requests_mono Ts r U i :
  eventID r !! U = Some i → eventID (requests Ts r).2 !! U = Some i.
Proof.
  revert r. induction Ts as [|T Ts IH]; intros r H; simpl; [done|].
  destruct (GetEventId T r) as [j r1] eqn:E1.
  specialize (IH r1). destruct (requests Ts r1) as [ids r2] eqn:E2. simpl in *.
  replace r1 with (GetEventId T r).2 in * by (by rewrite E1).
  apply IH. by apply GetEventId_mono.
Qed.

Lemma GetEventId_other T r U :
  U ≠ T → eventID (GetEventId T r).2 !! U = eventID r !! U.
Proof.
  intros Hne. unfold GetEventId.
  destruct (eventID r !! T) as [j|] eqn:E; simpl; [done|].
  by rewrite lookup_insert_ne.
Qed.

Lemma GetEventId_requested T r V :
  is_Some (eventID (GetEventId T r).2 !! V) ↔ V = T ∨ is_Some (eventID r !! V).
Proof.
  destruct (decide (V = T)) as [->|Hne].
  - rewrite GetEventId_lookup. split; eauto.
  - rewrite GetEventId_other by done. naive_solver.
Qed.

Lemma requests_requested Ts r V :
  is_Some (eventID (requests Ts r).2 !! V) ↔ V ∈ Ts ∨ is_Some (eventID r !! V).
Proof.
  revert r. induction Ts as [|T Ts IH]; intros r; simpl.
  - rewrite elem_of_nil. naive_solver.
  - destruct (GetEventId T r) as [j r1] eqn:E1.
    specialize (IH r1). destruct (requests Ts r1) as [ids r2] eqn:E2. simpl in *.
    rewrite IH, elem_of_cons.
    replace r1 with (GetEventId T r).2 by (by rewrite E1).
    rewrite GetEventId_requested. naive_solver.
Qed.

(** C4.  The event type id registry, after any sequence [Ts] of id requests
    from program start: the counter starts at 0; the first request for a type
    returns the counter and advances it by one; a type that has an id gets the
    same id from every later request, whatever is requested in between,
    and the counter does not move; no two types share an id; the ids handed
    out are exactly [0 .. id - 1], and the types that have one are exactly the
    requested ones. *)
Theorem event_ids_unique_and_dense (Ts : list TypeKey) (T U : TypeKey) :
  let r := after Ts in
  id (after []) = 0 ∧
  (T ∉ Ts →
     GetEventId T r = (id r, (GetEventId T r).2) ∧
     id (GetEventId T r).2 = S (id r)) ∧
  (∀ Us, GetEventId T (requests Us (GetEventId T r).2).2
         = ((GetEventId T r).1, (requests Us (GetEventId T r).2).2)) ∧
  (∀ i, eventID r !! T = Some i → eventID r !! U = Some i → T = U) ∧
  (∀ i, i < id r ↔ ∃ V, eventID r !! V = Some i) ∧
  (∀ V, is_Some (eventID r !! V) ↔ V ∈ Ts).
Proof.
  intros r. pose proof (after_wf Ts) as [Hb Hi Hd]. fold r in Hb, Hi, Hd.
  split_and!.
  - done.
  - intros Hnew. assert (eventID r !! T = None) as Hnone.
    { apply eq_None_not_Some. intros Hs. apply Hnew.
      apply (requests_requested Ts initial T) in Hs as [?|[? Hs]]; [done|].
      simpl in Hs. by rewrite lookup_empty in Hs. }
    by rewrite (GetEventId_fresh _ _ Hnone).
  - intros Us. apply GetEventId_cached, requests_mono, GetEventId_lookup.
  - apply Hi.
  - intros i. split; [apply Hd|]. intros [V HV]. by eapply Hb.
  - intros V. unfold r, after. rewrite requests_requested. simpl.
    rewrite lookup_empty. split; [intros [?|[? ?]]; done | auto].
Qed.

End RegistryFacts.

(** ** The pool vector *)

Section Facts.

Context {Args Payload : Type} (construct : TypeKey → Args → Payload).

Implicit Types (w : @World Args Payload) (p : @EventPool Args Payload).
Implicit Types (s : @Slot Args Payload) (e : @Event Payload).
Implicit Types (c : @Call Args Payload) (T U : TypeKey).

Lemma pool_at_update_eq i f w :
  pool_at i (update_pool i f w) = f <$> pool_at i w.
Proof.
  unfold pool_at, update_pool; simpl. rewrite list_lookup_alter_eq.
  by destruct (mEventPools w !! i) as [[p|]|].
Qed.

Lemma pool_at_update_ne i j f w :
  i ≠ j → pool_at j (update_pool i f w) = pool_at j w.
Proof.
  intros Hne. unfold pool_at, update_pool; simpl.
  by rewrite list_lookup_alter_ne.
Qed.

Lemma pool_at_update i j f w :
  pool_at j (update_pool i f w)
  = if decide (i = j) then f <$> pool_at j w else pool_at j w.
Proof.
  case_decide as Hij; [subst; apply pool_at_update_eq | by apply pool_at_update_ne].
Qed.

(** An update of a pool that is absent changes nothing. *)
Lemma update_pool_absent i f w : pool_at i w = None → update_pool i f w = w.
Proof.
  unfold pool_at, update_pool. destruct w as [r l cr lg]; simpl. intros H.
  f_equal. apply list_eq. intros j. destruct (decide (i = j)) as [<-|Hne].
  - rewrite list_lookup_alter_eq. by destruct (l !! i) as [[p|]|].
  - by rewrite list_lookup_alter_ne.
Qed.

(** Growing the vector with null pointers adds no pool. *)
Lemma lookup_resize_null (l : list (option (@EventPool Args Payload))) n i p :
  length l ≤ n → resize n None l !! i = Some (Some p) ↔ l !! i = Some (Some p).
Proof.
  intros Hn. destruct (decide (i < length l)) as [Hi|Hi].
  - rewrite lookup_resize by lia. done.
  - rewrite (lookup_ge_None_2 l i) by lia.
    destruct (decide (i < n)).
    + rewrite lookup_resize_new by lia. done.
    + rewrite lookup_resize_old by lia. done.
Qed.

Lemma GetEventHandler_fst T w :
  (GetEventHandler T w).1 = (Registry.GetEventId T (registry w)).1.
Proof.
  unfold GetEventHandler. destruct (Registry.GetEventId T (registry w)) as [h r].
  simpl. by repeat case_match.
Qed.

Lemma GetEventHandler_registry T w :
  registry (GetEventHandler T w).2 = (Registry.GetEventId T (registry w)).2.
Proof.
  unfold GetEventHandler. destruct (Registry.GetEventId T (registry w)) as [h r].
  simpl. by repeat case_match.
Qed.

Lemma GetEventHandler_log T w : log (GetEventHandler T w).2 = log w.
Proof.
  unfold GetEventHandler. destruct (Registry.GetEventId T (registry w)) as [h r].
  simpl. by repeat case_match.
Qed.

Lemma grown_lookup h (l : list (option (@EventPool Args Payload))) i p :
  grown h l !! i = Some (Some p) ↔ l !! i = Some (Some p).
Proof.
  unfold grown. case_bool_decide; [|done]. apply lookup_resize_null. lia.
Qed.

Lemma grown_length h (l : list (option (@EventPool Args Payload))) :
  h < length (grown h l).
Proof. unfold grown. case_bool_decide; [rewrite length_resize|]; lia. Qed.

Lemma grown_pool h (l : list (option (@EventPool Args Payload))) i :
  match grown h l !! i with Some (Some p) => Some p | _ => None end
  = match l !! i with Some (Some p) => Some p | _ => None end.
Proof.
  destruct (grown h l !! i) as [[p|]|] eqn:E.
  - apply grown_lookup in E. by rewrite E.
  - destruct (l !! i) as [[p|]|] eqn:E'; try done.
    apply (grown_lookup h) in E'. congruence.
  - destruct (l !! i) as [[p|]|] eqn:E'; try done.
    apply (grown_lookup h) in E'. congruence.
Qed.

(** [GetEventHandler] written out. *)
Lemma GetEventHandler_unfold T w :
  GetEventHandler T w =
  let h := (Registry.GetEventId T (registry w)).1 in
  let r := (Registry.GetEventId T (registry w)).2 in
  (h, match pool_at h w with
      | Some _ =>
          {| registry := r; mEventPools := grown h (mEventPools w);
             created := created w; log := log w |}
      | None =>
          {| registry := r;
             mEventPools := <[h := Some (new_EventPool T)]> (grown h (mEventPools w));
             created := created w ++ [T]; log := log w |}
      end).
Proof.
  unfold GetEventHandler, pool_at.
  destruct (Registry.GetEventId T (registry w)) as [h r]. simpl.
  rewrite <- (grown_pool h (mEventPools w) h).
  by destruct (grown h (mEventPools w) !! h) as [[p|]|].
Qed.

(** The handler that is returned exists: it is the pool that was there, or a
    new one. *)
Lemma GetEventHandler_pool_at_self T w :
  pool_at (GetEventHandler T w).1 (GetEventHandler T w).2
  = Some (default (new_EventPool T) (pool_at (GetEventHandler T w).1 w)).
Proof.
  rewrite GetEventHandler_unfold. simpl.
  set (h := (Registry.GetEventId T (registry w)).1).
  destruct (pool_at h w) as [p|] eqn:E; unfold pool_at in *; simpl.
  - rewrite grown_pool. by rewrite E.
  - rewrite list_lookup_insert_eq; [done|]. apply grown_length.
Qed.

Lemma GetEventHandler_pool_at_other T w j :
  j ≠ (GetEventHandler T w).1 →
  pool_at j (GetEventHandler T w).2 = pool_at j w.
Proof.
  rewrite GetEventHandler_unfold. simpl.
  set (h := (Registry.GetEventId T (registry w)).1). intros Hne.
  destruct (pool_at h w) as [p|] eqn:E; unfold pool_at in *; simpl.
  - apply grown_pool.
  - rewrite list_lookup_insert_ne by done. apply grown_pool.
Qed.

Lemma GetEventHandler_created T w :
  created (GetEventHandler T w).2
  = if pool_at (GetEventHandler T w).1 w then created w else created w ++ [T].
Proof.
  rewrite GetEventHandler_unfold. simpl. by case_match.
Qed.

(** If the pool is there already, resolving the handler changes nothing. *)
Lemma GetEventHandler_existing T w i p :
  Registry.eventID (registry w) !! T = Some i → pool_at i w = Some p →
  GetEventHandler T w = (i, w).
Proof.
  intros Hid Hp. rewrite GetEventHandler_unfold.
  rewrite (RegistryFacts.GetEventId_cached _ _ _ Hid). simpl. rewrite Hp.
  unfold pool_at in Hp. destruct (mEventPools w !! i) as [[q|]|] eqn:E; try done.
  assert (i < length (mEventPools w)) by (apply lookup_lt_is_Some; eauto).
  unfold grown. rewrite bool_decide_eq_false_2 by lia. by destruct w.
Qed.

(** ** The invariant is kept *)

Lemma wf_initial_world : wf (@initial_world Args Payload).
Proof.
  split; simpl.
  - apply RegistryFacts.wf_initial.
  - intros i p H. by destruct i.
  - intros i p s H. by destruct i.
  - intros i p e H. by destruct i.
  - intros s e H. by apply elem_of_nil in H.
Qed.

Lemma wf_fresh_absent w T :
  wf w → Registry.eventID (registry w) !! T = None →
  pool_at (Registry.GetEventId T (registry w)).1 w = None.
Proof.
  intros Hwf Hnone. rewrite (RegistryFacts.GetEventId_fresh _ _ Hnone). simpl.
  destruct (pool_at (Registry.id (registry w)) w) as [p|] eqn:E; [|done].
  apply (wf_pool _ Hwf) in E. apply (Registry.wf_bound _ (wf_registry _ Hwf)) in E. lia.
Qed.

Lemma GetEventHandler_lookup T w :
  Registry.eventID (registry (GetEventHandler T w).2) !! T
  = Some (GetEventHandler T w).1.
Proof.
  rewrite GetEventHandler_registry, GetEventHandler_fst.
  apply RegistryFacts.GetEventId_lookup.
Qed.

Lemma pool_at_handler_before T w :
  wf w → pool_at (GetEventHandler T w).1 w = pool_of w T.
Proof.
  intros Hwf. rewrite GetEventHandler_fst. unfold pool_of.
  destruct (Registry.eventID (registry w) !! T) as [i|] eqn:E; simpl.
  - by rewrite (RegistryFacts.GetEventId_cached _ _ _ E).
  - by apply wf_fresh_absent.
Qed.

Lemma pool_of_GetEventHandler_self T w :
  wf w →
  pool_of (GetEventHandler T w).2 T = Some (default (new_EventPool T) (pool_of w T)).
Proof.
  intros Hwf. unfold pool_of at 1. rewrite GetEventHandler_lookup. simpl.
  rewrite GetEventHandler_pool_at_self. by rewrite pool_at_handler_before.
Qed.

Lemma pool_of_GetEventHandler_other T U w :
  wf w → U ≠ T → pool_of (GetEventHandler T w).2 U = pool_of w U.
Proof.
  intros Hwf Hne. unfold pool_of.
  rewrite GetEventHandler_registry, RegistryFacts.GetEventId_other by done.
  destruct (Registry.eventID (registry w) !! U) as [j|] eqn:E; simpl; [|done].
  apply GetEventHandler_pool_at_other. intros ->.
  pose proof (GetEventHandler_lookup T w) as HT.
  rewrite GetEventHandler_registry in HT.
  apply (RegistryFacts.GetEventId_mono T) in E.
  apply Hne. eapply (Registry.wf_inj _ (RegistryFacts.GetEventId_wf T _ (wf_registry _ Hwf))); eauto.
Qed.

Lemma GetEventHandler_wf T w : wf w → wf (GetEventHandler T w).2.
Proof.
  intros Hwf.
  assert (∀ i p, pool_at i (GetEventHandler T w).2 = Some p →
    (pool_at i w = Some p) ∨ (i = (GetEventHandler T w).1 ∧ p = new_EventPool T)) as Hcase.
  { intros i p Hp. destruct (decide (i = (GetEventHandler T w).1)) as [->|Hne].
    - rewrite GetEventHandler_pool_at_self in Hp.
      destruct (pool_at (GetEventHandler T w).1 w); simpl in Hp; simplify_eq; auto.
    - rewrite GetEventHandler_pool_at_other in Hp by done. auto. }
  split.
  - rewrite GetEventHandler_registry. apply RegistryFacts.GetEventId_wf, Hwf.
  - intros i p Hp. apply Hcase in Hp as [Hp|[-> ->]].
    + rewrite GetEventHandler_registry. apply RegistryFacts.GetEventId_mono.
      by apply (wf_pool _ Hwf).
    + apply GetEventHandler_lookup.
  - intros i p s Hp Hs. apply Hcase in Hp as [Hp|[-> ->]].
    + by apply (wf_slot _ Hwf i).
    + by apply elem_of_nil in Hs.
  - intros i p e Hp He. apply Hcase in Hp as [Hp|[-> ->]].
    + by apply (wf_event _ Hwf i).
    + by apply elem_of_nil in He.
  - rewrite GetEventHandler_log. apply Hwf.
Qed.

(** The [static_cast<EventPool<Event>&>] of [GetEventHandler<Event>] is to the
    type the pool was created with. *)
Lemma GetEventHandler_cast T w :
  wf w →
  ∃ p, pool_at (GetEventHandler T w).1 (GetEventHandler T w).2 = Some p ∧
       pool_type p = T.
Proof.
  intros Hwf. pose proof (GetEventHandler_wf T w Hwf) as Hwf1.
  rewrite GetEventHandler_pool_at_self. eexists; split; [done|].
  pose proof (GetEventHandler_pool_at_self T w) as Hp.
  apply (wf_pool _ Hwf1) in Hp.
  eapply (Registry.wf_inj _ (wf_registry _ Hwf1)); [exact Hp|].
  apply GetEventHandler_lookup.
Qed.

Lemma note_wf o w :
  wf w →
  match o with Invoked s e => slot_type s = ev_type e | Entered _ => True end →
  wf (note o w).
Proof.
  intros [H1 H2 H3 H4 H5] Ho. split; try done. simpl.
  intros s e [Hin|Hin%list_elem_of_singleton]%elem_of_app; [by apply H5|].
  by subst o.
Qed.

Lemma update_pool_wf i f w :
  wf w →
  (∀ p, pool_at i w = Some p →
     pool_type (f p) = pool_type p ∧
     (∀ s, s ∈ slots (mSignal (f p)) → slot_type s = pool_type p) ∧
     (∀ e, e ∈ mEventQueue (f p) → ev_type e = pool_type p)) →
  wf (update_pool i f w).
Proof.
  intros [H1 H2 H3 H4 H5] Hf.
  assert (∀ j q, pool_at j (update_pool i f w) = Some q →
    (i ≠ j ∧ pool_at j w = Some q) ∨ (i = j ∧ ∃ p, pool_at i w = Some p ∧ q = f p)) as Hcase.
  { intros j q. rewrite pool_at_update. case_decide as Hij; [|auto].
    subst j. destruct (pool_at i w) as [p|]; simpl; [|done].
    intros [= <-]. right. eauto. }
  split; try done.
  - intros j q [[_ Hq]|[<- (p & Hp & ->)]]%Hcase; simpl; [by apply H2|].
    destruct (Hf p Hp) as (-> & _ & _). by apply H2.
  - intros j q s [[_ Hq]|[<- (p & Hp & ->)]]%Hcase Hs; [by eapply H3|].
    destruct (Hf p Hp) as (-> & Hs' & _). by apply Hs'.
  - intros j q e [[_ Hq]|[<- (p & Hp & ->)]]%Hcase He; [by eapply H4|].
    destruct (Hf p Hp) as (-> & _ & He'). by apply He'.
Qed.

Lemma EventPool_ClearEventQueue_wf i w : wf w → wf (EventPool_ClearEventQueue i w).
Proof.
  intros Hwf. apply update_pool_wf; [done|]. intros p Hp. simpl.
  split_and!; [done| |by intros e ?%elem_of_nil].
  intros s Hs. by apply (wf_slot _ Hwf i).
Qed.

Lemma pool_at_ClearEventQueues i w :
  pool_at i (EventBus_ClearEventQueues w) = clear_queue <$> pool_at i w.
Proof.
  unfold pool_at, EventBus_ClearEventQueues. simpl. rewrite list_lookup_fmap.
  by destruct (mEventPools w !! i) as [[p|]|].
Qed.

Lemma EventBus_ClearEventQueues_wf w : wf w → wf (EventBus_ClearEventQueues w).
Proof.
  intros [H1 H2 H3 H4 H5].
  assert (∀ i q, pool_at i (EventBus_ClearEventQueues w) = Some q →
    ∃ p, pool_at i w = Some p ∧ q = clear_queue p) as Hcase.
  { intros i q. rewrite pool_at_ClearEventQueues.
    destruct (pool_at i w) as [p|]; simpl; [|done]. intros [= <-]. eauto. }
  split; try done.
  - intros i q (p & Hp & ->)%Hcase. simpl. by apply H2.
  - intros i q s (p & Hp & ->)%Hcase Hs. simpl in *. by eapply H3.
  - intros i q e (p & Hp & ->)%Hcase He. by apply elem_of_nil in He.
Qed.

Lemma external_GetEventId_wf T w : wf w → wf (external_GetEventId T w).
Proof.
  intros [H1 H2 H3 H4 H5]. split; try done; simpl.
  - by apply RegistryFacts.GetEventId_wf.
  - intros i p Hp. apply RegistryFacts.GetEventId_mono. by apply H2.
Qed.

(** ** Calls that invoke no callable *)

Section Quiet.

Variable rec : @Call Args Payload → @World Args Payload → Outcome (@World Args Payload).

Lemma call_member_ClearEventQueue h w :
  call_member rec "ClearEventQueue" h w = Done (EventPool_ClearEventQueue h w).
Proof. reflexivity. Qed.

Lemma call_member_DispatchEvents h w :
  call_member rec "DispatchEvents" h w = IllFormed.
Proof. reflexivity. Qed.

Lemma EventBus_EnqueueEvent_unfold T a w :
  EventBus_EnqueueEvent construct T a w
  = EventPool_EnqueueEvent construct (GetEventHandler T w).1 T a (GetEventHandler T w).2.
Proof. unfold EventBus_EnqueueEvent. by destruct (GetEventHandler T w). Qed.

Lemma EventBus_TriggerEvent_unfold T a w :
  EventBus_TriggerEvent construct rec T a w
  = EventPool_TriggerEvent construct rec (GetEventHandler T w).1 T a (GetEventHandler T w).2.
Proof. unfold EventBus_TriggerEvent. by destruct (GetEventHandler T w). Qed.

Lemma EventBus_SubscribeToEvent_unfold T name body w :
  (EventBus_SubscribeToEvent T name body w).2
  = update_pool (GetEventHandler T w).1
      (λ p, {| pool_type := pool_type p;
               mSignal := Signal_Bind T name body (mSignal p);
               mEventQueue := mEventQueue p |}) (GetEventHandler T w).2.
Proof. unfold EventBus_SubscribeToEvent. by destruct (GetEventHandler T w). Qed.

Lemma EventBus_ClearEventQueuesOf_cons T Ts w :
  EventBus_ClearEventQueuesOf rec (T :: Ts) w
  = EventBus_ClearEventQueuesOf rec Ts
      (EventPool_ClearEventQueue (GetEventHandler T w).1 (GetEventHandler T w).2).
Proof. simpl. by destruct (GetEventHandler T w). Qed.

(** The selective dispatch completes for the empty pack only. *)
Lemma EventBus_DispatchQueuedEventsOf_Done Ts w w' :
  EventBus_DispatchQueuedEventsOf rec Ts w = Done w' → Ts = [] ∧ w' = w.
Proof.
  destruct Ts as [|T Ts]; simpl.
  - by intros [= <-].
  - destruct (GetEventHandler T w) as [h w1]. done.
Qed.

Lemma EventBus_EnqueueEvent_wf T a w :
  wf w → wf (EventBus_EnqueueEvent construct T a w).
Proof.
  intros Hwf. rewrite EventBus_EnqueueEvent_unfold.
  pose proof (GetEventHandler_wf T w Hwf) as Hwf1.
  destruct (GetEventHandler_cast T w Hwf) as (p & Hp & Hty).
  apply update_pool_wf; [done|]. intros q Hq. simpl.
  assert (q = p) as -> by congruence.
  split_and!; [done|intros s Hs; by apply (wf_slot _ Hwf1 _ _ s Hp)|].
  intros e [He|Hx%list_elem_of_singleton]%elem_of_app; [|by subst].
  by apply (wf_event _ Hwf1 _ _ _ Hp).
Qed.

Lemma EventBus_SubscribeToEvent_wf T name body w :
  wf w → wf (EventBus_SubscribeToEvent T name body w).2.
Proof.
  intros Hwf. rewrite EventBus_SubscribeToEvent_unfold.
  pose proof (GetEventHandler_wf T w Hwf) as Hwf1.
  destruct (GetEventHandler_cast T w Hwf) as (p & Hp & Hty).
  apply update_pool_wf; [done|]. intros q Hq. simpl.
  assert (q = p) as -> by congruence.
  split_and!; [done| |intros e He; by apply (wf_event _ Hwf1 _ _ e Hp)].
  intros s [Hs|Hx%list_elem_of_singleton]%elem_of_app; [|by subst].
  by apply (wf_slot _ Hwf1 _ _ _ Hp).
Qed.

Lemma EventBus_UnsubscribeFromEvent_wf k w :
  wf w → wf (EventBus_UnsubscribeFromEvent k w).
Proof.
  intros Hwf. apply update_pool_wf; [done|]. intros p Hp. simpl.
  split_and!; [done| |intros e He; by apply (wf_event _ Hwf _ _ e Hp)].
  intros s [_ Hs]%list_elem_of_filter. by apply (wf_slot _ Hwf _ _ _ Hp).
Qed.

Lemma EventBus_ClearEventQueuesOf_wf Ts w w' :
  wf w → EventBus_ClearEventQueuesOf rec Ts w = Done w' → wf w'.
Proof.
  revert w. induction Ts as [|T Ts IH]; intros w Hwf.
  - by intros [= <-].
  - rewrite EventBus_ClearEventQueuesOf_cons. apply IH.
    by apply EventPool_ClearEventQueue_wf, GetEventHandler_wf.
Qed.

Lemma step_quiet_wf c w w' :
  quiet c = true → wf w → step construct rec c w = Done w' → wf w'.
Proof.
  intros Hq Hwf. assert (wf (note (Entered c) w)) as Hwf0 by by apply note_wf.
  destruct c as [T a|T a| |Ts| |Ts|T name body|k|T]; simpl in *; try done.
  - intros [= <-]. by apply EventBus_EnqueueEvent_wf.
  - by intros [_ ->]%EventBus_DispatchQueuedEventsOf_Done.
  - intros [= <-]. by apply EventBus_ClearEventQueues_wf.
  - by apply EventBus_ClearEventQueuesOf_wf.
  - intros [= <-]. by apply EventBus_SubscribeToEvent_wf.
  - intros [= <-]. by apply EventBus_UnsubscribeFromEvent_wf.
  - intros [= <-]. by apply external_GetEventId_wf.
Qed.

End Quiet.

Lemma atomic_wf w w' : wf w → atomic construct w w' → wf w'.
Proof.
  intros Hwf Hat. destruct Hat as [rec c w w' Hq Hstep|T a w|w|s e w Hty|i w].
  - by eapply step_quiet_wf.
  - by apply GetEventHandler_wf, note_wf.
  - by apply note_wf.
  - by apply note_wf.
  - by apply EventPool_ClearEventQueue_wf.
Qed.

Lemma steps_wf w w' : wf w → rtc (atomic construct) w w' → wf w'.
Proof. intros Hwf Hrtc. induction Hrtc; eauto using atomic_wf. Qed.

(** ** Every run is a sequence of atomic state changes *)

Lemma bind_Done {A B : Type} (m : Outcome A) (k : A → Outcome B) b :
  m ≫= k = Done b → ∃ a, m = Done a ∧ k a = Done b.
Proof. destruct m as [a| | |]; [eauto|done..]. Qed.

Section Steps.

Variable rec : @Call Args Payload → @World Args Payload → Outcome (@World Args Payload).

Hypothesis rec_steps :
  ∀ c w w', wf w → rec c w = Done w' → rtc (atomic construct) w w'.

Lemma run_steps cs w w' :
  wf w → run rec cs w = Done w' → rtc (atomic construct) w w'.
Proof.
  revert w. induction cs as [|c cs IH]; intros w Hwf; simpl.
  - intros [= <-]. done.
  - intros (w1 & H1 & H2)%bind_Done.
    pose proof (rec_steps _ _ _ Hwf H1) as Hs1.
    etrans; [exact Hs1|]. apply IH; [|done]. by eapply steps_wf.
Qed.

Lemma call_slot_steps s e w w' :
  wf w → slot_type s = ev_type e →
  call_slot rec s e w = Done w' → rtc (atomic construct) w w'.
Proof.
  intros Hwf Hty Hrun. unfold call_slot in Hrun.
  eapply rtc_l; [by apply atomic_invoked|].
  apply run_steps in Hrun; [done|]. by apply note_wf.
Qed.

Lemma invoke_steps ss e w w' :
  wf w → (∀ s, s ∈ ss → slot_type s = ev_type e) →
  invoke rec ss e w = Done w' → rtc (atomic construct) w w'.
Proof.
  revert w. induction ss as [|s ss IH]; intros w Hwf Hty; simpl.
  - intros [= <-]. done.
  - intros (w1 & H1 & H2)%bind_Done.
    apply call_slot_steps in H1; [|done|apply Hty; left].
    etrans; [exact H1|]. apply IH; [by eapply steps_wf| |done].
    intros s' Hs'. apply Hty. by right.
Qed.

Lemma Signal_call_steps this e w w' :
  wf w → (∀ p, pool_at this w = Some p → ev_type e = pool_type p) →
  Signal_call rec this e w = Done w' → rtc (atomic construct) w w'.
Proof.
  intros Hwf Hty. unfold Signal_call. apply invoke_steps; [done|].
  intros s. unfold slots_at. destruct (pool_at this w) as [p|] eqn:Hp; simpl.
  - intros Hs. rewrite (Hty p eq_refl). by apply (wf_slot _ Hwf this).
  - by intros ?%elem_of_nil.
Qed.

Lemma flush_steps n i this w w' :
  wf w → flush rec n i this w = Done w' → rtc (atomic construct) w w'.
Proof.
  revert i w. induction n as [|n IH]; intros i w Hwf; simpl.
  - intros [= <-]. done.
  - destruct (queue_at this w !! i) as [e|] eqn:He; [|done].
    intros (w1 & H1 & H2)%bind_Done.
    destruct (invalidated this w w1); [done|].
    apply Signal_call_steps in H1; [|done|].
    + etrans; [exact H1|]. eapply IH; [|done]. by eapply steps_wf.
    + intros p Hp. unfold queue_at in He. rewrite Hp in He. simpl in He.
      apply list_elem_of_lookup_2 in He. by apply (wf_event _ Hwf this).
Qed.

Lemma EventPool_DispatchQueuedEvents_steps this w w' :
  wf w → EventPool_DispatchQueuedEvents rec this w = Done w' →
  rtc (atomic construct) w w'.
Proof.
  intros Hwf. unfold EventPool_DispatchQueuedEvents.
  intros (w1 & H1 & [= <-])%bind_Done.
  apply flush_steps in H1; [|done].
  eapply rtc_r; [exact H1|]. apply atomic_flushed.
Qed.

Lemma dispatch_loop_steps n i w w' :
  wf w → dispatch_loop rec n i w = Done w' → rtc (atomic construct) w w'.
Proof.
  revert i w. induction n as [|n IH]; intros i w Hwf; simpl.
  - intros [= <-]. done.
  - destruct (mEventPools w !! i) as [[p|]|]; [| |done].
    + intros (w1 & H1 & H2)%bind_Done.
      case_decide; [|done].
      apply EventPool_DispatchQueuedEvents_steps in H1; [|done].
      etrans; [exact H1|]. eapply IH; [|done]. by eapply steps_wf.
    + by apply IH.
Qed.

Lemma step_steps c w w' :
  wf w → step construct rec c w = Done w' → rtc (atomic construct) w w'.
Proof.
  intros Hwf Hstep. destruct (quiet c) eqn:Hq.
  - apply rtc_once. by eapply atomic_call.
  - destruct c as [T a|T a| |Ts| |Ts|T name body|k|T]; simpl in *; try done.
    + rewrite EventBus_TriggerEvent_unfold in Hstep.
      eapply rtc_l; [apply (atomic_trigger construct T a)|].
      assert (wf (note (Entered (CallTriggerEvent T a)) w)) as Hwf0 by by apply note_wf.
      apply Signal_call_steps in Hstep; [done|by apply GetEventHandler_wf|].
      intros p Hp. destruct (GetEventHandler_cast T _ Hwf0) as (q & Hq' & Hty).
      simpl. congruence.
    + eapply rtc_l; [apply atomic_dispatch|].
      apply dispatch_loop_steps in Hstep; [done|]. by apply note_wf.
Qed.

End Steps.

Lemma exec_steps fuel c w w' :
  wf w → exec construct fuel c w = Done w' → rtc (atomic construct) w w'.
Proof.
  revert c w w'. induction fuel as [|n IH]; intros c w w' Hwf; simpl; [done|].
  by apply step_steps.
Qed.

Lemma program_steps fuel cs w w' :
  wf w → program construct fuel cs w = Done w' → rtc (atomic construct) w w'.
Proof. apply run_steps. intros c. apply exec_steps. Qed.

Lemma Reachable_steps w :
  Reachable construct w → rtc (atomic construct) initial_world w.
Proof. intros (fuel & cs & H). eapply program_steps; [apply wf_initial_world|done]. Qed.

Lemma Reachable_wf w : Reachable construct w → wf w.
Proof.
  intros H%Reachable_steps. eapply steps_wf; [apply wf_initial_world|done].
Qed.

(** ** Runs with passive callables *)

Lemma notes_nil w : notes [] w = w.
Proof. destruct w. unfold notes. simpl. by rewrite app_nil_r. Qed.

Lemma notes_notes tr1 tr2 w : notes tr2 (notes tr1 w) = notes (tr1 ++ tr2) w.
Proof. unfold notes. simpl. by rewrite app_assoc. Qed.

Lemma note_notes o w : note o w = notes [o] w.
Proof. done. Qed.

Lemma update_pool_notes i f tr w :
  update_pool i f (notes tr w) = notes tr (update_pool i f w).
Proof. done. Qed.

Lemma calls_app (tr1 tr2 : list (@Obs Args Payload)) :
  calls (tr1 ++ tr2) = calls tr1 ++ calls tr2.
Proof. unfold calls. apply omap_app. Qed.

Lemma since_notes tr tr' (w : @World Args Payload) :
  since (notes tr w) (notes (tr ++ tr') w) = calls tr'.
Proof.
  unfold since. simpl. rewrite app_assoc, drop_app_length. done.
Qed.

Lemma since_log (w w1 : @World Args Payload) tr :
  log w1 = log w ++ tr → since w w1 = calls tr.
Proof. intros Hlog. unfold since. by rewrite Hlog, drop_app_length. Qed.

Lemma calls_invocations (ss : list (@Slot Args Payload)) e : calls (invocations ss e) = [].
Proof. unfold calls, invocations. induction ss as [|s ss IH]; [done|]. simpl. done. Qed.

Lemma invalidated_invocations this tr ss e (w : @World Args Payload) :
  invalidated this (notes tr w) (notes (tr ++ invocations ss e) w) = false.
Proof. unfold invalidated. by rewrite since_notes, calls_invocations. Qed.

Section Passive.

Variable rec : @Call Args Payload → @World Args Payload → Outcome (@World Args Payload).

Lemma invoke_passive ss e w :
  Forall passive ss → invoke rec ss e w = Done (notes (invocations ss e) w).
Proof.
  revert w. induction ss as [|s ss IH]; intros w Hp; simpl.
  - by rewrite notes_nil.
  - apply Forall_cons in Hp as [Hs Hss]. unfold call_slot. rewrite Hs. simpl.
    rewrite (IH _ Hss). by rewrite note_notes, notes_notes.
Qed.

Lemma flush_passive_from n i this tr w :
  Forall passive (slots_at this w) →
  i + n ≤ length (queue_at this w) →
  flush rec n i this (notes tr w)
  = Done (notes (tr ++ flush_obs (slots_at this w) (take n (drop i (queue_at this w)))) w).
Proof.
  intros Hp. revert i tr. induction n as [|n IH]; intros i tr Hlen.
  - simpl. unfold flush_obs. simpl. by rewrite app_nil_r.
  - destruct (lookup_lt_is_Some_2 (queue_at this w) i) as [e He]; [lia|].
    cbn [flush]. change (queue_at this (notes tr w)) with (queue_at this w).
    rewrite He. unfold Signal_call.
    change (slots_at this (notes tr w)) with (slots_at this w).
    rewrite (invoke_passive _ _ _ Hp). simpl. rewrite notes_notes.
    rewrite invalidated_invocations.
    rewrite IH by lia. rewrite (drop_S _ _ _ He). unfold flush_obs.
    cbn [take]. rewrite bind_cons. by rewrite <- app_assoc.
Qed.

Lemma flush_passive n i this w :
  Forall passive (slots_at this w) →
  i + n ≤ length (queue_at this w) →
  flush rec n i this w
  = Done (notes (flush_obs (slots_at this w) (take n (drop i (queue_at this w)))) w).
Proof.
  intros Hp Hlen. rewrite <- (notes_nil w) at 1.
  by rewrite flush_passive_from.
Qed.

Lemma EventPool_DispatchQueuedEvents_passive this w :
  Forall passive (slots_at this w) →
  EventPool_DispatchQueuedEvents rec this w
  = Done (EventPool_ClearEventQueue this
            (notes (flush_obs (slots_at this w) (queue_at this w)) w)).
Proof.
  intros Hp. unfold EventPool_DispatchQueuedEvents.
  rewrite flush_passive by (done || lia). simpl.
  by rewrite drop_0, firstn_all.
Qed.

Lemma slots_at_update_queue i j (f : @EventPool Args Payload → @EventPool Args Payload) w :
  (∀ p, mSignal (f p) = mSignal p) →
  slots_at j (update_pool i f w) = slots_at j w.
Proof.
  intros Hf. unfold slots_at. rewrite pool_at_update. case_decide; [|done].
  destruct (pool_at j w) as [p|]; simpl; [|done]. by rewrite Hf.
Qed.

Lemma all_passive_Forall w this : all_passive w → Forall passive (slots_at this w).
Proof. intros Hp. apply Forall_forall. intros s Hs. by apply (Hp this). Qed.

Lemma dispatch_loop_passive n i w :
  all_passive w → i + n = length (mEventPools w) →
  ∃ w', dispatch_loop rec n i w = Done w' ∧
    registry w' = registry w ∧ created w' = created w ∧
    log w' = log w ++ (omap id (drop i (mEventPools w)) ≫= pool_obs) ∧
    ∀ j, mEventPools w' !! j
         = if decide (i ≤ j) then fmap clear_queue <$> mEventPools w !! j
           else mEventPools w !! j.
Proof.
  revert i w. induction n as [|n IH]; intros i w Hp Hlen; simpl.
  - exists w. split_and!; try done.
    + rewrite drop_ge by lia. simpl. by rewrite app_nil_r.
    + intros j. case_decide; [|done]. by rewrite lookup_ge_None_2 by lia.
  - destruct (lookup_lt_is_Some_2 (mEventPools w) i) as [o Ho]; [lia|].
    rewrite Ho. rewrite (drop_S _ _ _ Ho). destruct o as [p|].
    + rewrite EventPool_DispatchQueuedEvents_passive by by apply all_passive_Forall.
      simpl. rewrite length_alter, decide_True by done.
      set (w1 := EventPool_ClearEventQueue i _).
      destruct (IH (S i) w1) as (w' & Hrun & Hr & Hc & Hl & Hm).
      { intros j s. unfold w1, EventPool_ClearEventQueue.
        rewrite slots_at_update_queue by done. apply Hp. }
      { unfold w1. simpl. rewrite length_alter. lia. }
      exists w'. split_and!; try done.
      * rewrite Hl. unfold w1. simpl. rewrite drop_alter_lt by lia.
        rewrite <- app_assoc. do 2 f_equal.
        unfold pool_obs, slots_at, queue_at, pool_at. simpl. by rewrite Ho.
      * intros j. rewrite Hm. unfold w1. simpl.
        rewrite list_lookup_alter. repeat case_decide; try lia; try done.
        subst j. done.
    + destruct (IH (S i) w) as (w' & Hrun & Hr & Hc & Hl & Hm); [done|lia|].
      exists w'. split_and!; try done.
      intros j. rewrite Hm. repeat case_decide; try lia; try done.
      assert (j = i) as -> by lia. by rewrite Ho.
Qed.

Lemma EventBus_DispatchQueuedEvents_passive w :
  all_passive w →
  EventBus_DispatchQueuedEvents rec w
  = Done (notes (pools_in_order w ≫= pool_obs) (EventBus_ClearEventQueues w)).
Proof.
  intros Hp. unfold EventBus_DispatchQueuedEvents.
  destruct (dispatch_loop_passive (length (mEventPools w)) 0 w Hp)
    as (w' & -> & Hr & Hc & Hl & Hm); [done|].
  f_equal. destruct w' as [r' l' c' g']. unfold notes, EventBus_ClearEventQueues.
  simpl in *. subst. f_equal. apply list_eq. intros j.
  by rewrite Hm, list_lookup_fmap.
Qed.

End Passive.

(** ** Routing by type *)

Lemma pool_of_typed w T p : wf w → pool_of w T = Some p → pool_type p = T.
Proof.
  intros Hwf. unfold pool_of.
  destruct (Registry.eventID (registry w) !! T) as [i|] eqn:E; simpl; [|done].
  intros Hp. apply (wf_pool _ Hwf) in Hp as Hid.
  by eapply (Registry.wf_inj _ (wf_registry _ Hwf)).
Qed.

Lemma pool_of_at w T p :
  pool_of w T = Some p →
  ∃ i, Registry.eventID (registry w) !! T = Some i ∧ pool_at i w = Some p.
Proof.
  unfold pool_of.
  destruct (Registry.eventID (registry w) !! T) as [i|] eqn:E; simpl; [eauto|done].
Qed.

Lemma bound_typed w T s : wf w → s ∈ bound w T → slot_type s = T.
Proof.
  intros Hwf. unfold bound. destruct (pool_of w T) as [p|] eqn:E; simpl.
  - intros Hs. rewrite <- (pool_of_typed w T p Hwf E).
    apply pool_of_at in E as (i & _ & Hp). by apply (wf_slot _ Hwf i).
  - by intros ?%elem_of_nil.
Qed.

Lemma pending_typed w T e : wf w → e ∈ pending w T → ev_type e = T.
Proof.
  intros Hwf. unfold pending. destruct (pool_of w T) as [p|] eqn:E; simpl.
  - intros He. rewrite <- (pool_of_typed w T p Hwf E).
    apply pool_of_at in E as (i & _ & Hp). by apply (wf_event _ Hwf i).
  - by intros ?%elem_of_nil.
Qed.

(** C9.  In every reachable world, for distinct event types [T] and [U]: no
    invocation that ever happened gave an event triggered or enqueued as [T]
    to a callable subscribed for [U]; the callables that a trigger or a
    dispatch of [T] invokes (those bound in [T]'s pool) contain none
    subscribed for [U]; and no event enqueued as [T] waits in [U]'s buffer. *)
Theorem events_reach_only_their_type (w : @World Args Payload) (T U : TypeKey) :
  Reachable construct w → T ≠ U →
  (∀ s e, Invoked s e ∈ log w → ev_type e = T → slot_type s ≠ U) ∧
  (∀ s, s ∈ bound w T → slot_type s ≠ U) ∧
  (∀ e, e ∈ pending w U → ev_type e ≠ T).
Proof.
  intros Hwf%Reachable_wf Hne. split_and!.
  - intros s e Hin He Hs. apply (wf_log _ Hwf) in Hin. congruence.
  - intros s Hs%(bound_typed _ _ _ Hwf). congruence.
  - intros e He%(pending_typed _ _ _ Hwf). congruence.
Qed.

(** ** What the calls do to the buffers and the bindings *)

Lemma pool_of_update i f w T :
  pool_of (update_pool i f w) T
  = if decide (Registry.eventID (registry w) !! T = Some i)
    then f <$> pool_of w T else pool_of w T.
Proof.
  unfold pool_of. simpl.
  destruct (Registry.eventID (registry w) !! T) as [j|] eqn:E; simpl.
  - rewrite pool_at_update. repeat case_decide; simplify_eq; done.
  - try case_decide; done.
Qed.

Lemma pool_of_ClearEventQueues w T :
  pool_of (EventBus_ClearEventQueues w) T = clear_queue <$> pool_of w T.
Proof.
  unfold pool_of. simpl.
  destruct (Registry.eventID (registry w) !! T) as [j|] eqn:E; simpl; [|done].
  apply pool_at_ClearEventQueues.
Qed.

Lemma pending_GetEventHandler T U w :
  wf w → pending (GetEventHandler T w).2 U = pending w U.
Proof.
  intros Hwf. unfold pending. destruct (decide (U = T)) as [->|Hne].
  - rewrite pool_of_GetEventHandler_self by done. by destruct (pool_of w T).
  - by rewrite pool_of_GetEventHandler_other.
Qed.

Lemma bound_GetEventHandler T U w :
  wf w → bound (GetEventHandler T w).2 U = bound w U.
Proof.
  intros Hwf. unfold bound. destruct (decide (U = T)) as [->|Hne].
  - rewrite pool_of_GetEventHandler_self by done. by destruct (pool_of w T).
  - by rewrite pool_of_GetEventHandler_other.
Qed.

Lemma slots_at_handler T w :
  wf w → slots_at (GetEventHandler T w).1 (GetEventHandler T w).2 = bound w T.
Proof.
  intros Hwf. unfold slots_at, bound. rewrite GetEventHandler_pool_at_self.
  rewrite pool_at_handler_before by done. by destruct (pool_of w T).
Qed.

Lemma queue_at_handler T w :
  wf w → queue_at (GetEventHandler T w).1 (GetEventHandler T w).2 = pending w T.
Proof.
  intros Hwf. unfold queue_at, pending. rewrite GetEventHandler_pool_at_self.
  rewrite pool_at_handler_before by done. by destruct (pool_of w T).
Qed.

(** ** Deliveries of a flush *)

Lemma deliveries_app (tr1 tr2 : list (@Obs Args Payload)) :
  deliveries (tr1 ++ tr2) = deliveries tr1 ++ deliveries tr2.
Proof. unfold deliveries. apply omap_app. Qed.

Lemma deliveries_to_app T (tr1 tr2 : list (@Obs Args Payload)) :
  deliveries_to T (tr1 ++ tr2) = deliveries_to T tr1 ++ deliveries_to T tr2.
Proof. unfold deliveries_to. by rewrite deliveries_app, filter_app. Qed.

Lemma deliveries_invocations (ss : list (@Slot Args Payload)) e :
  deliveries (invocations ss e) = (λ s, (s, e)) <$> ss.
Proof. induction ss as [|s ss IH]; simpl; [done|]. by f_equal. Qed.

Lemma deliveries_flush_obs (ss : list (@Slot Args Payload)) (q : list (@Event Payload)) :
  deliveries (flush_obs ss q) = pairing ss q.
Proof.
  unfold flush_obs, pairing. induction q as [|e q IH]; [done|].
  by rewrite !bind_cons, deliveries_app, deliveries_invocations, IH.
Qed.

Lemma filter_all {A} (P : A → Prop) `{!∀ x, Decision (P x)} (l : list A) :
  (∀ x, x ∈ l → P x) → filter P l = l.
Proof.
  induction l as [|x l IH]; intros Hall; [done|].
  rewrite filter_cons_True by (apply Hall; left).
  f_equal. apply IH. intros y Hy. apply Hall. by right.
Qed.

Lemma filter_none {A} (P : A → Prop) `{!∀ x, Decision (P x)} (l : list A) :
  (∀ x, x ∈ l → ¬ P x) → filter P l = [].
Proof.
  induction l as [|x l IH]; intros Hall; [done|].
  rewrite filter_cons_False by (apply Hall; left).
  apply IH. intros y Hy. apply Hall. by right.
Qed.

Lemma filter_pairing_all T (ss : list (@Slot Args Payload)) (q : list (@Event Payload)) :
  (∀ s, s ∈ ss → slot_type s = T) →
  filter (λ d : Slot * Event, slot_type d.1 = T) (pairing ss q) = pairing ss q.
Proof.
  intros Hty. apply filter_all. intros [s e].
  unfold pairing. rewrite list_elem_of_bind. intros (e' & Hin & _).
  apply list_elem_of_fmap in Hin as (s' & [= -> ->] & Hs). simpl. by apply Hty.
Qed.

Lemma filter_pairing_none T (ss : list (@Slot Args Payload)) (q : list (@Event Payload)) :
  (∀ s, s ∈ ss → slot_type s ≠ T) →
  filter (λ d : Slot * Event, slot_type d.1 = T) (pairing ss q) = [].
Proof.
  intros Hty. apply filter_none. intros [s e].
  unfold pairing. rewrite list_elem_of_bind. intros (e' & Hin & _).
  apply list_elem_of_fmap in Hin as (s' & [= -> ->] & Hs). simpl. by apply Hty.
Qed.

Lemma deliveries_to_pool_obs T (p : @EventPool Args Payload) :
  (∀ s, s ∈ slots (mSignal p) → slot_type s = pool_type p) →
  deliveries_to T (pool_obs p)
  = if decide (pool_type p = T) then pairing (slots (mSignal p)) (mEventQueue p) else [].
Proof.
  intros Hty. unfold deliveries_to, pool_obs. rewrite deliveries_flush_obs.
  case_decide as HT.
  - apply filter_pairing_all. intros s Hs. rewrite <- HT. by apply Hty.
  - apply filter_pairing_none. intros s Hs. rewrite (Hty s Hs). done.
Qed.

Lemma deliveries_to_pools_filter T (L : list (@EventPool Args Payload)) :
  (∀ p s, p ∈ L → s ∈ slots (mSignal p) → slot_type s = pool_type p) →
  deliveries_to T (L ≫= pool_obs)
  = filter (λ p, pool_type p = T) L
      ≫= (λ p, pairing (slots (mSignal p)) (mEventQueue p)).
Proof.
  induction L as [|p L IH]; intros Hty; [done|].
  rewrite bind_cons, deliveries_to_app, deliveries_to_pool_obs, IH.
  - rewrite filter_cons. by case_decide.
  - intros q s Hq. apply Hty. by right.
  - intros s. apply Hty. by left.
Qed.

(** At most one pool has a given type: the ids of the types are distinct. *)
Lemma filter_pool_type (idx : TypeKey → option nat) T k
    (l : list (option (@EventPool Args Payload))) :
  (∀ U V i, idx U = Some i → idx V = Some i → U = V) →
  (∀ j q, l !! j = Some (Some q) → idx (pool_type q) = Some (k + j)) →
  filter (λ p, pool_type p = T) (omap id l)
  = match idx T with
    | Some i => if decide (k ≤ i) then option_list (mjoin (l !! (i - k))) else []
    | None => []
    end.
Proof.
  intros Hinj. revert k. induction l as [|o l IH]; intros k Hl.
  - simpl. destruct (idx T); [|done]. by case_decide.
  - assert (∀ j q, l !! j = Some (Some q) → idx (pool_type q) = Some (S k + j)) as Hl'.
    { intros j q Hj. replace (S k + j) with (k + S j) by lia. by apply Hl. }
    specialize (IH (S k) Hl'). destruct o as [q|].
    + pose proof (Hl 0 q eq_refl) as Hq. rewrite Nat.add_0_r in Hq.
      change (omap id (Some q :: l)) with (q :: omap id l).
      rewrite filter_cons, IH. clear IH.
      case_decide as HT.
      * subst T. rewrite Hq. cbn beta iota.
        rewrite (decide_True (P:=k ≤ k)), (decide_False (P:=S k ≤ k)) by lia.
        by rewrite Nat.sub_diag.
      * destruct (idx T) as [i|] eqn:Hi; [|done].
        assert (i ≠ k) by (intros ->; apply HT; eauto).
        repeat case_decide; try lia; try done.
        by replace (i - k) with (S (i - S k)) by lia.
    + change (omap id (None :: l)) with (omap id l).
      rewrite IH. clear IH.
      destruct (idx T) as [i|] eqn:Hi; [|done].
      repeat case_decide; try lia; try done.
      * by replace (i - k) with (S (i - S k)) by lia.
      * assert (i = k) as -> by lia. by rewrite Nat.sub_diag.
Qed.

Lemma filter_pools_in_order T w :
  wf w →
  filter (λ p, pool_type p = T) (pools_in_order w) = option_list (pool_of w T).
Proof.
  intros Hwf. unfold pools_in_order.
  rewrite (filter_pool_type (λ U, Registry.eventID (registry w) !! U) T 0).
  - unfold pool_of, pool_at.
    destruct (Registry.eventID (registry w) !! T) as [i|]; simpl; [|done].
    rewrite Nat.sub_0_r. by destruct (mEventPools w !! i) as [[p|]|].
  - apply (Registry.wf_inj _ (wf_registry _ Hwf)).
  - intros j q Hj. apply (wf_pool _ Hwf). simpl. unfold pool_at. by rewrite Hj.
Qed.

Lemma elem_of_pools_in_order p w :
  p ∈ pools_in_order w ↔ ∃ i, pool_at i w = Some p.
Proof.
  unfold pools_in_order, pool_at. rewrite list_elem_of_omap. split.
  - intros (o & [i Hi]%list_elem_of_lookup_1 & Ho). simpl in Ho. subst o.
    exists i. by rewrite Hi.
  - intros [i Hi]. destruct (mEventPools w !! i) as [[q|]|] eqn:E; simplify_eq.
    exists (Some p). split; [|done]. by eapply list_elem_of_lookup_2.
Qed.

(** A flush of all pools gives the callables of [T] the pending events of
    [T], and nothing else. *)
Lemma deliveries_to_pools T w :
  wf w →
  deliveries_to T (pools_in_order w ≫= pool_obs) = pairing (bound w T) (pending w T).
Proof.
  intros Hwf. rewrite deliveries_to_pools_filter.
  - rewrite filter_pools_in_order by done. unfold bound, pending.
    destruct (pool_of w T) as [p|]; simpl; [|done]. by rewrite app_nil_r.
  - intros p s [i Hi]%elem_of_pools_in_order. by apply (wf_slot _ Hwf i).
Qed.

(** ** Enqueue, clear, and a dispatch of empty buffers *)

Lemma run_app rec (cs1 cs2 : list (@Call Args Payload)) w :
  run rec (cs1 ++ cs2) w = run rec cs1 w ≫= run rec cs2.
Proof.
  revert w. induction cs1 as [|c cs1 IH]; intros w; simpl; [done|].
  destruct (rec c w) as [w1| | |]; simpl; [apply IH|done..].
Qed.

Lemma slots_at_GetEventHandler j T w :
  slots_at j (GetEventHandler T w).2 = slots_at j w.
Proof.
  unfold slots_at. destruct (decide (j = (GetEventHandler T w).1)) as [->|Hne].
  - rewrite GetEventHandler_pool_at_self.
    by destruct (pool_at (GetEventHandler T w).1 w).
  - by rewrite GetEventHandler_pool_at_other.
Qed.

Lemma slots_at_EnqueueEvent j T a w :
  slots_at j (EventBus_EnqueueEvent construct T a w) = slots_at j w.
Proof.
  rewrite EventBus_EnqueueEvent_unfold. unfold EventPool_EnqueueEvent.
  rewrite slots_at_update_queue by done. apply slots_at_GetEventHandler.
Qed.

Lemma log_EnqueueEvent T a w :
  log (EventBus_EnqueueEvent construct T a w) = log w.
Proof. rewrite EventBus_EnqueueEvent_unfold. simpl. apply GetEventHandler_log. Qed.

Lemma pool_of_EnqueueEvent T a U w :
  wf w →
  pool_of (EventBus_EnqueueEvent construct T a w) U
  = if decide (U = T)
    then Some {| pool_type := T;
                 mSignal := from_option mSignal Signal_empty (pool_of w T);
                 mEventQueue := pending w T ++ [build construct T a] |}
    else pool_of w U.
Proof.
  intros Hwf. pose proof (GetEventHandler_wf T w Hwf) as Hwf1.
  rewrite EventBus_EnqueueEvent_unfold. unfold EventPool_EnqueueEvent.
  rewrite pool_of_update. case_decide as HU; case_decide as HT; subst.
  - rewrite pool_of_GetEventHandler_self by done. simpl. unfold pending.
    pose proof (pool_of_typed w T) as Hty.
    destruct (pool_of w T) as [p|]; simpl; [|done]. by rewrite (Hty p).
  - exfalso. apply HT.
    eapply (Registry.wf_inj _ (wf_registry _ Hwf1)); [done|apply GetEventHandler_lookup].
  - by rewrite GetEventHandler_lookup in HU.
  - by apply pool_of_GetEventHandler_other.
Qed.

Lemma pending_EnqueueEvent T a U w :
  wf w →
  pending (EventBus_EnqueueEvent construct T a w) U
  = if decide (U = T) then pending w T ++ [build construct T a] else pending w U.
Proof.
  intros Hwf. unfold pending at 1. rewrite pool_of_EnqueueEvent by done.
  by case_decide.
Qed.

Lemma bound_EnqueueEvent T a U w :
  wf w → bound (EventBus_EnqueueEvent construct T a w) U = bound w U.
Proof.
  intros Hwf. unfold bound at 1. rewrite pool_of_EnqueueEvent by done.
  case_decide; [subst|done]. simpl. unfold bound. by destruct (pool_of w T).
Qed.

(** A run of enqueues appends the events to the buffer of [T] and changes
    nothing else. *)
Lemma program_enqueues fuel T (args : list (@Init Args Payload)) w :
  wf w →
  ∃ w1, program construct (S fuel) (CallEnqueueEvent T <$> args) w = Done w1 ∧
    wf w1 ∧
    pending w1 T = pending w T ++ (build construct T <$> args) ∧
    (∀ U, U ≠ T → pending w1 U = pending w U) ∧
    (∀ U, bound w1 U = bound w U) ∧
    (∀ j, slots_at j w1 = slots_at j w) ∧
    log w1 = log w ++ (Entered <$> (CallEnqueueEvent T <$> args)).
Proof.
  revert w. induction args as [|a args IH]; intros w Hwf.
  - exists w. split_and!; try done; simpl; by rewrite app_nil_r.
  - assert (wf (note (Entered (CallEnqueueEvent T a)) w)) as Hwf0 by by apply note_wf.
    pose proof (EventBus_EnqueueEvent_wf T a _ Hwf0) as Hwf1.
    destruct (IH _ Hwf1) as (w1 & Hrun & Hwf' & Hpend & Hother & Hbound & Hslots & Hlog).
    exists w1. unfold program in *. simpl. split_and!; try done.
    + rewrite Hpend, pending_EnqueueEvent, decide_True by done.
      by rewrite <- app_assoc.
    + intros U HU. rewrite Hother, pending_EnqueueEvent, decide_False by done. done.
    + intros U. by rewrite Hbound, bound_EnqueueEvent.
    + intros j. by rewrite Hslots, slots_at_EnqueueEvent.
    + rewrite Hlog, log_EnqueueEvent. simpl. by rewrite <- app_assoc.
Qed.

Lemma deliveries_Entered (cs : list (@Call Args Payload)) :
  deliveries (Entered <$> cs) = [].
Proof. by induction cs. Qed.

Lemma pending_ClearEventQueues U w : pending (EventBus_ClearEventQueues w) U = [].
Proof.
  unfold pending. rewrite pool_of_ClearEventQueues. by destruct (pool_of w U).
Qed.

Lemma bound_ClearEventQueues U w : bound (EventBus_ClearEventQueues w) U = bound w U.
Proof.
  unfold bound. rewrite pool_of_ClearEventQueues. by destruct (pool_of w U).
Qed.

Lemma slots_at_ClearEventQueues j w :
  slots_at j (EventBus_ClearEventQueues w) = slots_at j w.
Proof.
  unfold slots_at. rewrite pool_at_ClearEventQueues. by destruct (pool_at j w).
Qed.

Lemma update_pool_id i (f : @EventPool Args Payload → @EventPool Args Payload) w :
  (∀ p, pool_at i w = Some p → f p = p) → update_pool i f w = w.
Proof.
  intros Hf. unfold update_pool. destruct w as [r l cr lg]. simpl. f_equal.
  apply list_eq. intros j. rewrite list_lookup_alter. case_decide; [subst j|done].
  unfold pool_at in Hf. simpl in Hf.
  destruct (l !! i) as [[p|]|]; simpl; try done. by rewrite Hf.
Qed.

(** A dispatch over empty buffers calls nothing and changes nothing, whatever
    the callables are. *)
Lemma dispatch_loop_empty rec n i w :
  (∀ j, queue_at j w = []) → i + n ≤ length (mEventPools w) →
  dispatch_loop rec n i w = Done w.
Proof.
  intros Hq. revert i. induction n as [|n IH]; intros i Hlen; simpl; [done|].
  destruct (lookup_lt_is_Some_2 (mEventPools w) i) as [o Ho]; [lia|].
  rewrite Ho. destruct o as [p|]; [|apply IH; lia].
  unfold EventPool_DispatchQueuedEvents. rewrite Hq. simpl.
  rewrite length_alter, decide_True by done.
  unfold EventPool_ClearEventQueue. rewrite update_pool_id; [apply IH; lia|].
  intros q Hp. specialize (Hq i). unfold queue_at in Hq. rewrite Hp in Hq.
  simpl in Hq. destruct q. simpl in *. by subst.
Qed.

Lemma exec_TriggerEvent_passive T (a : @Init Args Payload) w fuel :
  wf w → Forall passive (bound w T) →
  ∃ w', exec construct (S fuel) (CallTriggerEvent T a) w = Done w' ∧ wf w' ∧
    log w' = log w ++ Entered (CallTriggerEvent T a)
                      :: invocations (bound w T) (build construct T a) ∧
    (∀ U, pending w' U = pending w U) ∧
    (∀ U, bound w' U = bound w U).
Proof.
  intros Hwf Hp.
  assert (wf (note (Entered (CallTriggerEvent T a)) w)) as Hwf0 by by apply note_wf.
  assert (exec construct (S fuel) (CallTriggerEvent T a) w
          = Done (notes (invocations (bound w T) (build construct T a))
                    (GetEventHandler T (note (Entered (CallTriggerEvent T a)) w)).2))
    as Hrun.
  { simpl. rewrite EventBus_TriggerEvent_unfold.
    unfold EventPool_TriggerEvent, Signal_call.
    rewrite slots_at_handler by done.
    change (bound (note _ w) T) with (bound w T).
    by rewrite invoke_passive. }
  eexists. split; [exact Hrun|]. split_and!.
  - apply exec_steps in Hrun; [|done]. exact (steps_wf _ _ Hwf Hrun).
  - simpl. rewrite GetEventHandler_log. simpl. by rewrite <- app_assoc.
  - intros U. change (pending (notes ?tr ?w) U) with (pending w U).
    by rewrite pending_GetEventHandler.
  - intros U. change (bound (notes ?tr ?w) U) with (bound w U).
    by rewrite bound_GetEventHandler.
Qed.

Lemma SubscribeToEvent_result T name (body : Payload → list (@Call Args Payload)) w :
  wf w →
  let w' := (EventBus_SubscribeToEvent T name body w).2 in
  ∃ s, slot_type s = T ∧ slot_name s = name ∧ slot_body s = body ∧
    wf w' ∧ log w' = log w ∧
    bound w' T = bound w T ++ [s] ∧
    (∀ U, U ≠ T → bound w' U = bound w U) ∧
    (∀ U, pending w' U = pending w U) ∧
    (∀ j s', s' ∈ slots_at j w' → s' ∈ slots_at j w ∨ s' = s).
Proof.
  intros Hwf w'. pose proof (GetEventHandler_wf T w Hwf) as Hwf1.
  pose proof (EventBus_SubscribeToEvent_wf T name body w Hwf) as Hwf'.
  unfold w' in *. rewrite EventBus_SubscribeToEvent_unfold in *.
  exists {| slot_id := next_slot (mSignal (default (new_EventPool T) (pool_of w T)));
            slot_type := T; slot_name := name; slot_body := body |}.
  pose proof (pool_of_GetEventHandler_self T w Hwf) as HpT.
  assert (∀ U, Registry.eventID (registry (GetEventHandler T w).2) !! U
               = Some (GetEventHandler T w).1 → U = T) as Hinj.
  { intros U HU. eapply (Registry.wf_inj _ (wf_registry _ Hwf1)); [done|].
    apply GetEventHandler_lookup. }
  split_and!; try done.
  - simpl. apply GetEventHandler_log.
  - unfold bound. rewrite pool_of_update.
    rewrite decide_True by apply GetEventHandler_lookup. rewrite HpT. simpl.
    by destruct (pool_of w T).
  - intros U HU. unfold bound. rewrite pool_of_update.
    rewrite decide_False by (intros H%Hinj; done).
    by rewrite pool_of_GetEventHandler_other.
  - intros U. rewrite <- (pending_GetEventHandler T U w Hwf).
    unfold pending. rewrite pool_of_update. case_decide; [|done].
    by destruct (pool_of (GetEventHandler T w).2 U).
  - intros j s'. unfold slots_at at 1. rewrite pool_at_update.
    case_decide as Hj.
    + subst j. rewrite GetEventHandler_pool_at_self.
      rewrite pool_at_handler_before by done. simpl.
      intros [Hs|Hs%list_elem_of_singleton]%elem_of_app; [|by right].
      left. rewrite <- (slots_at_GetEventHandler _ T w).
      unfold slots_at. rewrite GetEventHandler_pool_at_self.
      by rewrite pool_at_handler_before.
    + intros Hs. left. by rewrite <- (slots_at_GetEventHandler j T w).
Qed.

(** C6.  From any reachable world, whatever the callables are: after
    enqueuing any number of [T] events, [ClearEventQueues()] returns having
    invoked no callable; the callables bound to each type are the same as
    before and every pending buffer is empty; a [DispatchQueuedEvents()] that
    follows invokes no callable and leaves the buffers empty. *)
Theorem ClearEventQueues_discards_pending (w : @World Args Payload) (T : TypeKey)
    (args : list (@Init Args Payload)) (fuel : nat) :
  Reachable construct w →
  ∃ w1 w2 w3,
    program construct (S fuel) (CallEnqueueEvent T <$> args) w = Done w1 ∧
    pending w1 T = pending w T ++ (build construct T <$> args) ∧
    exec construct (S fuel) CallClearEventQueues w1 = Done w2 ∧
    log w2 = log w1 ++ [Entered CallClearEventQueues] ∧
    (∀ U, bound w2 U = bound w1 U) ∧
    (∀ U, pending w2 U = []) ∧
    exec construct (S fuel) CallDispatchQueuedEvents w2 = Done w3 ∧
    log w3 = log w2 ++ [Entered CallDispatchQueuedEvents] ∧
    (∀ U, bound w3 U = bound w1 U) ∧
    (∀ U, pending w3 U = []).
Proof.
  intros Hwf%Reachable_wf.
  destruct (program_enqueues fuel T args w Hwf) as (w1 & Hrun & Hwf1 & Hpend & _).
  set (w2 := EventBus_ClearEventQueues (note (Entered CallClearEventQueues) w1)).
  exists w1, w2, (note (Entered CallDispatchQueuedEvents) w2).
  split_and!; try done.
  - intros U. unfold w2. by rewrite bound_ClearEventQueues.
  - intros U. unfold w2. by rewrite pending_ClearEventQueues.
  - simpl. unfold EventBus_DispatchQueuedEvents. apply dispatch_loop_empty; [|done].
    intros j. change (queue_at j (note ?o w2)) with (queue_at j w2).
    unfold queue_at, w2. rewrite pool_at_ClearEventQueues.
    by destruct (pool_at j _).
  - intros U. change (bound (note ?o w2) U) with (bound w2 U).
    unfold w2. by rewrite bound_ClearEventQueues.
  - intros U. change (pending (note ?o w2) U) with (pending w2 U).
    unfold w2. by rewrite pending_ClearEventQueues.
Qed.

(** C5, amended.  In a reachable world where the callables bound to [T]
    make no call on the bus themselves, [TriggerEvent<T>(a)] returns, and what
    it did by then is: it called each callable bound to [T], once, in
    subscription order, with the event built from [a]; it left the pending
    buffer of [T] (and of every type) and the bindings as they were.  A
    callable of that kind subscribed to [T] just before the trigger is among
    them, as the last. *)
Theorem TriggerEvent_invokes_bound_once (w : @World Args Payload) (T : TypeKey)
    (a : @Init Args Payload) (fuel : nat)
    (name : nat) (body : Payload → list (@Call Args Payload)) :
  Reachable construct w → Forall passive (bound w T) → (∀ v, body v = []) →
  (∃ w', exec construct (S fuel) (CallTriggerEvent T a) w = Done w' ∧
     log w' = log w ++ Entered (CallTriggerEvent T a)
                       :: invocations (bound w T) (build construct T a) ∧
     (∀ U, pending w' U = pending w U) ∧
     (∀ U, bound w' U = bound w U)) ∧
  (∃ w0 s w',
     exec construct (S fuel) (CallSubscribeToEvent T name body) w = Done w0 ∧
     slot_type s = T ∧ slot_name s = name ∧ slot_body s = body ∧
     bound w0 T = bound w T ++ [s] ∧
     exec construct (S fuel) (CallTriggerEvent T a) w0 = Done w' ∧
     log w' = log w0 ++ Entered (CallTriggerEvent T a)
                        :: invocations (bound w T ++ [s]) (build construct T a) ∧
     (∀ U, pending w' U = pending w U)).
Proof.
  intros Hwf%Reachable_wf Hp Hbody. split.
  - destruct (exec_TriggerEvent_passive T a w fuel Hwf Hp)
      as (w' & Hrun & _ & Hlog & Hpend & Hbound).
    by exists w'.
  - assert (wf (note (Entered (CallSubscribeToEvent T name body)) w)) as Hwf0
      by by apply note_wf.
    destruct (SubscribeToEvent_result T name body _ Hwf0)
      as (s & H1 & H2 & H3 & H4 & H5 & H6 & H7 & H8 & H9).
    set (w0 := (EventBus_SubscribeToEvent T name body
                  (note (Entered (CallSubscribeToEvent T name body)) w)).2) in *.
    change (bound (note ?o w) T) with (bound w T) in H6.
    destruct (exec_TriggerEvent_passive T a w0 fuel H4)
      as (w' & Hrun & _ & Hlog & Hpend & Hbound).
    { rewrite H6. apply Forall_app. split; [done|].
      apply Forall_singleton. intros v. by rewrite H3. }
    exists w0, s, w'. split_and!; try done.
    + by rewrite Hlog, H6.
    + intros U. by rewrite Hpend, H8.
Qed.

Lemma enqueues_then_dispatch_passive (w : @World Args Payload)
    (T : TypeKey) (args : list (@Init Args Payload)) (fuel : nat) :
  wf w → all_passive w →
  ∃ w1 w' tr,
    program construct (S fuel) (CallEnqueueEvent T <$> args) w = Done w1 ∧
    pending w1 T = pending w T ++ (build construct T <$> args) ∧
    exec construct (S fuel) CallDispatchQueuedEvents w1 = Done w' ∧
    log w' = log w1 ++ tr ∧
    deliveries_to T tr
    = pairing (bound w T) (pending w T ++ (build construct T <$> args)) ∧
    pending w' T = [].
Proof.
  intros Hwf Hpass.
  destruct (program_enqueues fuel T args w Hwf)
    as (w1 & Hrun & Hwf1 & Hpend & _ & Hbound & Hslots & Hlog).
  set (w0 := note (Entered CallDispatchQueuedEvents) w1).
  assert (all_passive w0) as Hpass0.
  { intros j s. change (slots_at j w0) with (slots_at j w1). rewrite Hslots. apply Hpass. }
  exists w1. eexists _, _. split; [done|]. split; [done|]. split.
  { cbn [exec step]. fold w0. by apply EventBus_DispatchQueuedEvents_passive. }
  split_and!.
  - simpl. by rewrite <- app_assoc.
  - rewrite (deliveries_to_app T [_]).
    change (pools_in_order w0) with (pools_in_order w1).
    rewrite deliveries_to_pools by done. by rewrite Hbound, Hpend.
  - apply pending_ClearEventQueues.
Qed.

(** C3, amended.  In a reachable world whose callables make no call on the
    bus themselves: [EnqueueEvent<T>(a1)], ..., [EnqueueEvent<T>(an)] put
    [T(a1)], ..., [T(an)] in the buffer of [T], after whatever was pending;
    the [DispatchQueuedEvents()] that follows returns; the callables
    subscribed for [T] were invoked with the buffered events of [T] in buffer
    order, each event going once to each callable bound to [T] in
    subscription order, and with nothing else; the buffer of [T] is empty
    afterwards.  When no event was pending before [a1], the events are exactly
    [T(a1)], ..., [T(an)].  A callable of that kind subscribed to [T] before
    the enqueues is among the callables invoked, as the last. *)
Theorem DispatchQueuedEvents_delivers_in_order (w : @World Args Payload)
    (T : TypeKey) (args : list (@Init Args Payload)) (fuel : nat)
    (name : nat) (body : Payload → list (@Call Args Payload)) :
  Reachable construct w → all_passive w → (∀ v, body v = []) →
  (∃ w1 w' tr,
     program construct (S fuel) (CallEnqueueEvent T <$> args) w = Done w1 ∧
     pending w1 T = pending w T ++ (build construct T <$> args) ∧
     exec construct (S fuel) CallDispatchQueuedEvents w1 = Done w' ∧
     log w' = log w1 ++ tr ∧
     deliveries_to T tr
     = pairing (bound w T) (pending w T ++ (build construct T <$> args)) ∧
     (pending w T = [] →
      deliveries_to T tr = pairing (bound w T) (build construct T <$> args)) ∧
     pending w' T = []) ∧
  (∃ w0 s w1 w' tr,
     exec construct (S fuel) (CallSubscribeToEvent T name body) w = Done w0 ∧
     slot_type s = T ∧ slot_name s = name ∧ slot_body s = body ∧
     bound w0 T = bound w T ++ [s] ∧
     program construct (S fuel) (CallEnqueueEvent T <$> args) w0 = Done w1 ∧
     pending w1 T = pending w T ++ (build construct T <$> args) ∧
     exec construct (S fuel) CallDispatchQueuedEvents w1 = Done w' ∧
     log w' = log w1 ++ tr ∧
     deliveries_to T tr
     = pairing (bound w T ++ [s]) (pending w T ++ (build construct T <$> args)) ∧
     pending w' T = []).
Proof.
  intros Hwf%Reachable_wf Hpass Hbody. split.
  - destruct (enqueues_then_dispatch_passive w T args fuel Hwf Hpass)
      as (w1 & w' & tr & Hrun1 & Hpend1 & Hrun & Hlog & Hdel & Hpend).
    exists w1, w', tr. split_and!; try done.
    intros Hempty. by rewrite Hdel, Hempty.
  - assert (wf (note (Entered (CallSubscribeToEvent T name body)) w)) as Hwf0
      by by apply note_wf.
    destruct (SubscribeToEvent_result T name body _ Hwf0)
      as (s & H1 & H2 & H3 & H4 & H5 & H6 & H7 & H8 & H9).
    set (w0 := (EventBus_SubscribeToEvent T name body
                  (note (Entered (CallSubscribeToEvent T name body)) w)).2) in *.
    change (bound (note ?o w) T) with (bound w T) in H6.
    assert (all_passive w0) as Hpass0.
    { intros j s' [Hs| ->]%H9; [by apply (Hpass j)|].
      intros v. by rewrite H3. }
    destruct (enqueues_then_dispatch_passive w0 T args fuel H4 Hpass0)
      as (w1 & w' & tr & Hrun1 & Hpend1 & Hrun & Hlog & Hdel & Hpend).
    exists w0, s, w1, w', tr. split_and!; try done.
    + by rewrite Hpend1, H8.
    + by rewrite Hdel, H6, H8.
Qed.

Lemma all_passive_pools w :
  Forall (λ o : option EventPool,
            from_option (λ p, Forall passive (slots (mSignal p))) True o)
         (mEventPools w) →
  all_passive w.
Proof.
  intros Hall i s. unfold slots_at, pool_at.
  destruct (mEventPools w !! i) as [[p|]|] eqn:E; simpl; try by intros ?%elem_of_nil.
  intros Hs. eapply Forall_lookup_1 in Hall; [|exact E]. simpl in Hall.
  by eapply Forall_forall in Hall.
Qed.

(** ** A flush whose callables enqueue further events of the same type *)



Section Requeue.

Variables (T : TypeKey) (h : nat) (fuel : nat).
Variables (ss : list (@Slot Args Payload)) (q : list (@Event Payload)).

Lemma flushing_note o w :
  match o with Invoked s e => slot_type s = ev_type e | Entered _ => True end →
  flushing T h ss q w → flushing T h ss q (note o w).
Proof. intros Ho (Hwf & ? & ? & ? & ?). split_and!; try done. by apply note_wf. Qed.

Lemma exec_enqueue_flushing a w :
  flushing T h ss q w →
  ∃ w', exec construct (S fuel) (CallEnqueueEvent T a) w = Done w' ∧
    flushing T h ss q w' ∧ log w' = log w ++ [Entered (CallEnqueueEvent T a)].
Proof.
  intros (Hwf & Hid & [p Hp] & Hss & extra & Hq).
  eexists. split; [done|].
  set (w0 := note (Entered (CallEnqueueEvent T a)) w).
  assert (wf w0) as Hwf0 by by apply note_wf.
  split; [|by rewrite log_EnqueueEvent].
  split_and!.
  - by apply EventBus_EnqueueEvent_wf.
  - rewrite EventBus_EnqueueEvent_unfold. simpl.
    rewrite (GetEventHandler_existing T w0 h p) by done. done.
  - rewrite EventBus_EnqueueEvent_unfold.
    rewrite (GetEventHandler_existing T w0 h p) by done. simpl.
    unfold EventPool_EnqueueEvent. rewrite pool_at_update_eq.
    change (pool_at h w0) with (pool_at h w). rewrite Hp. by eexists.
  - by rewrite slots_at_EnqueueEvent.
  - exists (extra ++ [build construct T a]).
    rewrite EventBus_EnqueueEvent_unfold.
    rewrite (GetEventHandler_existing T w0 h p) by done. simpl.
    unfold queue_at, EventPool_EnqueueEvent. rewrite pool_at_update_eq.
    change (pool_at h w0) with (pool_at h w). unfold queue_at in Hq.
    rewrite Hp in *. simpl in *. by rewrite Hq, app_assoc.
Qed.

Lemma run_enqueues_flushing cs w :
  Forall (is_enqueue T) cs → flushing T h ss q w →
  ∃ w', run (exec construct (S fuel)) cs w = Done w' ∧
    flushing T h ss q w' ∧ log w' = log w ++ (Entered <$> cs).
Proof.
  revert w. induction cs as [|c cs IH]; intros w Hcs Hfl.
  - exists w. split_and!; try done. simpl. by rewrite app_nil_r.
  - apply Forall_cons in Hcs as [Hc Hcs].
    destruct c as [U a|U a| |Ts| |Ts|U name body|k|U]; try done.
    simpl in Hc. subst U.
    destruct (exec_enqueue_flushing a w Hfl) as (w1 & Hrun1 & Hfl1 & Hlog1).
    destruct (IH w1 Hcs Hfl1) as (w' & Hrun & Hfl' & Hlog).
    exists w'. split_and!; try done.
    + cbn [run]. rewrite Hrun1. done.
    + rewrite Hlog, Hlog1, <- app_assoc. done.
Qed.

Lemma invoke_flushing ss' e w :
  Forall (enqueues_only T) ss' → (∀ s, s ∈ ss' → slot_type s = ev_type e) →
  flushing T h ss q w →
  ∃ w', invoke (exec construct (S fuel)) ss' e w = Done w' ∧
    flushing T h ss q w' ∧
    log w' = log w ++ (s ← ss'; Invoked s e :: (Entered <$> slot_body s (ev_value e))).
Proof.
  revert w. induction ss' as [|s ss' IH]; intros w Hss Hty Hfl.
  - exists w. split_and!; try done. simpl. by rewrite app_nil_r.
  - apply Forall_cons in Hss as [Hs Hss].
    destruct (run_enqueues_flushing (slot_body s (ev_value e)) (note (Invoked s e) w))
      as (w1 & Hrun1 & Hfl1 & Hlog1); [apply Hs| |].
    { apply flushing_note; [|done]. apply Hty. by left. }
    destruct (IH w1 Hss) as (w' & Hrun & Hfl' & Hlog); [|done|].
    { intros s' Hs'. apply Hty. by right. }
    exists w'. split_and!; try done.
    + cbn [invoke]. unfold call_slot. rewrite Hrun1. done.
    + rewrite Hlog, Hlog1, bind_cons. simpl. by rewrite <- !app_assoc.
Qed.

Lemma flush_enqueuers_undefined n i w e :
  Forall (enqueues_only T) ss → Exists (λ s, ∀ v, slot_body s v ≠ []) ss →
  flushing T h ss q w → q !! i = Some e →
  flush (exec construct (S fuel)) (S n) i h w = Undefined.
Proof.
  intros Hss Hact Hfl He.
  pose proof Hfl as (Hwf & Hid & [p Hp] & Hslots & extra & Hq).
  destruct (invoke_flushing ss e w Hss) as (w1 & Hrun1 & Hfl1 & Hlog1); [|done|].
  { intros s Hs. rewrite <- Hslots in Hs. unfold slots_at in Hs.
    rewrite Hp in Hs. simpl in Hs.
    rewrite (wf_slot _ Hwf h p s Hp Hs).
    symmetry. apply (wf_event _ Hwf h p e Hp).
    unfold queue_at in Hq. rewrite Hp in Hq. simpl in Hq. rewrite Hq.
    apply elem_of_app. left. by eapply list_elem_of_lookup_2. }
  cbn [flush]. rewrite Hq, (lookup_app_l_Some _ _ _ _ He).
  unfold Signal_call. rewrite Hslots, Hrun1. simpl.
  assert (invalidated h w w1 = true) as ->; [|done].
  unfold invalidated. rewrite (since_log _ _ _ Hlog1).
  apply existsb_exists.
  apply Exists_exists in Hact as (s & Hs & Hbody).
  eapply Forall_forall in Hss; [|exact Hs].
  specialize (Hss (ev_value e)). specialize (Hbody (ev_value e)).
  destruct (slot_body s (ev_value e)) as [|c cs] eqn:Hcs; [done|].
  apply Forall_cons in Hss as [Hc _].
  exists c. split.
  - apply list_elem_of_In. unfold calls. rewrite list_elem_of_omap.
    exists (Entered c). split; [|done].
    apply list_elem_of_bind. exists s. split; [|done].
    rewrite Hcs. simpl. right. by left.
  - destruct c as [U a|U a| |Ts| |Ts|U name body|k|U]; try done.
    simpl in Hc. subst U. simpl. apply bool_decide_eq_true. apply Hfl1.
Qed.

End Requeue.

Lemma deliveries_reentrant_obs (ss : list (@Slot Args Payload)) (q : list (@Event Payload)) :
  deliveries (reentrant_obs ss q) = pairing ss q.
Proof.
  unfold reentrant_obs, pairing. induction q as [|e q IH]; [done|].
  rewrite !bind_cons, deliveries_app, IH. f_equal. clear IH.
  induction ss as [|s ss IHs]; [done|].
  rewrite bind_cons, deliveries_app, IHs. simpl.
  by rewrite deliveries_Entered.
Qed.

Lemma calls_Entered (cs : list (@Call Args Payload)) : calls (Entered <$> cs) = cs.
Proof. induction cs as [|c cs IH]; [done|]. simpl. by f_equal. Qed.

Lemma flushing_start w T p :
  wf w → pool_of w T = Some p →
  ∃ h, Registry.eventID (registry w) !! T = Some h ∧ pool_at h w = Some p ∧
       flushing T h (slots (mSignal p)) (mEventQueue p) w.
Proof.
  intros Hwf (h & Hid & Hp)%pool_of_at. exists h. split_and!; try done.
  unfold flushing, slots_at, queue_at. rewrite Hp. simpl.
  split_and!; try done. exists []. by rewrite app_nil_r.
Qed.


(** C1.  The flush takes no snapshot of the buffer: the range-for of line 69
    iterates [mEventQueue] itself.  In a reachable world where [T] has
    pending events and the callables bound to [T] only enqueue further events
    of [T], one of them at least whatever it is given, the [push_back] made
    from the callable invalidates the iterators of the loop: the behaviour of
    [DispatchQueuedEvents()] on the pool of [T] is undefined from the first
    event on. *)
Theorem enqueue_into_flushed_buffer_is_undefined (fuel : nat)
    (w : @World Args Payload) (T : TypeKey) :
  Reachable construct w → pending w T ≠ [] →
  Forall (enqueues_only T) (bound w T) →
  Exists (λ s, ∀ v, slot_body s v ≠ []) (bound w T) →
  ∃ h, Registry.eventID (registry w) !! T = Some h ∧
    EventPool_DispatchQueuedEvents (exec construct (S fuel)) h w = Undefined.
Proof.
  intros Hwf%Reachable_wf Hpend Hss Hact.
  destruct (pool_of w T) as [p|] eqn:Hp; [|by unfold pending in Hpend; rewrite Hp in Hpend].
  destruct (flushing_start w T p Hwf Hp) as (h & Hid & Hat & Hfl).
  unfold bound in Hss, Hact. unfold pending in Hpend.
  rewrite Hp in Hss, Hact, Hpend. simpl in Hss, Hact, Hpend.
  exists h. split; [done|].
  assert (queue_at h w = mEventQueue p) as Hqa by (unfold queue_at; by rewrite Hat).
  unfold EventPool_DispatchQueuedEvents. rewrite Hqa.
  destruct (mEventQueue p) as [|e q] eqn:Hq; [done|].
  change (length (e :: q)) with (S (length q)). rewrite <- Hq in Hfl.
  rewrite (flush_enqueuers_undefined T h fuel _ _ (length q) 0 w e Hss Hact Hfl); [done|].
  by rewrite Hq.
Qed.

(** ** The selective dispatch *)

(** C2: [DispatchQueuedEvents<T, ...>()] as written (line 207) calls
    [EventPool<T>::DispatchEvents], a member the pool does not declare: any
    call of it that names a type is ill-formed. *)
Theorem selective_DispatchQueuedEvents_ill_formed (fuel : nat) (T : TypeKey)
    (Ts : list TypeKey) (w : @World Args Payload) :
  exec construct (S fuel) (CallDispatchQueuedEventsOf (T :: Ts)) w = IllFormed.
Proof. simpl. by destruct (GetEventHandler T _). Qed.

(** What the selective dispatch would do for one type had it named the member
    the pool declares: flush the buffer of [T] and leave the other buffers
    alone. *)
Lemma declared_member_flushes_one_buffer rec T w :
  wf w → Forall passive (bound w T) →
  ∃ w', call_member rec "DispatchQueuedEvents"
          (GetEventHandler T w).1 (GetEventHandler T w).2 = Done w' ∧
    log w' = log w ++ flush_obs (bound w T) (pending w T) ∧
    pending w' T = [] ∧
    (∀ U, U ≠ T → pending w' U = pending w U) ∧
    (∀ U, bound w' U = bound w U).
Proof.
  intros Hwf Hp. pose proof (GetEventHandler_wf T w Hwf) as Hwf1.
  change (call_member rec "DispatchQueuedEvents" ?h ?w1)
    with (EventPool_DispatchQueuedEvents rec h w1).
  rewrite EventPool_DispatchQueuedEvents_passive by by rewrite slots_at_handler.
  rewrite slots_at_handler, queue_at_handler by done.
  eexists. split; [done|].
  assert (∀ U, Registry.eventID (registry (GetEventHandler T w).2) !! U
               = Some (GetEventHandler T w).1 → U = T) as Hinj.
  { intros U HU. eapply (Registry.wf_inj _ (wf_registry _ Hwf1)); [done|].
    apply GetEventHandler_lookup. }
  split_and!.
  - simpl. by rewrite GetEventHandler_log.
  - unfold pending, EventPool_ClearEventQueue. rewrite pool_of_update.
    change (pool_of (notes ?tr ?w0) T) with (pool_of w0 T).
    rewrite pool_of_GetEventHandler_self by done.
    by rewrite decide_True by apply GetEventHandler_lookup.
  - intros U HU. unfold pending, EventPool_ClearEventQueue. rewrite pool_of_update.
    change (pool_of (notes ?tr ?w0) U) with (pool_of w0 U).
    rewrite decide_False by (intros H%Hinj; done).
    by rewrite pool_of_GetEventHandler_other.
  - intros U. unfold bound, EventPool_ClearEventQueue. rewrite pool_of_update.
    change (pool_of (notes ?tr ?w0) U) with (pool_of w0 U).
    fold (bound (GetEventHandler T w).2 U). fold (bound w U).
    rewrite <- (bound_GetEventHandler T U w Hwf). unfold bound.
    case_decide; [|done]. by destruct (pool_of (GetEventHandler T w).2 U).
Qed.

(** ** Which pools exist *)

Lemma pool_exists_GetEventHandler U T w :
  wf w → pool_exists (GetEventHandler U w).2 T ↔ pool_exists w T ∨ U = T.
Proof.
  intros Hwf. unfold pool_exists. destruct (decide (T = U)) as [->|Hne].
  - rewrite pool_of_GetEventHandler_self by done. split; eauto.
  - rewrite pool_of_GetEventHandler_other by done. naive_solver.
Qed.

Lemma pool_exists_update i f T w :
  pool_exists (update_pool i f w) T ↔ pool_exists w T.
Proof.
  unfold pool_exists. rewrite pool_of_update. case_decide; [|done].
  by rewrite fmap_is_Some.
Qed.

Lemma pool_exists_ClearEventQueues T w :
  pool_exists (EventBus_ClearEventQueues w) T ↔ pool_exists w T.
Proof. unfold pool_exists. by rewrite pool_of_ClearEventQueues, fmap_is_Some. Qed.

Lemma pool_of_external U T w :
  pool_of (external_GetEventId U w) T
  = Registry.eventID (Registry.GetEventId U (registry w)).2 !! T
      ≫= λ i, pool_at i w.
Proof. done. Qed.

Lemma pool_exists_external U T w :
  wf w → pool_exists (external_GetEventId U w) T ↔ pool_exists w T.
Proof.
  intros Hwf. unfold pool_exists. rewrite pool_of_external. unfold pool_of.
  destruct (decide (T = U)) as [->|Hne].
  - destruct (Registry.eventID (registry w) !! U) as [i|] eqn:E.
    + rewrite (RegistryFacts.GetEventId_cached _ _ _ E). simpl. by rewrite E.
    + rewrite RegistryFacts.GetEventId_lookup. simpl.
      by rewrite wf_fresh_absent.
  - by rewrite RegistryFacts.GetEventId_other.
Qed.

Lemma pool_exists_ClearEventQueuesOf rec Ts T w w' :
  wf w → EventBus_ClearEventQueuesOf rec Ts w = Done w' →
  log w' = log w ∧ (pool_exists w' T ↔ pool_exists w T ∨ T ∈ Ts).
Proof.
  revert w. induction Ts as [|U Ts IH]; intros w Hwf.
  - intros [= <-]. split; [done|]. rewrite elem_of_nil. naive_solver.
  - rewrite EventBus_ClearEventQueuesOf_cons. intros Hrun.
    apply IH in Hrun as [Hlog Hex].
    + split; [by rewrite Hlog; simpl; rewrite GetEventHandler_log|].
      rewrite Hex. unfold EventPool_ClearEventQueue.
      rewrite pool_exists_update, pool_exists_GetEventHandler by done.
      rewrite elem_of_cons. naive_solver.
    + by apply EventPool_ClearEventQueue_wf, GetEventHandler_wf.
Qed.

(** Every atomic change extends the log, and creates the pool of [T] only
    within a call that resolves the handler of [T]. *)
Lemma atomic_pools w w' :
  wf w → atomic construct w w' →
  ∃ tr, log w' = log w ++ tr ∧
    ∀ T, pool_exists w' T ↔ pool_exists w T ∨ ∃ c, Entered c ∈ tr ∧ creates c T.
Proof.
  intros Hwf Hat. destruct Hat as [rec c w w' Hq Hstep|U a w|w|s e w Hty|i w].
  - exists [Entered c].
    assert (wf (note (Entered c) w)) as Hwf0 by by apply note_wf.
    assert (∀ T, (∃ c', Entered c' ∈ [Entered c] ∧ creates c' T) ↔ creates c T) as Hone.
    { intros T. split; [|intros ?; exists c; split; [by left|done]].
      intros (c' & Hc'%list_elem_of_singleton & ?). by simplify_eq. }
    destruct c as [U a|U a| |Ts| |Ts|U name body|k|U]; simpl in *; try done.
    + injection Hstep as <-. split; [by rewrite log_EnqueueEvent|].
      intros T. rewrite Hone. simpl. rewrite EventBus_EnqueueEvent_unfold.
      unfold EventPool_EnqueueEvent.
      by rewrite pool_exists_update, pool_exists_GetEventHandler.
    + apply EventBus_DispatchQueuedEventsOf_Done in Hstep as [-> ->].
      split; [done|]. intros T. rewrite Hone. simpl. naive_solver.
    + injection Hstep as <-. split; [done|]. intros T. rewrite Hone. simpl.
      rewrite pool_exists_ClearEventQueues. naive_solver.
    + split; [by apply (pool_exists_ClearEventQueuesOf _ _ "T") in Hstep as [-> _]|].
      intros T. rewrite Hone. simpl.
      by apply (pool_exists_ClearEventQueuesOf _ _ T) in Hstep as [_ ->].
    + injection Hstep as <-. rewrite EventBus_SubscribeToEvent_unfold.
      split; [by simpl; rewrite GetEventHandler_log|].
      intros T. rewrite Hone. simpl.
      by rewrite pool_exists_update, pool_exists_GetEventHandler.
    + injection Hstep as <-. split; [done|]. intros T. rewrite Hone. simpl.
      unfold EventBus_UnsubscribeFromEvent. rewrite pool_exists_update. naive_solver.
    + injection Hstep as <-. split; [done|]. intros T. rewrite Hone. simpl.
      rewrite pool_exists_external by done. naive_solver.
  - exists [Entered (CallTriggerEvent U a)]. split; [by rewrite GetEventHandler_log|].
    intros T. rewrite pool_exists_GetEventHandler by by apply note_wf.
    split; intros [?|H]; auto.
    + right. exists (CallTriggerEvent U a). split; [by left|done].
    + destruct H as (c' & Hc'%list_elem_of_singleton & Hcr). simplify_eq. by right.
  - exists [Entered CallDispatchQueuedEvents]. split; [done|]. intros T.
    split; [auto|]. intros [?|(c' & Hc'%list_elem_of_singleton & Hcr)]; [done|].
    by simplify_eq.
  - exists [Invoked s e]. split; [done|]. intros T.
    split; [auto|]. intros [?|(c' & Hc'%list_elem_of_singleton & Hcr)]; [done|].
    by simplify_eq.
  - exists []. split; [by simpl; rewrite app_nil_r|]. intros T.
    unfold EventPool_ClearEventQueue. rewrite pool_exists_update.
    split; [auto|]. intros [?|(c' & Hc'%elem_of_nil & _)]; done.
Qed.

Lemma steps_pools w w' :
  wf w → rtc (atomic construct) w w' →
  ∃ tr, log w' = log w ++ tr ∧
    ∀ T, pool_exists w' T ↔ pool_exists w T ∨ ∃ c, Entered c ∈ tr ∧ creates c T.
Proof.
  intros Hwf Hrtc. induction Hrtc as [w|w w1 w' Hat Hrtc IH].
  - exists []. split; [by rewrite app_nil_r|]. intros T.
    split; [auto|]. intros [?|(c' & Hc'%elem_of_nil & _)]; done.
  - destruct (atomic_pools w w1 Hwf Hat) as (tr1 & Hlog1 & Hex1).
    destruct IH as (tr2 & Hlog2 & Hex2); [by eapply atomic_wf|].
    exists (tr1 ++ tr2). split; [by rewrite Hlog2, Hlog1, app_assoc|].
    intros T. rewrite Hex2, Hex1. setoid_rewrite elem_of_app. naive_solver.
Qed.

(** C7, amended.  In the world a program has reached from program start,
    the pool of [T] exists exactly if one of the calls made so far, by the
    program or by a callable, was a Trigger, Enqueue or Subscribe for [T] or a
    selective [ClearEventQueues] naming [T]. *)
Theorem pool_exists_iff_handler_resolved (fuel : nat)
    (cs : list (@Call Args Payload)) (w : @World Args Payload) (T : TypeKey) :
  program construct fuel cs initial_world = Done w →
  pool_exists w T ↔ ∃ c, Entered c ∈ log w ∧ creates c T.
Proof.
  intros Hrun. apply program_steps in Hrun; [|apply wf_initial_world].
  apply steps_pools in Hrun as (tr & Hlog & Hex); [|apply wf_initial_world].
  simpl in Hlog. rewrite Hlog, Hex. split; [|auto].
  intros [[p Hp]|?]; [|done]. unfold pool_of in Hp. simpl in Hp.
  by rewrite lookup_empty in Hp.
Qed.

(** Pools are never destroyed. *)
Lemma pool_exists_stable fuel c w w' T :
  wf w → exec construct fuel c w = Done w' → pool_exists w T → pool_exists w' T.
Proof.
  intros Hwf Hrun%exec_steps; [|done].
  apply steps_pools in Hrun as (tr & _ & Hex); [|done]. rewrite Hex. auto.
Qed.

(** ** The order of the pools *)

Lemma grown_nil h : grown h ([] : list (option (@EventPool Args Payload)))
  = replicate (S h) None.
Proof. unfold grown. rewrite bool_decide_eq_true_2 by (simpl; lia). done. Qed.

Lemma grown_cons_0 o (l : list (option (@EventPool Args Payload))) :
  grown 0 (o :: l) = o :: l.
Proof. unfold grown. by rewrite bool_decide_eq_false_2 by (simpl; lia). Qed.

Lemma grown_cons_S h o (l : list (option (@EventPool Args Payload))) :
  grown (S h) (o :: l) = o :: grown h l.
Proof.
  unfold grown. simpl. case_bool_decide; case_bool_decide; try lia; done.
Qed.

Lemma omap_id_none (l : list (option (@EventPool Args Payload))) :
  (∀ j q, l !! j ≠ Some (Some q)) → omap id l = [].
Proof.
  induction l as [|o l IH]; intros Hnone; [done|].
  destruct o as [q|]; [by destruct (Hnone 0 q)|].
  simpl. apply IH. intros j q. apply (Hnone (S j)).
Qed.

Lemma omap_id_insert_last h x (l : list (option (@EventPool Args Payload))) :
  (∀ j q, l !! j = Some (Some q) → j < h) →
  omap id (<[h := Some x]> (grown h l)) = omap id l ++ [x].
Proof.
  revert h. induction l as [|o l IH]; intros h Hlt.
  - rewrite grown_nil. clear Hlt. induction h as [|h IHh]; [done|].
    change (replicate (S (S h)) None) with (None :: replicate (S h) (@None (@EventPool Args Payload))).
    simpl in *. done.
  - destruct h as [|h].
    + rewrite grown_cons_0.
      change (omap id (<[0:=Some x]> (o :: l))) with (x :: omap id l).
      assert (omap id (o :: l) = []) as ->.
      { apply omap_id_none. intros j q Hj. apply Hlt in Hj. lia. }
      rewrite omap_id_none; [done|].
      intros j q Hj. specialize (Hlt (S j) q Hj). lia.
    + rewrite grown_cons_S. simpl. rewrite IH.
      * by destruct o.
      * intros j q Hj. specialize (Hlt (S j) q Hj). lia.
Qed.

Lemma pool_type_omap_alter i (f : @EventPool Args Payload → @EventPool Args Payload)
    (l : list (option (@EventPool Args Payload))) :
  (∀ p, pool_type (f p) = pool_type p) →
  pool_type <$> omap id (alter (fmap f) i l) = pool_type <$> omap id l.
Proof.
  intros Hf. revert i. induction l as [|o l IH]; intros i; [done|].
  destruct i as [|i]; simpl.
  - destruct o as [p|]; simpl; [|done]. by rewrite Hf.
  - specialize (IH i). destruct o as [p|]; simpl; [by f_equal|done].
Qed.

Lemma pool_type_omap_clear (l : list (option (@EventPool Args Payload))) :
  pool_type <$> omap id (fmap (M:=option) clear_queue <$> l) = pool_type <$> omap id l.
Proof.
  induction l as [|o l IH]; [done|]. destruct o as [p|]; simpl; [by f_equal|done].
Qed.

Lemma own_ids_initial : own_ids (@initial_world Args Payload).
Proof. split; [|done]. intros T i H. simpl in H. by rewrite lookup_empty in H. Qed.

Lemma own_ids_GetEventHandler U w :
  wf w → own_ids w → own_ids (GetEventHandler U w).2.
Proof.
  intros Hwf [Hall Hord].
  destruct (Registry.eventID (registry w) !! U) as [i|] eqn:E.
  - destruct (Hall U i E) as [p Hp].
    by rewrite (GetEventHandler_existing U w i p).
  - pose proof (wf_fresh_absent w U Hwf E) as Habs.
    rewrite <- GetEventHandler_fst in Habs. split.
    + intros T j. rewrite GetEventHandler_registry. intros Hj.
      destruct (decide (T = U)) as [->|Hne].
      * rewrite RegistryFacts.GetEventId_lookup in Hj. injection Hj as <-.
        rewrite <- GetEventHandler_fst, GetEventHandler_pool_at_self. eauto.
      * rewrite RegistryFacts.GetEventId_other in Hj by done.
        destruct (Hall T j Hj) as [p Hp].
        rewrite GetEventHandler_pool_at_other; [eauto|]. intros ->. congruence.
    + rewrite GetEventHandler_created, Habs.
      rewrite GetEventHandler_unfold. simpl.
      rewrite GetEventHandler_fst in Habs. rewrite Habs. simpl.
      unfold pools_in_order in *. simpl. rewrite omap_id_insert_last.
      * by rewrite fmap_app, Hord.
      * intros j q Hj. rewrite (RegistryFacts.GetEventId_fresh _ _ E). simpl.
        eapply (Registry.wf_bound _ (wf_registry _ Hwf)).
        apply (wf_pool _ Hwf j q). unfold pool_at. by rewrite Hj.
Qed.

Lemma own_ids_update i (f : @EventPool Args Payload → @EventPool Args Payload) w :
  (∀ p, pool_type (f p) = pool_type p) → own_ids w → own_ids (update_pool i f w).
Proof.
  intros Hf [Hall Hord]. split.
  - intros T j Hj. simpl in Hj. rewrite pool_at_update.
    case_decide; [|by eapply Hall]. rewrite fmap_is_Some. by eapply Hall.
  - unfold pools_in_order in *. simpl. by rewrite pool_type_omap_alter.
Qed.

Lemma own_ids_ClearEventQueues w : own_ids w → own_ids (EventBus_ClearEventQueues w).
Proof.
  intros [Hall Hord]. split.
  - intros T j Hj. simpl in Hj. rewrite pool_at_ClearEventQueues, fmap_is_Some.
    by eapply Hall.
  - unfold pools_in_order in *. simpl. by rewrite pool_type_omap_clear.
Qed.

Lemma own_ids_ClearEventQueuesOf rec Ts w w' :
  wf w → own_ids w → EventBus_ClearEventQueuesOf rec Ts w = Done w' → own_ids w'.
Proof.
  revert w. induction Ts as [|U Ts IH]; intros w Hwf Hown.
  - by intros [= <-].
  - rewrite EventBus_ClearEventQueuesOf_cons. apply IH.
    + by apply EventPool_ClearEventQueue_wf, GetEventHandler_wf.
    + apply own_ids_update; [done|]. by apply own_ids_GetEventHandler.
Qed.

Lemma atomic_own_ids w w' :
  wf w → own_ids w → atomic construct w w' → exclusive w' → own_ids w'.
Proof.
  intros Hwf Hown Hat Hex.
  destruct Hat as [rec c w w' Hq Hstep|U a w|w|s e w Hty|i w].
  - assert (wf (note (Entered c) w)) as Hwf0 by by apply note_wf.
    assert (own_ids (note (Entered c) w)) as Hown0 by done.
    destruct c as [U a|U a| |Ts| |Ts|U name body|k|U]; simpl in *; try done.
    + injection Hstep as <-. rewrite EventBus_EnqueueEvent_unfold.
      apply own_ids_update; [done|]. by apply own_ids_GetEventHandler.
    + by apply EventBus_DispatchQueuedEventsOf_Done in Hstep as [-> ->].
    + injection Hstep as <-. by apply own_ids_ClearEventQueues.
    + by eapply own_ids_ClearEventQueuesOf.
    + injection Hstep as <-. rewrite EventBus_SubscribeToEvent_unfold.
      apply own_ids_update; [done|]. by apply own_ids_GetEventHandler.
    + injection Hstep as <-. by apply own_ids_update.
    + injection Hstep as <-. exfalso. apply (Hex U). simpl.
      apply elem_of_app. right. by left.
  - apply own_ids_GetEventHandler; [by apply note_wf|done].
  - done.
  - done.
  - by apply own_ids_update.
Qed.

Lemma steps_own_ids w w' :
  wf w → own_ids w → rtc (atomic construct) w w' → exclusive w' → own_ids w'.
Proof.
  intros Hwf Hown Hrtc. induction Hrtc as [w|w w1 w' Hat Hrtc IH]; [done|].
  intros Hex. apply IH; [by eapply atomic_wf| |done].
  apply (atomic_own_ids w); try done.
  apply steps_pools in Hrtc as (tr & Hlog & _); [|by eapply atomic_wf].
  intros T HT. apply (Hex T). rewrite Hlog. apply elem_of_app. by left.
Qed.

Lemma Reachable_own_ids w : Reachable construct w → exclusive w → own_ids w.
Proof.
  intros H%Reachable_steps.
  apply (steps_own_ids initial_world); [apply wf_initial_world| |done].
  apply own_ids_initial.
Qed.

(** C8, amended.  In a reachable world whose callables make no call on the
    bus themselves, the parameterless [DispatchQueuedEvents()] returns; it
    flushed every pool that exists, in the order of their indices in
    [mEventPools], the index of a pool being the id of its event type; the
    null slots stay null and no pool is created; every buffer is empty
    afterwards.  If no type id was ever requested outside this bus, the index
    order is the order in which the pools were created. *)
Theorem DispatchQueuedEvents_flushes_in_id_order (w : @World Args Payload) (fuel : nat) :
  Reachable construct w → all_passive w →
  ∃ w', exec construct (S fuel) CallDispatchQueuedEvents w = Done w' ∧
    log w' = log w ++ Entered CallDispatchQueuedEvents
                      :: (pools_in_order w ≫= pool_obs) ∧
    (∀ i p, mEventPools w !! i = Some (Some p) →
            Registry.eventID (registry w) !! pool_type p = Some i) ∧
    mEventPools w' = fmap (M:=option) clear_queue <$> mEventPools w ∧
    registry w' = registry w ∧ created w' = created w ∧
    (exclusive w → pool_type <$> pools_in_order w = created w).
Proof.
  intros Hreach Hpass. pose proof (Reachable_wf w Hreach) as Hwf.
  eexists. split_and!.
  - simpl. apply EventBus_DispatchQueuedEvents_passive.
    intros j s. apply (Hpass j s).
  - simpl. by rewrite <- app_assoc.
  - intros i p Hi. apply (wf_pool _ Hwf). unfold pool_at. by rewrite Hi.
  - done.
  - done.
  - done.
  - intros Hex. by apply Reachable_own_ids.
Qed.

End Facts.

(** ** Witnesses and counterexamples *)

Lemma Reachable_run_of cs :
  (if program Examples.ctor 2 cs initial_world is Done _ then true else false) = true →
  Reachable Examples.ctor (Examples.run_of cs).
Proof.
  intros H. exists 2, cs. unfold Examples.run_of.
  by destruct (program Examples.ctor 2 cs initial_world).
Qed.

Lemma events_reach_only_their_type_witness :
  (∀ s e, Invoked s e ∈ log (Examples.run_of Examples.damage_setup) →
          ev_type e = "Damage" → slot_type s ≠ "Heal") ∧
  (∀ s, s ∈ bound (Examples.run_of Examples.damage_setup) "Damage" →
        slot_type s ≠ "Heal") ∧
  (∀ e, e ∈ pending (Examples.run_of Examples.damage_setup) "Heal" →
        ev_type e ≠ "Damage").
Proof.
  apply (events_reach_only_their_type Examples.ctor
           (Examples.run_of Examples.damage_setup) "Damage" "Heal").
  - apply Reachable_run_of. vm_compute. reflexivity.
  - vm_compute. discriminate.
Defined.

Lemma TriggerEvent_invokes_bound_once_witness :
  let w := Examples.run_of Examples.damage_setup in
  let c := CallTriggerEvent "Damage" (FromArgs 10%Z) in
  let ev := build Examples.ctor "Damage" (FromArgs 10%Z) in
  (∃ w', exec Examples.ctor 1 c w = Done w' ∧
     log w' = log w ++ Entered c :: invocations (bound w "Damage") ev ∧
     (∀ U, pending w' U = pending w U) ∧
     (∀ U, bound w' U = bound w U)) ∧
  (∃ w0 s w',
     exec Examples.ctor 1 (CallSubscribeToEvent "Damage" 9 Examples.observer) w = Done w0 ∧
     slot_type s = "Damage" ∧ slot_name s = 9 ∧ slot_body s = Examples.observer ∧
     bound w0 "Damage" = bound w "Damage" ++ [s] ∧
     exec Examples.ctor 1 c w0 = Done w' ∧
     log w' = log w0 ++ Entered c :: invocations (bound w "Damage" ++ [s]) ev ∧
     (∀ U, pending w' U = pending w U)).
Proof.
  apply (TriggerEvent_invokes_bound_once Examples.ctor
           (Examples.run_of Examples.damage_setup) "Damage" (FromArgs 10%Z) 0
           9 Examples.observer).
  - apply Reachable_run_of. vm_compute. reflexivity.
  - vm_compute. repeat constructor.
  - done.
Defined.

(** C5 as stated fails: the callable bound to [Tick] enqueues [Tick(v+1)]
    when it is given [Tick(v)].  With [Tick(1)] pending,
    [TriggerEvent<Tick>(5)] returns having invoked the callable once, with
    [Tick(5)], and the pending buffer of [Tick] is no longer what it was: it
    holds [Tick(1)] and [Tick(6)]. *)
Lemma trigger_changes_pending_buffer :
  let w := Examples.run_of Examples.tick_setup in
  ∃ w', exec Examples.ctor 2 (CallTriggerEvent "Tick" (FromArgs 5%Z)) w = Done w' ∧
    Examples.names (drop (length (log w)) (log w')) = [(7, "Tick", 5%Z)] ∧
    ev_value <$> pending w "Tick" = [1%Z] ∧
    ev_value <$> pending w' "Tick" = [1%Z; 6%Z] ∧
    pending w' "Tick" ≠ pending w "Tick".
Proof.
  eexists. split; [vm_compute; reflexivity|].
  split; [vm_compute; reflexivity|].
  split; [vm_compute; reflexivity|].
  split; [vm_compute; reflexivity|].
  vm_compute. discriminate.
Qed.

Lemma ClearEventQueues_discards_pending_witness :
  let w := Examples.run_of Examples.damage_setup in
  let args := [FromArgs 5%Z; FromArgs 7%Z] in
  ∃ w1 w2 w3,
    program Examples.ctor 1 (CallEnqueueEvent "Damage" <$> args) w = Done w1 ∧
    pending w1 "Damage" = pending w "Damage" ++ (build Examples.ctor "Damage" <$> args) ∧
    exec Examples.ctor 1 CallClearEventQueues w1 = Done w2 ∧
    log w2 = log w1 ++ [Entered CallClearEventQueues] ∧
    (∀ U, bound w2 U = bound w1 U) ∧
    (∀ U, pending w2 U = []) ∧
    exec Examples.ctor 1 CallDispatchQueuedEvents w2 = Done w3 ∧
    log w3 = log w2 ++ [Entered CallDispatchQueuedEvents] ∧
    (∀ U, bound w3 U = bound w1 U) ∧
    (∀ U, pending w3 U = []).
Proof.
  apply (ClearEventQueues_discards_pending Examples.ctor
           (Examples.run_of Examples.damage_setup) "Damage"
           [FromArgs 5%Z; FromArgs 7%Z] 0).
  apply Reachable_run_of. vm_compute. reflexivity.
Defined.

Lemma DispatchQueuedEvents_delivers_in_order_witness :
  let w := Examples.run_of Examples.damage_setup in
  let args := [FromArgs 5%Z; FromArgs 7%Z] in
  let evs := build Examples.ctor "Damage" <$> args in
  (∃ w1 w' tr,
     program Examples.ctor 1 (CallEnqueueEvent "Damage" <$> args) w = Done w1 ∧
     pending w1 "Damage" = pending w "Damage" ++ evs ∧
     exec Examples.ctor 1 CallDispatchQueuedEvents w1 = Done w' ∧
     log w' = log w1 ++ tr ∧
     deliveries_to "Damage" tr
     = pairing (bound w "Damage") (pending w "Damage" ++ evs) ∧
     (pending w "Damage" = [] →
      deliveries_to "Damage" tr = pairing (bound w "Damage") evs) ∧
     pending w' "Damage" = []) ∧
  (∃ w0 s w1 w' tr,
     exec Examples.ctor 1 (CallSubscribeToEvent "Damage" 9 Examples.observer) w = Done w0 ∧
     slot_type s = "Damage" ∧ slot_name s = 9 ∧ slot_body s = Examples.observer ∧
     bound w0 "Damage" = bound w "Damage" ++ [s] ∧
     program Examples.ctor 1 (CallEnqueueEvent "Damage" <$> args) w0 = Done w1 ∧
     pending w1 "Damage" = pending w "Damage" ++ evs ∧
     exec Examples.ctor 1 CallDispatchQueuedEvents w1 = Done w' ∧
     log w' = log w1 ++ tr ∧
     deliveries_to "Damage" tr
     = pairing (bound w "Damage" ++ [s]) (pending w "Damage" ++ evs) ∧
     pending w' "Damage" = []).
Proof.
  apply (DispatchQueuedEvents_delivers_in_order Examples.ctor
           (Examples.run_of Examples.damage_setup) "Damage"
           [FromArgs 5%Z; FromArgs 7%Z] 0 9 Examples.observer).
  - apply Reachable_run_of. vm_compute. reflexivity.
  - apply all_passive_pools. vm_compute. repeat constructor.
  - done.
Defined.

(** C3 as stated fails: [B] has the id 0 and a callable that does nothing,
    [A] the id 1 and a callable that enqueues [B(v+10)] when it is given
    [A(v)].  After [EnqueueEvent<B>(2)], [DispatchQueuedEvents()] returns
    having given [B(2)] to the callable of [B], and the pending buffer of [B]
    is not empty: it holds [B(11)], enqueued while the pool of [A] was
    flushed. *)
Lemma dispatch_leaves_buffer_of_earlier_pool :
  let w := Examples.run_of
    [CallSubscribeToEvent "B" 2 Examples.observer;
     CallSubscribeToEvent "A" 1 (λ v, [CallEnqueueEvent "B" (FromArgs (v + 10)%Z)]);
     CallEnqueueEvent "A" (FromArgs 1%Z)] in
  ∃ w',
    program Examples.ctor 2
      [CallEnqueueEvent "B" (FromArgs 2%Z); CallDispatchQueuedEvents] w = Done w' ∧
    Examples.names (drop (length (log w)) (log w')) = [(2, "B", 2%Z); (1, "A", 1%Z)] ∧
    ev_value <$> pending w' "B" = [11%Z] ∧
    pending w' "B" ≠ [].
Proof.
  eexists. split; [vm_compute; reflexivity|].
  split; [vm_compute; reflexivity|].
  split; [vm_compute; reflexivity|].
  vm_compute. discriminate.
Qed.


Lemma enqueue_into_flushed_buffer_is_undefined_witness :
  let w := Examples.run_of Examples.tick_setup in
  ∃ h, Registry.eventID (registry w) !! "Tick" = Some h ∧
    EventPool_DispatchQueuedEvents (exec Examples.ctor 1) h w = Undefined.
Proof.
  apply (enqueue_into_flushed_buffer_is_undefined Examples.ctor 0
           (Examples.run_of Examples.tick_setup) "Tick").
  - apply Reachable_run_of. vm_compute. reflexivity.
  - vm_compute. discriminate.
  - vm_compute. repeat constructor.
  - vm_compute. constructor. intros v. discriminate.
Defined.

Lemma pool_exists_iff_handler_resolved_witness :
  pool_exists (Examples.run_of Examples.damage_setup) "Damage" ↔
  ∃ c, Entered c ∈ log (Examples.run_of Examples.damage_setup) ∧ creates c "Damage".
Proof.
  apply (pool_exists_iff_handler_resolved Examples.ctor 2 Examples.damage_setup).
  vm_compute. reflexivity.
Defined.

(** C7 as stated fails: on a new bus, [ClearEventQueues<A>()] creates the
    pool of [A], and the bus has seen no Trigger, Enqueue or Subscribe. *)
Lemma selective_clear_creates_pool :
  ∃ w, program Examples.ctor 1 [CallClearEventQueuesOf ["A"]] initial_world = Done w ∧
    pool_of w "A" = Some (new_EventPool "A") ∧
    calls (log w) = [CallClearEventQueuesOf ["A"]] ∧
    ¬ (pool_exists w "A" ↔ ∃ c, Entered c ∈ log w ∧ uses c "A").
Proof.
  eexists. split; [vm_compute; reflexivity|].
  split; [vm_compute; reflexivity|].
  split; [vm_compute; reflexivity|].
  intros [H _]. destruct H as (c & Hc & Hu).
  - eexists. vm_compute. reflexivity.
  - apply list_elem_of_singleton in Hc. simplify_eq. done.
Qed.

Lemma DispatchQueuedEvents_flushes_in_id_order_witness :
  let w := Examples.run_of Examples.damage_setup in
  ∃ w', exec Examples.ctor 1 CallDispatchQueuedEvents w = Done w' ∧
    log w' = log w ++ Entered CallDispatchQueuedEvents
                      :: (pools_in_order w ≫= pool_obs) ∧
    (∀ i p, mEventPools w !! i = Some (Some p) →
            Registry.eventID (registry w) !! pool_type p = Some i) ∧
    mEventPools w' = fmap (M:=option) clear_queue <$> mEventPools w ∧
    registry w' = registry w ∧ created w' = created w ∧
    (exclusive w → pool_type <$> pools_in_order w = created w).
Proof.
  apply (DispatchQueuedEvents_flushes_in_id_order Examples.ctor
           (Examples.run_of Examples.damage_setup) 0).
  - apply Reachable_run_of. vm_compute. reflexivity.
  - apply all_passive_pools. vm_compute. repeat constructor.
Defined.

(** C8 as stated fails: [GetEventId<B>()] was requested before the bus was
    used, so [B] has id 0 and [A] id 1.  The bus creates the pool of [A], then
    the pool of [B]; [DispatchQueuedEvents()] flushes the pool of [B] first. *)
Lemma dispatch_order_is_not_creation_order :
  ∃ w0 w,
    program Examples.ctor 1 Examples.foreign_id_setup initial_world = Done w0 ∧
    created w0 = ["A"; "B"] ∧
    exec Examples.ctor 1 CallDispatchQueuedEvents w0 = Done w ∧
    Examples.names (drop (length (log w0)) (log w)) = [(2, "B", 2%Z); (1, "A", 1%Z)] ∧
    pool_type <$> pools_in_order w0 = ["B"; "A"] ∧
    pool_type <$> pools_in_order w0 ≠ created w0.
Proof.
  eexists _, _. split; [vm_compute; reflexivity|].
  split; [vm_compute; reflexivity|].
  split; [vm_compute; reflexivity|].
  split; [vm_compute; reflexivity|].
  split; [vm_compute; reflexivity|].
  vm_compute. discriminate.
Qed.

Lemma event_ids_unique_and_dense_witness :
  let r := Registry.after ["A"; "B"; "A"] in
  Registry.id (Registry.after []) = 0 ∧
  ("C" ∉ ["A"; "B"; "A"] →
     Registry.GetEventId "C" r = (Registry.id r, (Registry.GetEventId "C" r).2) ∧
     Registry.id (Registry.GetEventId "C" r).2 = S (Registry.id r)) ∧
  (∀ Us, Registry.GetEventId "C" (Registry.requests Us (Registry.GetEventId "C" r).2).2
         = ((Registry.GetEventId "C" r).1,
            (Registry.requests Us (Registry.GetEventId "C" r).2).2)) ∧
  (∀ i, Registry.eventID r !! "C" = Some i → Registry.eventID r !! "A" = Some i →
        "C" = "A") ∧
  (∀ i, i < Registry.id r ↔ ∃ V, Registry.eventID r !! V = Some i) ∧
  (∀ V, is_Some (Registry.eventID r !! V) ↔ V ∈ ["A"; "B"; "A"]).
Proof. exact (RegistryFacts.event_ids_unique_and_dense ["A"; "B"; "A"] "C" "A"). Defined.

(** ** The runs of the specification, computed *)

Example registry_ids :
  (Registry.requests ["A"; "B"; "A"; "C"; "B"] Registry.initial).1 = [0; 1; 0; 2; 1].
Proof. reflexivity. Qed.

(** Subscribe [f] to [Damage]; [TriggerEvent<Damage>(10)] calls [f] with 10;
    [EnqueueEvent<Damage>(5)], [EnqueueEvent<Damage>(7)],
    [DispatchQueuedEvents()] call [f] with 5, then 7; the buffer is empty. *)
Example damage_scenario :
  let w := Examples.run_of
    [CallSubscribeToEvent "Damage" 1 Examples.observer;
     CallTriggerEvent "Damage" (FromArgs 10%Z);
     CallEnqueueEvent "Damage" (FromArgs 5%Z);
     CallEnqueueEvent "Damage" (FromArgs 7%Z);
     CallDispatchQueuedEvents] in
  Examples.names (log w) = [(1, "Damage", 10%Z); (1, "Damage", 5%Z); (1, "Damage", 7%Z)] ∧
  pending w "Damage" = [].
Proof. split; vm_compute; reflexivity. Qed.

(** After [UnsubscribeFromEvent] the callable is no longer invoked. *)
Example unsubscribe_scenario :
  let w := Examples.run_of
    [CallSubscribeToEvent "Damage" 1 Examples.observer;
     CallSubscribeToEvent "Damage" 2 Examples.observer;
     CallUnsubscribeFromEvent {| conn_pool := 0; conn_slot := 0 |};
     CallTriggerEvent "Damage" (FromValue 4%Z)] in
  Examples.names (log w) = [(2, "Damage", 4%Z)].
Proof. vm_compute; reflexivity. Qed.

(** A callable that triggers itself never returns: no budget is enough. *)
Example self_trigger_runs_out :
  program Examples.ctor 5
    [CallSubscribeToEvent "Loop" 1 (λ v, [CallTriggerEvent "Loop" (FromValue v)]);
     CallTriggerEvent "Loop" (FromArgs 0%Z)] initial_world = OutOfFuel.
Proof. vm_compute; reflexivity. Qed.

(** A callable that clears the buffer while it is being flushed leaves the
    loop reading elements that are gone. *)
Example clear_during_flush_is_undefined :
  program Examples.ctor 2
    [CallSubscribeToEvent "Tick" 1 (λ _, [CallClearEventQueues]);
     CallEnqueueEvent "Tick" (FromArgs 1%Z);
     CallEnqueueEvent "Tick" (FromArgs 2%Z);
     CallDispatchQueuedEvents] initial_world = Undefined.
Proof. vm_compute; reflexivity. Qed.

(** The failing run of C1: with [Tick(1)] and [Tick(2)] pending, the
    callable enqueues [Tick(2)] when it is given [Tick(1)], and the loop of
    the flush goes on with iterators that the [push_back] invalidated. *)
Example enqueue_during_dispatch_is_undefined :
  program Examples.ctor 2
    [CallSubscribeToEvent "Tick" 7 Examples.requeue;
     CallEnqueueEvent "Tick" (FromArgs 1%Z);
     CallEnqueueEvent "Tick" (FromArgs 2%Z);
     CallDispatchQueuedEvents] initial_world = Undefined.
Proof. vm_compute; reflexivity. Qed.

(** A callable of [A] that enqueues an event of [C], a type the bus has not
    seen: [GetEventHandler<C>] resizes [mEventPools] while the loop of
    [DispatchQueuedEvents()] iterates it, and the loop goes on with
    invalidated iterators. *)
Example growing_the_vector_during_dispatch_is_undefined :
  program Examples.ctor 2
    [CallSubscribeToEvent "A" 1 (λ v, [CallEnqueueEvent "C" (FromArgs v)]);
     CallSubscribeToEvent "B" 2 Examples.observer;
     CallEnqueueEvent "A" (FromArgs 1%Z);
     CallEnqueueEvent "B" (FromArgs 2%Z);
     CallDispatchQueuedEvents] initial_world = Undefined.
Proof. vm_compute; reflexivity. Qed.

(** The same enqueue made from a trigger iterates no vector of the bus and
    is defined: the pool of [C] is created and holds the event. *)
Example growing_the_vector_during_trigger_is_defined :
  let w := Examples.run_of
    [CallSubscribeToEvent "A" 1 (λ v, [CallEnqueueEvent "C" (FromArgs v)]);
     CallTriggerEvent "A" (FromArgs 1%Z)] in
  length (mEventPools w) = 2 ∧ ev_value <$> pending w "C" = [1%Z].
Proof. split; vm_compute; reflexivity. Qed.

(** * Further properties of the bus *)

Section More.

Context {Args Payload : Type} (construct : TypeKey → Args → Payload).

Implicit Types (w : @World Args Payload) (p : @EventPool Args Payload).
Implicit Types (s : @Slot Args Payload) (e : @Event Payload).
Implicit Types (c : @Call Args Payload) (T U : TypeKey).

(** ** Resolving a handler *)

(** Resolving the handler of a type a second time returns the same pool and
    changes nothing: there is at most one pool per type. *)
Theorem GetEventHandler_twice T w :
  GetEventHandler T (GetEventHandler T w).2
  = ((GetEventHandler T w).1, (GetEventHandler T w).2).
Proof.
  eapply GetEventHandler_existing.
  - apply GetEventHandler_lookup.
  - apply GetEventHandler_pool_at_self.
Qed.

(** [GetEventHandler] grows the vector to hold the index of the type and no
    further, never shrinks it, leaves every other slot as it was, and fills
    the slots it adds below the index with null pointers; if the pool was
    there, the vector is untouched. *)
Theorem GetEventHandler_grows_vector T w :
  let h := (GetEventHandler T w).1 in
  let l := mEventPools w in
  let l' := mEventPools (GetEventHandler T w).2 in
  length l' = length l `max` S h ∧
  (∀ j, j ≠ h → j < length l → l' !! j = l !! j) ∧
  (∀ j, j ≠ h → length l ≤ j → j < h → l' !! j = Some None) ∧
  (is_Some (pool_at h w) → l' = l).
Proof.
  intros h l l'. unfold h, l, l'. rewrite GetEventHandler_unfold. simpl.
  set (k := (Registry.GetEventId T (registry w)).1).
  assert (length (grown k (mEventPools w)) = length (mEventPools w) `max` S k) as Hlen.
  { unfold grown. case_bool_decide; [rewrite length_resize|]; lia. }
  assert (∀ j, j < length (mEventPools w) →
               grown k (mEventPools w) !! j = mEventPools w !! j) as Hold.
  { intros j Hj. unfold grown. case_bool_decide; [|done].
    rewrite lookup_resize by lia. done. }
  assert (∀ j, length (mEventPools w) ≤ j → j < k →
               grown k (mEventPools w) !! j = Some None) as Hnew.
  { intros j Hj Hk. unfold grown. rewrite bool_decide_eq_true_2 by lia.
    rewrite lookup_resize_new by lia. done. }
  destruct (pool_at k w) as [p|] eqn:Hp; simpl.
  - assert (k < length (mEventPools w)) as Hk.
    { unfold pool_at in Hp. apply lookup_lt_is_Some.
      destruct (mEventPools w !! k); [eauto|done]. }
    assert (grown k (mEventPools w) = mEventPools w) as ->.
    { unfold grown. by rewrite bool_decide_eq_false_2 by lia. }
    split_and!; [lia|done|intros; lia|done].
  - rewrite length_insert. split_and!; [done| | |by intros [? ?]].
    + intros j Hj Hlt. rewrite list_lookup_insert_ne by done. by apply Hold.
    + intros j Hj Hge Hlt. rewrite list_lookup_insert_ne by done. by apply Hnew.
Qed.

(** In a reachable world the pool that [GetEventHandler<T>] returns was
    created as [EventPool<T>]: the [static_cast] of line 177 is to the type of
    the object, and the callables and the pending events of the pool are of
    type [T]. *)
Theorem GetEventHandler_cast_is_safe T w :
  Reachable construct w →
  ∃ p, pool_at (GetEventHandler T w).1 (GetEventHandler T w).2 = Some p ∧
    pool_type p = T ∧
    (∀ s, s ∈ slots (mSignal p) → slot_type s = T) ∧
    (∀ e, e ∈ mEventQueue p → ev_type e = T).
Proof.
  intros Hwf%Reachable_wf. pose proof (GetEventHandler_wf T w Hwf) as Hwf1.
  destruct (GetEventHandler_cast T w Hwf) as (p & Hp & Hty).
  exists p. split_and!; try done.
  - intros s Hs. rewrite <- Hty. by apply (wf_slot _ Hwf1 _ _ s Hp).
  - intros e He. rewrite <- Hty. by apply (wf_event _ Hwf1 _ _ e Hp).
Qed.

(** ** Frames of the calls that invoke nothing *)

(** [EnqueueEvent<T>(a)] returns whatever the callables are; it invokes none,
    appends the one event built from [a] at the end of the buffer of [T], and
    leaves the other buffers and all bindings as they were. *)
Theorem EnqueueEvent_appends_one_event T (a : @Init Args Payload) w fuel :
  Reachable construct w →
  ∃ w', exec construct (S fuel) (CallEnqueueEvent T a) w = Done w' ∧
    log w' = log w ++ [Entered (CallEnqueueEvent T a)] ∧
    pending w' T = pending w T ++ [build construct T a] ∧
    (∀ U, U ≠ T → pending w' U = pending w U) ∧
    (∀ U, bound w' U = bound w U).
Proof.
  intros Hwf%Reachable_wf. eexists. split; [done|].
  assert (wf (note (Entered (CallEnqueueEvent T a)) w)) as Hwf0 by by apply note_wf.
  split_and!.
  - by rewrite log_EnqueueEvent.
  - by rewrite pending_EnqueueEvent, decide_True.
  - intros U HU. by rewrite pending_EnqueueEvent, decide_False.
  - intros U. by rewrite bound_EnqueueEvent.
Qed.

Lemma pending_clear_handler T U w :
  wf w →
  pending (EventPool_ClearEventQueue (GetEventHandler T w).1 (GetEventHandler T w).2) U
  = if decide (U = T) then [] else pending w U.
Proof.
  intros Hwf. pose proof (GetEventHandler_wf T w Hwf) as Hwf1.
  unfold pending, EventPool_ClearEventQueue. rewrite pool_of_update.
  destruct (decide (U = T)) as [->|HT].
  - rewrite decide_True by apply GetEventHandler_lookup.
    by rewrite pool_of_GetEventHandler_self.
  - rewrite decide_False; [by rewrite pool_of_GetEventHandler_other|].
    intros HU. apply HT.
    eapply (Registry.wf_inj _ (wf_registry _ Hwf1)); [done|].
    apply GetEventHandler_lookup.
Qed.

Lemma bound_clear_handler T U w :
  wf w →
  bound (EventPool_ClearEventQueue (GetEventHandler T w).1 (GetEventHandler T w).2) U
  = bound w U.
Proof.
  intros Hwf. rewrite <- (bound_GetEventHandler T U w Hwf).
  unfold bound, EventPool_ClearEventQueue. rewrite pool_of_update.
  case_decide; [|done]. by destruct (pool_of (GetEventHandler T w).2 U).
Qed.

Lemma EventBus_ClearEventQueuesOf_frame rec Ts w :
  wf w →
  ∃ w', EventBus_ClearEventQueuesOf rec Ts w = Done w' ∧ log w' = log w ∧
    (∀ U, pending w' U = if decide (U ∈ Ts) then [] else pending w U) ∧
    (∀ U, bound w' U = bound w U).
Proof.
  revert w. induction Ts as [|T Ts IH]; intros w Hwf.
  - exists w. split_and!; try done.
  - rewrite EventBus_ClearEventQueuesOf_cons.
    destruct (IH (EventPool_ClearEventQueue (GetEventHandler T w).1 (GetEventHandler T w).2))
      as (w' & Hrun & Hlog & Hpend & Hbound).
    { by apply EventPool_ClearEventQueue_wf, GetEventHandler_wf. }
    exists w'. split_and!; try done.
    + rewrite Hlog. simpl. apply GetEventHandler_log.
    + intros U. rewrite Hpend, pending_clear_handler by done.
      repeat case_decide; try done.
      * exfalso. set_solver.
      * exfalso. set_solver.
      * exfalso. set_solver.
    + intros U. by rewrite Hbound, bound_clear_handler.
Qed.

(** [ClearEventQueues<T1, ...>()] returns whatever the callables are; it
    invokes none, empties the buffers of the named types and of no other, and
    leaves all bindings as they were. *)
Theorem selective_ClearEventQueues_clears_named (Ts : list TypeKey) w fuel :
  Reachable construct w →
  ∃ w', exec construct (S fuel) (CallClearEventQueuesOf Ts) w = Done w' ∧
    log w' = log w ++ [Entered (CallClearEventQueuesOf Ts)] ∧
    (∀ U, pending w' U = if decide (U ∈ Ts) then [] else pending w U) ∧
    (∀ U, bound w' U = bound w U).
Proof.
  intros Hwf%Reachable_wf.
  assert (wf (note (Entered (CallClearEventQueuesOf Ts)) w)) as Hwf0 by by apply note_wf.
  destruct (EventBus_ClearEventQueuesOf_frame (exec construct fuel) Ts _ Hwf0)
    as (w' & Hrun & Hlog & Hpend & Hbound).
  exists w'. split_and!; done.
Qed.

(** ** Counting the ids *)

Lemma GetEventId_size T r :
  size (Registry.eventID r) = Registry.id r →
  size (Registry.eventID (Registry.GetEventId T r).2)
  = Registry.id (Registry.GetEventId T r).2.
Proof.
  intros Hsz. unfold Registry.GetEventId.
  destruct (Registry.eventID r !! T) as [i|] eqn:E; simpl; [done|].
  rewrite map_size_insert_None by done. by rewrite Hsz.
Qed.

Lemma requests_size Ts r :
  size (Registry.eventID r) = Registry.id r →
  size (Registry.eventID (Registry.requests Ts r).2)
  = Registry.id (Registry.requests Ts r).2.
Proof.
  revert r. induction Ts as [|T Ts IH]; intros r Hsz; simpl; [done|].
  pose proof (GetEventId_size T r Hsz) as Hsz1.
  destruct (Registry.GetEventId T r) as [i r1]. specialize (IH r1 Hsz1).
  by destruct (Registry.requests Ts r1).
Qed.

(** After any sequence of id requests the counter is the number of distinct
    types that were requested: a repeated request allocates nothing. *)
Theorem counter_counts_distinct_types (Ts : list TypeKey) :
  Registry.id (Registry.after Ts) = length (remove_dups Ts) ∧
  size (Registry.eventID (Registry.after Ts)) = length (remove_dups Ts).
Proof.
  assert (size (Registry.eventID (Registry.after Ts)) = Registry.id (Registry.after Ts))
    as Hsz by (apply requests_size; done).
  assert (dom (Registry.eventID (Registry.after Ts))
          = (list_to_set (remove_dups Ts) : gset string)) as Hdom.
  { apply set_eq. intros V.
    rewrite elem_of_dom, elem_of_list_to_set, elem_of_remove_dups.
    unfold Registry.after. rewrite RegistryFacts.requests_requested. simpl.
    rewrite lookup_empty. split; [intros [?|[? ?]]; done|auto]. }
  assert (size (Registry.eventID (Registry.after Ts)) = length (remove_dups Ts)) as Hn.
  { rewrite <- size_dom, Hdom. apply size_list_to_set, NoDup_remove_dups. }
  split; [by rewrite <- Hsz|done].
Qed.

(** ** What a run never undoes *)

Lemma GetEventHandler_length T w :
  length (mEventPools (GetEventHandler T w).2)
  = length (mEventPools w) `max` S (GetEventHandler T w).1.
Proof.
  rewrite GetEventHandler_unfold. simpl.
  set (k := (Registry.GetEventId T (registry w)).1).
  assert (length (grown k (mEventPools w)) = length (mEventPools w) `max` S k) as Hlen.
  { unfold grown. case_bool_decide; [rewrite length_resize|]; lia. }
  destruct (pool_at k w); simpl; [done|]. by rewrite length_insert.
Qed.

Lemma stays_refl w : stays w w.
Proof. by split_and!. Qed.

Lemma stays_trans w1 w2 w3 : stays w1 w2 → stays w2 w3 → stays w1 w3.
Proof. intros (H1 & H2 & H3) (H4 & H5 & H6). split_and!; [eauto|lia|eauto]. Qed.

Lemma stays_GetEventHandler T w : wf w → stays w (GetEventHandler T w).2.
Proof.
  intros Hwf. pose proof (GetEventHandler_wf T w Hwf) as Hwf1. split_and!.
  - intros U i Hi. rewrite GetEventHandler_registry.
    by apply RegistryFacts.GetEventId_mono.
  - rewrite GetEventHandler_length. lia.
  - intros Hle. rewrite GetEventHandler_length.
    pose proof (GetEventHandler_lookup T w) as Hl.
    apply (Registry.wf_bound _ (wf_registry _ Hwf1)) in Hl.
    pose proof (RegistryFacts.GetEventId_id_mono T (registry w)) as Hm.
    rewrite <- GetEventHandler_registry in Hm. lia.
Qed.

Lemma stays_update i (f : @EventPool Args Payload → @EventPool Args Payload) w :
  stays w (update_pool i f w).
Proof. split_and!; simpl; rewrite ?length_alter; done. Qed.

Lemma stays_ClearEventQueuesOf rec Ts w w' :
  wf w → EventBus_ClearEventQueuesOf rec Ts w = Done w' → stays w w'.
Proof.
  revert w. induction Ts as [|T Ts IH]; intros w Hwf.
  - intros [= <-]. apply stays_refl.
  - rewrite EventBus_ClearEventQueuesOf_cons. intros Hrun.
    apply IH in Hrun; [|by apply EventPool_ClearEventQueue_wf, GetEventHandler_wf].
    eapply stays_trans; [|exact Hrun].
    eapply stays_trans; [by apply stays_GetEventHandler|apply stays_update].
Qed.

Lemma stays_note o w : stays w (note o w).
Proof. by split_and!. Qed.

Lemma atomic_stays w w' : wf w → atomic construct w w' → stays w w'.
Proof.
  intros Hwf Hat. destruct Hat as [rec c w w' Hq Hstep|T a w|w|s e w Hty|i w].
  - assert (wf (note (Entered c) w)) as Hwf0 by by apply note_wf.
    eapply stays_trans; [apply (stays_note (Entered c))|].
    destruct c as [T a|T a| |Ts| |Ts|T name body|k|T]; simpl in *; try done.
    + injection Hstep as <-. rewrite EventBus_EnqueueEvent_unfold.
      eapply stays_trans; [by apply stays_GetEventHandler|].
      apply stays_update.
    + apply EventBus_DispatchQueuedEventsOf_Done in Hstep as [-> ->]. apply stays_refl.
    + injection Hstep as <-. split_and!; simpl; rewrite ?length_fmap; done.
    + by eapply stays_ClearEventQueuesOf.
    + injection Hstep as <-. rewrite EventBus_SubscribeToEvent_unfold.
      eapply stays_trans; [by apply stays_GetEventHandler|].
      apply stays_update.
    + injection Hstep as <-. apply stays_update.
    + injection Hstep as <-. split_and!; simpl; [|done|].
      * intros U i. apply RegistryFacts.GetEventId_mono.
      * pose proof (RegistryFacts.GetEventId_id_mono T (registry w)). lia.
  - eapply stays_trans; [apply (stays_note (Entered (CallTriggerEvent T a)))|].
    apply stays_GetEventHandler. by apply note_wf.
  - apply stays_note.
  - apply stays_note.
  - apply stays_update.
Qed.

Lemma steps_stays w w' : wf w → rtc (atomic construct) w w' → stays w w'.
Proof.
  intros Hwf Hrtc. induction Hrtc as [w|w w1 w' Hat Hrtc IH]; [apply stays_refl|].
  eapply stays_trans; [by apply atomic_stays|]. apply IH. by eapply atomic_wf.
Qed.

(** Whatever call runs in a reachable world, and whatever the callables do
    in it: every type keeps its id, the vector of pools does not shrink, and
    it never has more slots than ids were allocated. *)
Theorem ids_and_vector_are_stable fuel c w w' :
  Reachable construct w → exec construct fuel c w = Done w' →
  (∀ T i, Registry.eventID (registry w) !! T = Some i →
          Registry.eventID (registry w') !! T = Some i) ∧
  length (mEventPools w) ≤ length (mEventPools w') ∧
  length (mEventPools w') ≤ Registry.id (registry w').
Proof.
  intros Hreach Hrun. pose proof (Reachable_wf construct w Hreach) as Hwf.
  apply exec_steps in Hrun; [|done].
  destruct (steps_stays w w' Hwf Hrun) as (H1 & H2 & H3).
  split_and!; [done..|]. apply H3.
  apply Reachable_steps in Hreach.
  destruct (steps_stays _ _ (wf_initial_world) Hreach) as (_ & _ & H0).
  apply H0. simpl. lia.
Qed.

(** ** Subscribing *)

(** [SubscribeToEvent<T>] returns whatever the callables are; it invokes
    none, binds the callable in the pool of [T], after the callables already
    bound there, and leaves the bindings of the other types and all buffers as
    they were. *)
Theorem SubscribeToEvent_binds_last T name
    (body : Payload → list (@Call Args Payload)) w fuel :
  Reachable construct w →
  ∃ w' s, exec construct (S fuel) (CallSubscribeToEvent T name body) w = Done w' ∧
    log w' = log w ++ [Entered (CallSubscribeToEvent T name body)] ∧
    slot_type s = T ∧ slot_name s = name ∧ slot_body s = body ∧
    bound w' T = bound w T ++ [s] ∧
    (∀ U, U ≠ T → bound w' U = bound w U) ∧
    (∀ U, pending w' U = pending w U).
Proof.
  intros Hwf%Reachable_wf.
  assert (wf (note (Entered (CallSubscribeToEvent T name body)) w)) as Hwf0
    by by apply note_wf.
  destruct (SubscribeToEvent_result T name body _ Hwf0)
    as (s & H1 & H2 & H3 & H4 & H5 & H6 & H7 & H8 & H9).
  eexists _, s. split; [done|]. split_and!; done.
Qed.

(** When the callables bound on the bus and the new callable make no call on
    the bus themselves: a callable subscribed after events were enqueued is
    given those events by the next [DispatchQueuedEvents()], after the
    callables bound before it: the flush invokes the callables bound when it
    runs. *)
Theorem late_subscriber_gets_buffered_events T name
    (body : Payload → list (@Call Args Payload)) w fuel :
  Reachable construct w → all_passive w → (∀ v, body v = []) →
  ∃ w' s tr,
    program construct (S fuel)
      [CallSubscribeToEvent T name body; CallDispatchQueuedEvents] w = Done w' ∧
    log w' = log w ++ tr ∧
    slot_name s = name ∧ slot_body s = body ∧
    deliveries_to T tr = pairing (bound w T ++ [s]) (pending w T) ∧
    pending w' T = [].
Proof.
  intros Hwf%Reachable_wf Hpass Hbody.
  assert (wf (note (Entered (CallSubscribeToEvent T name body)) w)) as Hwf0
    by by apply note_wf.
  destruct (SubscribeToEvent_result T name body _ Hwf0)
    as (s & H1 & H2 & H3 & H4 & H5 & H6 & H7 & H8 & H9).
  set (w1 := (EventBus_SubscribeToEvent T name body
                (note (Entered (CallSubscribeToEvent T name body)) w)).2) in *.
  set (w0 := note (Entered CallDispatchQueuedEvents) w1).
  assert (all_passive w0) as Hpass0.
  { intros j s' [Hs| ->]%H9; [by apply (Hpass j)|].
    intros v. by rewrite H3. }
  eexists _, s, _. unfold program. simpl. fold w1. fold w0.
  rewrite EventBus_DispatchQueuedEvents_passive by done. simpl.
  split; [done|]. split_and!; try done.
  - simpl. fold w1. rewrite H5. simpl. by rewrite <- !app_assoc.
  - rewrite (deliveries_to_app T [_]), (deliveries_to_app T [_]).
    change (pools_in_order w0) with (pools_in_order w1).
    rewrite deliveries_to_pools by done. by rewrite H6, H8.
  - apply pending_ClearEventQueues.
Qed.

(** After a [DispatchQueuedEvents()] with passive callables every buffer is
    empty, and a second [DispatchQueuedEvents()] invokes nothing. *)
Theorem second_dispatch_invokes_nothing w fuel :
  Reachable construct w → all_passive w →
  ∃ w',
    program construct (S fuel) [CallDispatchQueuedEvents; CallDispatchQueuedEvents] w
    = Done w' ∧
    log w' = log w ++ Entered CallDispatchQueuedEvents
                      :: (pools_in_order w ≫= pool_obs)
                      ++ [Entered CallDispatchQueuedEvents] ∧
    (∀ U, pending w' U = []).
Proof.
  intros Hwf%Reachable_wf Hpass.
  unfold program. cbn [run exec step].
  rewrite EventBus_DispatchQueuedEvents_passive by (intros j s; apply (Hpass j s)).
  cbn [mbind Outcome_mbind Outcome_bind].
  unfold EventBus_DispatchQueuedEvents. rewrite dispatch_loop_empty.
  - eexists. split; [done|]. split.
    + simpl. by rewrite <- !app_assoc.
    + intros U.
      change (pending (note ?o (notes ?tr ?w0)) U) with (pending w0 U).
      apply pending_ClearEventQueues.
  - intros j. unfold queue_at.
    change (pool_at j (note ?o (notes ?tr ?w0))) with (pool_at j w0).
    rewrite pool_at_ClearEventQueues. by destruct (pool_at j _).
  - done.
Qed.

(** ** Callables that call back during a trigger *)

Section Nested.

Variables (U : TypeKey) (fuel : nat).

Lemma run_triggers (cs : list (@Call Args Payload)) w :
  wf w → Forall (is_trigger U) cs → Forall passive (bound w U) →
  ∃ w', run (exec construct (S fuel)) cs w = Done w' ∧ wf w' ∧
    log w' = log w ++ nested_obs construct (bound w U) cs ∧
    (∀ V, pending w' V = pending w V) ∧
    (∀ V, bound w' V = bound w V).
Proof.
  revert w. induction cs as [|c cs IH]; intros w Hwf Hcs Hp.
  - exists w. split_and!; try done. simpl. by rewrite app_nil_r.
  - apply Forall_cons in Hcs as [Hc Hcs].
    destruct c as [V a|V a| |Ts| |Ts|V name body|k|V]; try done.
    simpl in Hc. subst V.
    destruct (exec_TriggerEvent_passive construct U a w fuel Hwf Hp)
      as (w1 & Hrun1 & Hwf1 & Hlog1 & Hpend1 & Hbound1).
    destruct (IH w1 Hwf1 Hcs) as (w' & Hrun & Hwf' & Hlog & Hpend & Hbound).
    { by rewrite Hbound1. }
    exists w'. split_and!; try done.
    + cbn [run]. rewrite Hrun1. done.
    + rewrite Hlog, Hlog1, Hbound1. unfold nested_obs. rewrite bind_cons.
      simpl. by rewrite <- !app_assoc.
    + intros V. by rewrite Hpend, Hpend1.
    + intros V. by rewrite Hbound, Hbound1.
Qed.

Lemma invoke_triggers (ss : list (@Slot Args Payload)) e w :
  wf w → Forall (triggers_only U) ss → Forall passive (bound w U) →
  (∀ s, s ∈ ss → slot_type s = ev_type e) →
  ∃ w', invoke (exec construct (S fuel)) ss e w = Done w' ∧ wf w' ∧
    log w' = log w ++ (s ← ss; Invoked s e
                         :: nested_obs construct (bound w U) (slot_body s (ev_value e))) ∧
    (∀ V, pending w' V = pending w V) ∧
    (∀ V, bound w' V = bound w V).
Proof.
  revert w. induction ss as [|s ss IH]; intros w Hwf Hss Hp Hty.
  - exists w. split_and!; try done. simpl. by rewrite app_nil_r.
  - apply Forall_cons in Hss as [Hs Hss].
    destruct (run_triggers (slot_body s (ev_value e)) (note (Invoked s e) w))
      as (w1 & Hrun1 & Hwf1 & Hlog1 & Hpend1 & Hbound1); [|apply Hs|done|].
    { apply note_wf; [done|]. apply Hty. by left. }
    destruct (IH w1 Hwf1 Hss) as (w' & Hrun & Hwf' & Hlog & Hpend & Hbound).
    { by rewrite Hbound1. }
    { intros s' Hs'. apply Hty. by right. }
    exists w'. split_and!; try done.
    + cbn [invoke]. unfold call_slot. rewrite Hrun1. done.
    + rewrite Hlog, Hlog1, Hbound1, bind_cons. simpl. by rewrite <- !app_assoc.
    + intros V. by rewrite Hpend, Hpend1.
    + intros V. by rewrite Hbound, Hbound1.
Qed.

End Nested.

(** A trigger made by a callable runs to its end before the next callable of
    the outer trigger is invoked: when the callables bound to [T] trigger
    events of [U], whose callables are passive, [TriggerEvent<T>(a)] shows,
    per callable of [T] in subscription order, its invocation followed, per
    trigger it makes, by the invocations of all callables of [U].  No buffer
    changes. *)
Theorem nested_trigger_completes_first T U (a : @Init Args Payload) w fuel :
  Reachable construct w →
  Forall (triggers_only U) (bound w T) → Forall passive (bound w U) →
  ∃ w', exec construct (S (S fuel)) (CallTriggerEvent T a) w = Done w' ∧
    log w' = log w ++ Entered (CallTriggerEvent T a)
      :: (s ← bound w T;
          Invoked s (build construct T a)
            :: nested_obs construct (bound w U)
                 (slot_body s (ev_value (build construct T a)))) ∧
    (∀ V, pending w' V = pending w V) ∧
    (∀ V, bound w' V = bound w V).
Proof.
  intros Hwf%Reachable_wf Hss Hp.
  assert (wf (note (Entered (CallTriggerEvent T a)) w)) as Hwf0 by by apply note_wf.
  pose proof (GetEventHandler_wf T _ Hwf0) as Hwf1.
  destruct (invoke_triggers U fuel (bound w T) (build construct T a)
              (GetEventHandler T (note (Entered (CallTriggerEvent T a)) w)).2)
    as (w' & Hrun & Hwf' & Hlog & Hpend & Hbound); try done.
  { by rewrite bound_GetEventHandler. }
  { intros s Hs. by apply (bound_typed w T). }
  exists w'. split_and!.
  - cbn [exec step]. rewrite EventBus_TriggerEvent_unfold.
    unfold EventPool_TriggerEvent, Signal_call. rewrite slots_at_handler by done.
    exact Hrun.
  - rewrite Hlog, GetEventHandler_log, bound_GetEventHandler by done.
    simpl. by rewrite <- app_assoc.
  - intros V. by rewrite Hpend, pending_GetEventHandler.
  - intros V. by rewrite Hbound, bound_GetEventHandler.
Qed.

Lemma self_trigger_out_of_fuel fuel T (a : @Init Args Payload) w s ss :
  wf w → bound w T = s :: ss → retriggers T s →
  exec construct fuel (CallTriggerEvent T a) w = OutOfFuel.
Proof.
  revert a w. induction fuel as [|n IH]; intros a w Hwf Hb Hs; [done|].
  assert (wf (note (Entered (CallTriggerEvent T a)) w)) as Hwf0 by by apply note_wf.
  pose proof (GetEventHandler_wf T _ Hwf0) as Hwf1.
  cbn [exec step]. rewrite EventBus_TriggerEvent_unfold.
  unfold EventPool_TriggerEvent, Signal_call. rewrite slots_at_handler by done.
  change (bound (note _ w) T) with (bound w T). rewrite Hb.
  cbn [invoke]. unfold call_slot.
  destruct (Hs (ev_value (build construct T a))) as (a' & cs & ->).
  cbn [run]. rewrite IH; [done| | |done].
  - apply note_wf; [done|]. apply (bound_typed w T); [done|]. rewrite Hb. by left.
  - change (bound (note ?o ?w0) T) with (bound w0 T).
    by rewrite bound_GetEventHandler.
Qed.

(** There is no re-entrancy guard: if the first callable bound to [T] begins
    by triggering [T] again, [TriggerEvent<T>] does not return, however deep
    the calls may nest. *)
Theorem self_trigger_never_returns T (a : @Init Args Payload) w s ss :
  Reachable construct w → bound w T = s :: ss → retriggers T s →
  ∀ fuel, exec construct fuel (CallTriggerEvent T a) w = OutOfFuel.
Proof.
  intros Hwf%Reachable_wf Hb Hs fuel. by eapply self_trigger_out_of_fuel.
Qed.

Lemma enqueue_calls_args U (cs : list (@Call Args Payload)) :
  Forall (is_enqueue U) cs →
  ∃ args, cs = CallEnqueueEvent U <$> args ∧
          omap (call_event construct) cs = build construct U <$> args.
Proof.
  induction cs as [|c cs IH]; intros Hcs.
  - by exists [].
  - apply Forall_cons in Hcs as [Hc Hcs]. destruct (IH Hcs) as (args & -> & Hev).
    destruct c as [V a|V a| |Ts| |Ts|V name body|k|V]; try done.
    simpl in Hc. subst V. exists (a :: args). split; [done|].
    simpl. f_equal. exact Hev.
Qed.

Lemma invoke_enqueuers U fuel (ss : list (@Slot Args Payload)) e w :
  wf w → Forall (enqueues_only U) ss →
  (∀ s, s ∈ ss → slot_type s = ev_type e) →
  ∃ w', invoke (exec construct (S fuel)) ss e w = Done w' ∧ wf w' ∧
    log w' = log w ++ (s ← ss; Invoked s e :: (Entered <$> slot_body s (ev_value e))) ∧
    pending w' U = pending w U
                   ++ omap (call_event construct) (s ← ss; slot_body s (ev_value e)) ∧
    (∀ V, V ≠ U → pending w' V = pending w V) ∧
    (∀ V, bound w' V = bound w V).
Proof.
  revert w. induction ss as [|s ss IH]; intros w Hwf Hss Hty.
  - exists w. split_and!; try done; simpl; by rewrite app_nil_r.
  - apply Forall_cons in Hss as [Hs Hss].
    destruct (enqueue_calls_args U _ (Hs (ev_value e))) as (args & Hargs & Hev).
    assert (wf (note (Invoked s e) w)) as Hwf0.
    { apply note_wf; [done|]. apply Hty. by left. }
    destruct (program_enqueues construct fuel U args _ Hwf0)
      as (w1 & Hrun1 & Hwf1 & Hpend1 & Hother1 & Hbound1 & _ & Hlog1).
    destruct (IH w1 Hwf1 Hss) as (w' & Hrun & Hwf' & Hlog & Hpend & Hother & Hbound).
    { intros s' Hs'. apply Hty. by right. }
    exists w'. split_and!; try done.
    + cbn [invoke]. unfold call_slot. rewrite Hargs.
      unfold program in Hrun1. rewrite Hrun1. done.
    + rewrite Hlog, Hlog1, bind_cons, Hargs. simpl. by rewrite <- !app_assoc.
    + rewrite Hpend, Hpend1, bind_cons, omap_app, Hev.
      change (pending (note ?o ?w0) U) with (pending w0 U).
      by rewrite <- app_assoc.
    + intros V HV. by rewrite Hother, Hother1.
    + intros V. by rewrite Hbound, Hbound1.
Qed.

(** Events that callables enqueue while [TriggerEvent<T>] runs are not given
    to anyone by the trigger; they are in the buffer of their type, behind
    what was pending, when it returns.  (Each callable of [T] is invoked once,
    with the triggered event.) *)
Theorem enqueue_during_trigger_stays_pending T U (a : @Init Args Payload) w fuel :
  Reachable construct w → Forall (enqueues_only U) (bound w T) →
  ∃ w' tr, exec construct (S (S fuel)) (CallTriggerEvent T a) w = Done w' ∧
    log w' = log w ++ tr ∧
    deliveries tr = (λ s, (s, build construct T a)) <$> bound w T ∧
    pending w' U
    = pending w U
      ++ omap (call_event construct)
           (s ← bound w T; slot_body s (ev_value (build construct T a))) ∧
    (∀ V, V ≠ U → pending w' V = pending w V) ∧
    (∀ V, bound w' V = bound w V).
Proof.
  intros Hwf%Reachable_wf Hss.
  assert (wf (note (Entered (CallTriggerEvent T a)) w)) as Hwf0 by by apply note_wf.
  pose proof (GetEventHandler_wf T _ Hwf0) as Hwf1.
  destruct (invoke_enqueuers U fuel (bound w T) (build construct T a)
              (GetEventHandler T (note (Entered (CallTriggerEvent T a)) w)).2)
    as (w' & Hrun & Hwf' & Hlog & Hpend & Hother & Hbound); try done.
  { intros s Hs. by apply (bound_typed w T). }
  exists w', (Entered (CallTriggerEvent T a)
              :: (s ← bound w T;
                  Invoked s (build construct T a)
                    :: (Entered <$> slot_body s (ev_value (build construct T a))))).
  split_and!.
  - cbn [exec step]. rewrite EventBus_TriggerEvent_unfold.
    unfold EventPool_TriggerEvent, Signal_call. rewrite slots_at_handler by done.
    exact Hrun.
  - rewrite Hlog, GetEventHandler_log. simpl. by rewrite <- app_assoc.
  - change (deliveries (Entered ?c :: ?X)) with (deliveries X).
    generalize (bound w T). intros l. induction l as [|s l IHl]; [done|].
    rewrite bind_cons, deliveries_app, IHl.
    change (deliveries (Invoked ?s0 ?e0 :: ?X)) with ((s0, e0) :: deliveries X).
    by rewrite deliveries_Entered.
  - rewrite Hpend. by rewrite pending_GetEventHandler.
  - intros V HV. by rewrite Hother, pending_GetEventHandler.
  - intros V. by rewrite Hbound, bound_GetEventHandler.
Qed.

(** ** A callable that clears the buffer being flushed *)

Lemma invoke_clearers fuel (ss : list (@Slot Args Payload)) e w :
  Forall clears_all ss →
  ∃ w' tr, invoke (exec construct (S fuel)) ss e w = Done w' ∧
    log w' = log w ++ tr ∧
    (ss ≠ [] → CallClearEventQueues ∈ calls tr).
Proof.
  revert w. induction ss as [|s ss IH]; intros w Hss.
  - exists w, []. split; [done|]. split; [by rewrite app_nil_r|done].
  - apply Forall_cons in Hss as [Hs Hss].
    set (w1 := EventBus_ClearEventQueues
                 (note (Entered CallClearEventQueues) (note (Invoked s e) w))).
    destruct (IH w1 Hss) as (w' & tr & Hrun & Hlog & _).
    exists w', ([Invoked s e; Entered CallClearEventQueues] ++ tr). split_and!.
    + cbn [invoke]. unfold call_slot. rewrite Hs. cbn [run exec step].
      fold w1. exact Hrun.
    + rewrite Hlog. unfold w1. simpl. by rewrite <- !app_assoc.
    + intros _. rewrite calls_app. apply elem_of_app. left. simpl. by left.
Qed.

(** If the callables of a pool call [ClearEventQueues()], the flush of a
    buffer with two or more events goes on, after the first event, over
    elements that are gone: the behaviour of the dispatch is undefined. *)
Theorem clearing_callable_breaks_flush fuel h w :
  slots_at h w ≠ [] → Forall clears_all (slots_at h w) →
  2 ≤ length (queue_at h w) →
  EventPool_DispatchQueuedEvents (exec construct (S fuel)) h w = Undefined.
Proof.
  intros Hne Hss Hlen. unfold EventPool_DispatchQueuedEvents.
  destruct (queue_at h w) as [|e0 [|e1 q]] eqn:Hq; simpl in Hlen; try lia.
  cbn [length flush]. rewrite Hq. cbn [lookup list_lookup].
  unfold Signal_call.
  destruct (invoke_clearers fuel (slots_at h w) e0 w Hss) as (w' & tr & -> & Hlog & Hin).
  cbn [mbind Outcome_mbind Outcome_bind].
  assert (invalidated h w w' = true) as ->; [|done].
  unfold invalidated. rewrite (since_log _ _ _ Hlog).
  apply existsb_exists. exists CallClearEventQueues. split; [|done].
  apply list_elem_of_In. by apply Hin.
Qed.

(** ** Callables that enqueue for another type during a dispatch *)

Lemma dispatch_loop_app rec n1 n2 i w :
  dispatch_loop rec (n1 + n2) i w
  = dispatch_loop rec n1 i w ≫= dispatch_loop rec n2 (i + n1).
Proof.
  revert i w. induction n1 as [|n1 IH]; intros i w.
  - simpl. by rewrite Nat.add_0_r.
  - cbn [Nat.add dispatch_loop].
    destruct (mEventPools w !! i) as [[p|]|]; [| |done].
    + destruct (EventPool_DispatchQueuedEvents rec i w) as [w1| | |]; [|done..].
      cbn [mbind Outcome_mbind Outcome_bind]. case_decide; [|done]. rewrite IH.
      by replace (S i + n1) with (i + S n1) by lia.
    + rewrite IH. by replace (S i + n1) with (i + S n1) by lia.
Qed.

(** A stretch of the loop over pools whose callables are passive. *)
Lemma dispatch_loop_passive_range rec n i w :
  (∀ j, i ≤ j < i + n → Forall passive (slots_at j w)) →
  i + n ≤ length (mEventPools w) →
  ∃ w', dispatch_loop rec n i w = Done w' ∧
    registry w' = registry w ∧ created w' = created w ∧
    log w' = log w ++ (omap id (take n (drop i (mEventPools w))) ≫= pool_obs) ∧
    ∀ j, mEventPools w' !! j
         = if decide (i ≤ j < i + n) then fmap clear_queue <$> mEventPools w !! j
           else mEventPools w !! j.
Proof.
  revert i w. induction n as [|n IH]; intros i w Hp Hlen.
  - exists w. split_and!; try done.
    + simpl. by rewrite app_nil_r.
    + intros j. case_decide; [lia|done].
  - destruct (lookup_lt_is_Some_2 (mEventPools w) i) as [o Ho]; [lia|].
    cbn [dispatch_loop]. rewrite Ho. rewrite (drop_S _ _ _ Ho). cbn [take].
    destruct o as [p|].
    + rewrite EventPool_DispatchQueuedEvents_passive by (apply Hp; lia).
      cbn [mbind Outcome_mbind Outcome_bind].
      rewrite decide_True by (simpl; by rewrite length_alter).
      set (w1 := EventPool_ClearEventQueue i _).
      destruct (IH (S i) w1) as (w' & Hrun & Hr & Hc & Hl & Hm).
      { intros j Hj. unfold w1, EventPool_ClearEventQueue.
        rewrite slots_at_update_queue by done. apply Hp. lia. }
      { unfold w1. simpl. rewrite length_alter. lia. }
      exists w'. split_and!; try done.
      * rewrite Hl. unfold w1. simpl. rewrite drop_alter_lt by lia.
        rewrite <- app_assoc. do 2 f_equal.
        unfold pool_obs, slots_at, queue_at, pool_at. simpl. by rewrite Ho.
      * intros j. rewrite Hm. unfold w1. simpl.
        rewrite list_lookup_alter. repeat case_decide; try lia; try done.
        subst j. done.
    + destruct (IH (S i) w) as (w' & Hrun & Hr & Hc & Hl & Hm).
      { intros j Hj. apply Hp. lia. }
      { lia. }
      exists w'. split_and!; try done.
      intros j. rewrite Hm. repeat case_decide; try lia; try done.
      assert (j = i) as -> by lia. by rewrite Ho.
Qed.

Lemma push_all_nil p : push_all [] p = p.
Proof. destruct p. unfold push_all. simpl. by rewrite app_nil_r. Qed.

Lemma appended_nil h w : appended h [] w w.
Proof.
  split_and!; try done. symmetry. apply list_alter_id.
  intros [p|]; simpl; [|done]. by rewrite push_all_nil.
Qed.

Lemma appended_note h evs o w0 w1 :
  appended h evs w0 w1 → appended h evs w0 (note o w1).
Proof. by intros (? & ? & ?). Qed.

Lemma pool_at_appended h evs j w0 w1 :
  appended h evs w0 w1 →
  pool_at j w1 = if decide (h = j) then push_all evs <$> pool_at j w0 else pool_at j w0.
Proof.
  intros (_ & _ & Hl). unfold pool_at. rewrite Hl, list_lookup_alter.
  repeat case_decide; try done. subst j.
  by destruct (mEventPools w0 !! h) as [[p|]|].
Qed.

(** An enqueue for [U] modifies the buffer of no other pool. *)
Lemma enqueues_edit_no_other_queue U r iT (cs : list (@Call Args Payload)) :
  Registry.eventID r !! U ≠ Some iT →
  Forall (is_enqueue U) cs → existsb (edits_queue r iT) cs = false.
Proof.
  intros Hid Hcs. induction Hcs as [|c cs Hc _ IH]; [done|].
  simpl. rewrite IH, orb_false_r.
  destruct c as [V a|V a| |Ts| |Ts|V name body|k|V]; try done.
  simpl in Hc. subst V. simpl. by apply bool_decide_eq_false.
Qed.

Section Cross.

Variables (U : TypeKey) (iU : nat) (fuel : nat) (w0 : @World Args Payload).

Hypothesis U_id : Registry.eventID (registry w0) !! U = Some iU.
Hypothesis U_pool : is_Some (pool_at iU w0).

Lemma exec_enqueue_appended evs (a : @Init Args Payload) w1 :
  appended iU evs w0 w1 →
  ∃ w2, exec construct (S fuel) (CallEnqueueEvent U a) w1 = Done w2 ∧
    appended iU (evs ++ [build construct U a]) w0 w2 ∧
    log w2 = log w1 ++ [Entered (CallEnqueueEvent U a)].
Proof.
  intros Happ. pose proof Happ as (Hr & Hc & Hl). destruct U_pool as [p0 Hp0].
  set (w := note (Entered (CallEnqueueEvent U a)) w1).
  assert (GetEventHandler U w = (iU, w)) as Hh.
  { apply (GetEventHandler_existing U w iU (push_all evs p0)).
    - simpl. by rewrite Hr.
    - change (pool_at iU w) with (pool_at iU w1).
      rewrite (pool_at_appended iU evs iU w0 w1 Happ), decide_True by done.
      by rewrite Hp0. }
  eexists. split; [done|]. cbn [exec step]. fold w.
  rewrite EventBus_EnqueueEvent_unfold, Hh. simpl. split; [|done].
  split_and!; simpl; try done.
  rewrite Hl, list_alter_alter_eq. apply list_alter_ext; [|done].
  intros [p|] _; simpl; [|done]. unfold push_all. simpl. by rewrite app_assoc.
Qed.

Lemma run_enqueues_appended evs (cs : list (@Call Args Payload)) w1 :
  Forall (is_enqueue U) cs → appended iU evs w0 w1 →
  ∃ w2, run (exec construct (S fuel)) cs w1 = Done w2 ∧
    appended iU (evs ++ omap (call_event construct) cs) w0 w2 ∧
    log w2 = log w1 ++ (Entered <$> cs).
Proof.
  revert evs w1. induction cs as [|c cs IH]; intros evs w1 Hcs Happ.
  - exists w1. split_and!; try done; simpl; by rewrite app_nil_r.
  - apply Forall_cons in Hcs as [Hc Hcs].
    destruct c as [V a|V a| |Ts| |Ts|V name body|k|V]; try done.
    simpl in Hc. subst V.
    destruct (exec_enqueue_appended evs a w1 Happ) as (w2 & Hrun1 & Happ1 & Hlog1).
    destruct (IH _ w2 Hcs Happ1) as (w3 & Hrun & Happ3 & Hlog).
    exists w3. split_and!.
    + cbn [run]. rewrite Hrun1. done.
    + simpl. by rewrite <- app_assoc in Happ3.
    + rewrite Hlog, Hlog1. simpl. by rewrite <- app_assoc.
Qed.

Lemma invoke_appended evs (ss : list (@Slot Args Payload)) e w1 :
  Forall (enqueues_only U) ss → appended iU evs w0 w1 →
  ∃ w2, invoke (exec construct (S fuel)) ss e w1 = Done w2 ∧
    appended iU (evs ++ (s ← ss; omap (call_event construct) (slot_body s (ev_value e))))
      w0 w2 ∧
    log w2 = log w1 ++ (s ← ss; Invoked s e :: (Entered <$> slot_body s (ev_value e))).
Proof.
  revert evs w1. induction ss as [|s ss IH]; intros evs w1 Hss Happ.
  - exists w1. split_and!; try done; simpl; by rewrite app_nil_r.
  - apply Forall_cons in Hss as [Hs Hss].
    destruct (run_enqueues_appended evs (slot_body s (ev_value e)) (note (Invoked s e) w1))
      as (w2 & Hrun1 & Happ1 & Hlog1); [apply Hs|by apply appended_note|].
    destruct (IH _ w2 Hss Happ1) as (w3 & Hrun & Happ3 & Hlog).
    exists w3. split_and!.
    + cbn [invoke]. unfold call_slot. rewrite Hrun1. done.
    + rewrite bind_cons. by rewrite <- app_assoc in Happ3.
    + rewrite Hlog, Hlog1, bind_cons. simpl. by rewrite <- !app_assoc.
Qed.

Lemma calls_invoke_obs (ss : list (@Slot Args Payload)) e :
  calls (s ← ss; Invoked s e :: (Entered <$> slot_body s (ev_value e)))
  = s ← ss; slot_body s (ev_value e).
Proof.
  induction ss as [|s ss IH]; [done|].
  rewrite !bind_cons, calls_app, IH. simpl. by rewrite calls_Entered.
Qed.

Lemma flush_appended iT n i evs w1 :
  iT ≠ iU → Forall (enqueues_only U) (slots_at iT w0) →
  i + n ≤ length (queue_at iT w0) → appended iU evs w0 w1 →
  ∃ w2, flush (exec construct (S fuel)) n i iT w1 = Done w2 ∧
    appended iU
      (evs ++ enqueued_by construct (slots_at iT w0) (take n (drop i (queue_at iT w0))))
      w0 w2 ∧
    log w2 = log w1 ++ reentrant_obs (slots_at iT w0) (take n (drop i (queue_at iT w0))).
Proof.
  intros Hne Hss. revert i evs w1. induction n as [|n IH]; intros i evs w1 Hlen Happ.
  - exists w1. split_and!; try done; simpl; by rewrite app_nil_r.
  - destruct (lookup_lt_is_Some_2 (queue_at iT w0) i) as [e He]; [lia|].
    assert (pool_at iT w1 = pool_at iT w0) as Hsame.
    { rewrite (pool_at_appended iU evs iT w0 w1 Happ). by rewrite decide_False. }
    destruct (invoke_appended evs (slots_at iT w0) e w1 Hss Happ)
      as (w2 & Hrun1 & Happ1 & Hlog1).
    edestruct (IH (S i)) as (w3 & Hrun & Happ3 & Hlog); [|exact Happ1|]; [lia|].
    exists w3. split_and!.
    + cbn [flush]. unfold queue_at at 1. rewrite Hsame. fold (queue_at iT w0).
      rewrite He. unfold Signal_call, slots_at at 1. rewrite Hsame.
      fold (slots_at iT w0). rewrite Hrun1.
      cbn [mbind Outcome_mbind Outcome_bind].
      assert (invalidated iT w1 w2 = false) as ->; [|done].
      unfold invalidated. rewrite (since_log _ _ _ Hlog1), calls_invoke_obs.
      apply (enqueues_edit_no_other_queue U).
      * destruct Happ1 as (-> & _). rewrite U_id. congruence.
      * apply Forall_forall. intros c (s & Hc & Hs)%list_elem_of_bind.
        eapply Forall_forall in Hss; [|exact Hs].
        specialize (Hss (ev_value e)). by eapply Forall_forall in Hss.
    + rewrite (drop_S _ _ _ He). cbn [take]. unfold enqueued_by at 1.
      rewrite bind_cons. fold (enqueued_by construct (slots_at iT w0)
                                 (take n (drop (S i) (queue_at iT w0)))).
      by rewrite <- app_assoc in Happ3.
    + rewrite Hlog, Hlog1, (drop_S _ _ _ He). cbn [take]. unfold reentrant_obs.
      rewrite bind_cons. by rewrite <- !app_assoc.
Qed.

Lemma EventPool_DispatchQueuedEvents_cross iT :
  iT ≠ iU → Forall (enqueues_only U) (slots_at iT w0) →
  ∃ w2, EventPool_DispatchQueuedEvents (exec construct (S fuel)) iT w0 = Done w2 ∧
    registry w2 = registry w0 ∧ created w2 = created w0 ∧
    log w2 = log w0 ++ reentrant_obs (slots_at iT w0) (queue_at iT w0) ∧
    mEventPools w2
    = alter (fmap clear_queue) iT
        (alter (fmap (push_all (enqueued_by construct (slots_at iT w0) (queue_at iT w0))))
           iU (mEventPools w0)).
Proof.
  intros Hne Hss.
  destruct (flush_appended iT (length (queue_at iT w0)) 0 [] w0 Hne Hss)
    as (w1 & Hrun & (Hr & Hc & Hl) & Hlog); [lia|apply appended_nil|].
  rewrite drop_0, firstn_all in *. simpl in Hl.
  exists (EventPool_ClearEventQueue iT w1). split_and!; try done.
  - unfold EventPool_DispatchQueuedEvents. rewrite Hrun. done.
  - simpl. by rewrite Hl.
Qed.

End Cross.

Lemma same_length_of_lookups {A} (l1 l2 : list A) :
  (∀ j, is_Some (l1 !! j) ↔ is_Some (l2 !! j)) → length l1 = length l2.
Proof.
  intros H. destruct (Nat.lt_trichotomy (length l1) (length l2)) as [Hlt|[?|Hlt]]; [|done|].
  - apply lookup_lt_is_Some_2, H, lookup_lt_is_Some_1 in Hlt. lia.
  - apply lookup_lt_is_Some_2, H, lookup_lt_is_Some_1 in Hlt. lia.
Qed.

(** The deliveries to the callables of [U] in the flush of a stretch of the
    vector that starts at index [k]. *)
Lemma deliveries_to_stretch U w k (l : list (option (@EventPool Args Payload))) :
  wf w →
  (∀ j q, l !! j = Some (Some q) →
     Registry.eventID (registry w) !! pool_type q = Some (k + j) ∧
     ∀ s, s ∈ slots (mSignal q) → slot_type s = pool_type q) →
  deliveries_to U (omap id l ≫= pool_obs)
  = match Registry.eventID (registry w) !! U with
    | Some i =>
        if decide (k ≤ i)
        then from_option (λ q, pairing (slots (mSignal q)) (mEventQueue q)) []
               (mjoin (l !! (i - k)))
        else []
    | None => []
    end.
Proof.
  intros Hwf Hl. rewrite deliveries_to_pools_filter.
  - rewrite (filter_pool_type (λ V, Registry.eventID (registry w) !! V) U k).
    + destruct (Registry.eventID (registry w) !! U) as [i|]; [|done].
      case_decide; [|done]. destruct (mjoin (l !! (i - k))); simpl; [|done].
      by rewrite app_nil_r.
    + apply (Registry.wf_inj _ (wf_registry _ Hwf)).
    + intros j q Hj. by apply Hl.
  - intros p s (o & [j Hj]%list_elem_of_lookup_1 & Ho)%list_elem_of_omap.
    simpl in Ho. subst o. by apply (Hl j p).
Qed.

Section Pass.

Variables (T U : TypeKey) (iT iU : nat) (fuel : nat).
Variables (w : @World Args Payload) (pT pU : @EventPool Args Payload).

Hypothesis Hwf : wf w.
Hypothesis T_id : Registry.eventID (registry w) !! T = Some iT.
Hypothesis U_id : Registry.eventID (registry w) !! U = Some iU.
Hypothesis T_pool : pool_at iT w = Some pT.
Hypothesis U_pool : pool_at iU w = Some pU.
Hypothesis differ : iT ≠ iU.
Hypothesis T_enqueues : Forall (enqueues_only U) (slots (mSignal pT)).
Hypothesis rest_passive : ∀ j, j ≠ iT → Forall passive (slots_at j w).

Lemma raw_lookup_of_pool_at i p :
  pool_at i w = Some p → mEventPools w !! i = Some (Some p).
Proof.
  unfold pool_at. destruct (mEventPools w !! i) as [[q|]|]; [|done..].
  by intros [= ->].
Qed.

(** One pass of the loop of [DispatchQueuedEvents()]: the pools below [iT] are
    flushed, then the pool of [T], whose callables enqueue for [U], then the
    pools above [iT], as they are by then. *)
Lemma dispatch_pass_with_enqueuer :
  ∃ w3 l2,
    EventBus_DispatchQueuedEvents (exec construct (S fuel)) w = Done w3 ∧
    registry w3 = registry w ∧
    log w3 = log w ++ (omap id (take iT (mEventPools w)) ≫= pool_obs)
                   ++ reentrant_obs (slots (mSignal pT)) (mEventQueue pT)
                   ++ (omap id (drop (S iT) l2) ≫= pool_obs) ∧
    (∀ j, iT < j →
       l2 !! j = if decide (j = iU)
                 then fmap (push_all
                              (enqueued_by construct (slots (mSignal pT)) (mEventQueue pT)))
                        <$> mEventPools w !! j
                 else mEventPools w !! j) ∧
    mEventPools w3 !! iU
    = if decide (iU < iT)
      then Some (Some (push_all
                         (enqueued_by construct (slots (mSignal pT)) (mEventQueue pT))
                         (clear_queue pU)))
      else Some (Some (clear_queue
                         (push_all
                            (enqueued_by construct (slots (mSignal pT)) (mEventQueue pT))
                            pU))).
Proof.
  pose proof (raw_lookup_of_pool_at iT pT T_pool) as HlT.
  pose proof (raw_lookup_of_pool_at iU pU U_pool) as HlU.
  assert (iT < length (mEventPools w)) as HiT by (apply lookup_lt_is_Some; eauto).
  unfold EventBus_DispatchQueuedEvents.
  replace (length (mEventPools w))
    with (iT + S (length (mEventPools w) - S iT)) by lia.
  rewrite dispatch_loop_app.
  destruct (dispatch_loop_passive_range (exec construct (S fuel)) iT 0 w)
    as (w1 & -> & Hr1 & Hc1 & Hlog1 & Hm1).
  { intros j Hj. apply rest_passive. lia. }
  { lia. }
  cbn [mbind Outcome_mbind Outcome_bind Nat.add dispatch_loop].
  assert (mEventPools w1 !! iT = Some (Some pT)) as HlT1.
  { rewrite Hm1, decide_False by lia. done. }
  rewrite HlT1.
  assert (pool_at iT w1 = Some pT) as HpT1 by (unfold pool_at; by rewrite HlT1).
  assert (is_Some (pool_at iU w1)) as HpU1.
  { unfold pool_at. rewrite Hm1, HlU. case_decide; simpl; eauto. }
  destruct (EventPool_DispatchQueuedEvents_cross U iU fuel w1) with (iT := iT)
    as (w2 & -> & Hr2 & Hc2 & Hlog2 & Hl2); try done.
  { by rewrite Hr1. }
  { unfold slots_at. by rewrite HpT1. }
  unfold slots_at, queue_at in Hlog2, Hl2. rewrite HpT1 in Hlog2, Hl2.
  simpl in Hlog2, Hl2.
  cbn [mbind Outcome_mbind Outcome_bind].
  rewrite decide_True by (by rewrite Hl2, !length_alter).
  set (E := enqueued_by construct (slots (mSignal pT)) (mEventQueue pT)) in *.
  assert (∀ j, mEventPools w2 !! j
    = if decide (j = iT) then Some (Some (clear_queue pT))
      else if decide (j = iU)
           then (if decide (j < iT)
                 then Some (Some (push_all E (clear_queue pU)))
                 else Some (Some (push_all E pU)))
           else if decide (j < iT)
                then fmap (M:=option) clear_queue <$> mEventPools w !! j
                else mEventPools w !! j) as Hm2.
  { intros j. rewrite Hl2, !list_lookup_alter, !Hm1.
    repeat case_decide; subst; try lia; rewrite ?HlT, ?HlU; done. }
  assert (length (mEventPools w2) = length (mEventPools w)) as Hlen2.
  { apply same_length_of_lookups. intros j. rewrite Hm2.
    repeat case_decide; subst; rewrite ?fmap_is_Some, ?HlT, ?HlU; try done;
      split; eauto. }
  destruct (dispatch_loop_passive_range (exec construct (S fuel))
              (length (mEventPools w) - S iT) (S iT) w2)
    as (w3 & Hrun3 & Hr3 & Hc3 & Hlog3 & Hm3).
  { intros j Hj.
    assert (slots_at j w2 = slots_at j w) as ->; [|apply rest_passive; lia].
    unfold slots_at, pool_at. rewrite Hm2.
    repeat case_decide; subst; try lia; rewrite ?HlU; done. }
  { lia. }
  exists w3, (mEventPools w2). split_and!.
  - replace (iT + 0) with iT by lia. exact Hrun3.
  - by rewrite Hr3, Hr2, Hr1.
  - rewrite Hlog3, Hlog2, Hlog1. rewrite drop_0.
    rewrite (take_ge (drop (S iT) (mEventPools w2))) by (rewrite length_drop; lia).
    by rewrite <- !app_assoc.
  - intros j Hj. rewrite Hm2.
    repeat case_decide; subst; try lia; rewrite ?HlU; done.
  - assert (iU < length (mEventPools w)) by (apply lookup_lt_is_Some; eauto).
    rewrite Hm3, Hm2. repeat case_decide; subst; try lia; done.
Qed.

End Pass.

(** The setting of the two theorems of this section: a reachable world in
    which the pools of [T] and of [U] both exist, the callables bound to [T]
    only enqueue events of [U], and the callables of every other pool make no
    call on the bus. *)
Section Order.

Variables (T U : TypeKey) (iT iU : nat) (fuel : nat) (w : @World Args Payload).

Hypothesis Hreach : Reachable construct w.
Hypothesis T_id : Registry.eventID (registry w) !! T = Some iT.
Hypothesis U_id : Registry.eventID (registry w) !! U = Some iU.
Hypothesis T_pool : is_Some (pool_at iT w).
Hypothesis U_pool : is_Some (pool_at iU w).
Hypothesis T_enqueues : Forall (enqueues_only U) (bound w T).
Hypothesis rest_passive : ∀ j, j ≠ iT → Forall passive (slots_at j w).

Lemma pass_stretch_typed k (l : list (option (@EventPool Args Payload))) :
  (∀ j q, l !! j = Some (Some q) →
     ∃ q0, mEventPools w !! (k + j) = Some (Some q0) ∧
           pool_type q = pool_type q0 ∧ mSignal q = mSignal q0) →
  ∀ j q, l !! j = Some (Some q) →
    Registry.eventID (registry w) !! pool_type q = Some (k + j) ∧
    ∀ s, s ∈ slots (mSignal q) → slot_type s = pool_type q.
Proof.
  intros Hl j q Hj. destruct (Hl j q Hj) as (q0 & Hq0 & -> & ->).
  pose proof (Reachable_wf construct w Hreach) as Hwf.
  assert (pool_at (k + j) w = Some q0) as Hp by (unfold pool_at; by rewrite Hq0).
  split; [by apply (wf_pool _ Hwf)|]. intros s. by apply (wf_slot _ Hwf (k + j)).
Qed.

(** When the pool of [U] exists already and the callables of the pools
    other than that of [T] make no call on the bus: events that the callables
    of [T] enqueue for [U] during a [DispatchQueuedEvents()] are flushed by the
    same call when the pool of [U] comes after the pool of [T] in the vector,
    that is, when [U] has the greater type id: the callables of [U] get what
    was pending for [U] and then those events, and the buffer of [U] is empty
    afterwards.  (A [U] that has no pool yet makes the vector grow during the
    loop: see [growing_the_vector_during_dispatch_is_undefined].) *)
Theorem enqueue_for_later_pool_is_flushed_in_same_pass :
  iT < iU →
  ∃ w' tr,
    exec construct (S (S fuel)) CallDispatchQueuedEvents w = Done w' ∧
    log w' = log w ++ tr ∧
    deliveries_to U tr
    = pairing (bound w U)
        (pending w U ++ enqueued_by construct (bound w T) (pending w T)) ∧
    pending w' U = [].
Proof.
  intros Hlt. pose proof (Reachable_wf construct w Hreach) as Hwf.
  destruct T_pool as [pT HpT]. destruct U_pool as [pU HpU].
  assert (bound w T = slots (mSignal pT)) as HbT
    by (unfold bound, pool_of; by rewrite T_id; simpl; rewrite HpT).
  assert (pending w T = mEventQueue pT) as HqT
    by (unfold pending, pool_of; by rewrite T_id; simpl; rewrite HpT).
  assert (bound w U = slots (mSignal pU)) as HbU
    by (unfold bound, pool_of; by rewrite U_id; simpl; rewrite HpU).
  assert (pending w U = mEventQueue pU) as HqU
    by (unfold pending, pool_of; by rewrite U_id; simpl; rewrite HpU).
  rewrite HbT, HqT, HbU, HqU in *.
  pose proof (raw_lookup_of_pool_at w iT pT HpT) as HlT.
  pose proof (raw_lookup_of_pool_at w iU pU HpU) as HlU.
  edestruct dispatch_pass_with_enqueuer
    with (U := U) (iT := iT) (iU := iU) (fuel := fuel)
         (w := note (Entered CallDispatchQueuedEvents) w) (pT := pT) (pU := pU)
    as (w3 & l2 & Hrun & Hr & Hlog & Hd & He); try done; [lia|].
  simpl in Hlog, Hd, He, Hr.
  exists w3, (Entered CallDispatchQueuedEvents
              :: (omap id (take iT (mEventPools w)) ≫= pool_obs)
              ++ reentrant_obs (slots (mSignal pT)) (mEventQueue pT)
              ++ (omap id (drop (S iT) l2) ≫= pool_obs)).
  split_and!.
  - exact Hrun.
  - rewrite Hlog. by rewrite <- app_assoc.
  - change (deliveries_to U (Entered ?c :: ?X)) with (deliveries_to U X).
    rewrite !deliveries_to_app.
    rewrite (deliveries_to_stretch U w 0 (take iT (mEventPools w)) Hwf).
    2:{ apply pass_stretch_typed. intros j q Hj.
        apply lookup_take_Some in Hj as [Hj _]. eauto. }
    rewrite (deliveries_to_stretch U w (S iT) (drop (S iT) l2) Hwf).
    2:{ apply pass_stretch_typed. intros j q Hj. rewrite lookup_drop in Hj.
        rewrite Hd in Hj by lia. case_decide as Hc.
        - rewrite Hc, HlU in *. simpl in Hj. injection Hj as <-. eauto.
        - eauto. }
    rewrite U_id, !decide_True by lia.
    rewrite lookup_take_ge by lia. rewrite lookup_drop.
    replace (S iT + (iU - S iT)) with iU by lia.
    rewrite Hd, decide_True, HlU by (done || lia). simpl.
    unfold deliveries_to. rewrite deliveries_reentrant_obs.
    rewrite filter_pairing_none; [done|].
    intros s Hs HU.
    assert (slot_type s = T) as HsT by (apply (bound_typed w T); [done|by rewrite HbT]).
    assert (iT = iU) by congruence. lia.
  - unfold pending, pool_of. rewrite Hr, U_id. simpl. unfold pool_at.
    rewrite He, decide_False by lia. done.
Qed.


End Order.


(** ** A callable that makes the vector grow during a dispatch *)

Lemma Reachable_vector_bound w :
  Reachable construct w → length (mEventPools w) ≤ Registry.id (registry w).
Proof.
  intros Hreach%Reachable_steps.
  destruct (steps_stays _ _ (wf_initial_world) Hreach) as (_ & _ & H0).
  apply H0. simpl. lia.
Qed.

Lemma queue_at_pending w T h :
  Registry.eventID (registry w) !! T = Some h → queue_at h w = pending w T.
Proof. intros Hid. unfold pending, pool_of, queue_at. by rewrite Hid. Qed.

Lemma slots_at_bound w T h :
  Registry.eventID (registry w) !! T = Some h → slots_at h w = bound w T.
Proof. intros Hid. unfold bound, pool_of, slots_at. by rewrite Hid. Qed.

Lemma omap_call_event_bind (ss : list (@Slot Args Payload)) e :
  omap (call_event construct) (s ← ss; slot_body s (ev_value e))
  = s ← ss; omap (call_event construct) (slot_body s (ev_value e)).
Proof.
  induction ss as [|s ss IH]; [done|]. by rewrite !bind_cons, omap_app, IH.
Qed.

Section Grow.

Variables (T V : TypeKey) (iT : nat) (fuel : nat).

Hypothesis differ : T ≠ V.

Lemma invoke_enqueuers_other (ss : list (@Slot Args Payload)) e w :
  wf w → Registry.eventID (registry w) !! T = Some iT →
  Forall (enqueues_only V) ss → (∀ s, s ∈ ss → slot_type s = ev_type e) →
  ∃ w', invoke (exec construct (S fuel)) ss e w = Done w' ∧ wf w' ∧
    Registry.eventID (registry w') !! T = Some iT ∧
    invalidated iT w w' = false ∧
    pending w' V
    = pending w V ++ (s ← ss; omap (call_event construct) (slot_body s (ev_value e))) ∧
    pending w' T = pending w T ∧ bound w' T = bound w T.
Proof.
  intros Hwf Hid Hss Hty.
  destruct (invoke_enqueuers V fuel ss e w Hwf Hss Hty)
    as (w' & Hrun & Hwf' & Hlog & Hpend & Hother & Hbound).
  assert (Registry.eventID (registry w') !! T = Some iT) as Hid'.
  { pose proof (invoke_steps construct (exec construct (S fuel))
                  (exec_steps construct (S fuel)) ss e w w' Hwf Hty Hrun) as Hsteps.
    by apply (steps_stays w w' Hwf Hsteps). }
  exists w'. split_and!; try done.
  - unfold invalidated. rewrite (since_log _ _ _ Hlog), calls_invoke_obs.
    apply (enqueues_edit_no_other_queue V).
    + intros HV. apply differ.
      by eapply (Registry.wf_inj _ (wf_registry _ Hwf')).
    + apply Forall_forall. intros c (s & Hc & Hs)%list_elem_of_bind.
      eapply Forall_forall in Hss; [|exact Hs].
      specialize (Hss (ev_value e)). by eapply Forall_forall in Hss.
  - by rewrite Hpend, omap_call_event_bind.
  - by apply Hother.
Qed.

Lemma flush_enqueuers_other n i w :
  wf w → Registry.eventID (registry w) !! T = Some iT →
  Forall (enqueues_only V) (bound w T) → i + n ≤ length (pending w T) →
  ∃ w', flush (exec construct (S fuel)) n i iT w = Done w' ∧ wf w' ∧
    Registry.eventID (registry w') !! T = Some iT ∧
    pending w' T = pending w T ∧ bound w' T = bound w T ∧
    pending w' V
    = pending w V ++ enqueued_by construct (bound w T) (take n (drop i (pending w T))).
Proof.
  revert i w. induction n as [|n IH]; intros i w Hwf Hid Hss Hlen.
  - exists w. split_and!; try done. simpl. by rewrite app_nil_r.
  - destruct (lookup_lt_is_Some_2 (pending w T) i) as [e He]; [lia|].
    destruct (invoke_enqueuers_other (bound w T) e w Hwf Hid Hss)
      as (w1 & Hrun1 & Hwf1 & Hid1 & Hinv & HpV & HpT & HbT).
    { intros s Hs. rewrite (bound_typed w T s Hwf Hs). symmetry.
      apply (pending_typed w T e Hwf). by eapply list_elem_of_lookup_2. }
    destruct (IH (S i) w1 Hwf1 Hid1) as (w' & Hrun & Hwf' & Hid' & HpT' & HbT' & HpV').
    { by rewrite HbT. }
    { rewrite HpT. lia. }
    exists w'. split_and!; try done.
    + cbn [flush]. rewrite (queue_at_pending w T iT Hid), He.
      unfold Signal_call. rewrite (slots_at_bound w T iT Hid), Hrun1.
      cbn [mbind Outcome_mbind Outcome_bind]. rewrite Hinv. exact Hrun.
    + by rewrite HpT', HpT.
    + by rewrite HbT', HbT.
    + rewrite HpV', HpV, HbT, HpT, (drop_S _ _ _ He). cbn [take].
      unfold enqueued_by. rewrite bind_cons. by rewrite <- app_assoc.
Qed.

End Grow.

(** [mEventPools] is iterated by [DispatchQueuedEvents()] while the
    callables run, and [GetEventHandler] resizes it for a type that is new to
    the registry.  In a reachable world in which [T] has pending events, the
    callables bound to [T] only enqueue events of a type [V] that has no id
    yet, one of them at least whatever it is given, and the callables of the
    pools before that of [T] make no call on the bus: the flush of the pool
    of [T] makes the vector grow, the loop of [DispatchQueuedEvents()] goes on
    with invalidated iterators, and the behaviour of the call is undefined. *)
Theorem new_type_during_dispatch_is_undefined T V iT w fuel :
  Reachable construct w →
  Registry.eventID (registry w) !! T = Some iT →
  Registry.eventID (registry w) !! V = None →
  pending w T ≠ [] →
  Forall (enqueues_only V) (bound w T) →
  Exists (λ s, ∀ v, slot_body s v ≠ []) (bound w T) →
  (∀ j, j < iT → Forall passive (slots_at j w)) →
  exec construct (S (S fuel)) CallDispatchQueuedEvents w = Undefined.
Proof.
  intros Hreach HidT HidV Hpend Hss Hact Hpass.
  pose proof (Reachable_wf construct w Hreach) as Hwf.
  pose proof (Reachable_vector_bound w Hreach) as Hbnd.
  assert (T ≠ V) as Hne by congruence.
  set (w0 := note (Entered CallDispatchQueuedEvents) w).
  assert (wf w0) as Hwf0 by by apply note_wf.
  destruct (pool_of w T) as [pT|] eqn:HpT;
    [|by unfold pending in Hpend; rewrite HpT in Hpend].
  pose proof HpT as (h & Hh & HatT)%pool_of_at.
  assert (h = iT) as -> by congruence.
  pose proof (raw_lookup_of_pool_at w iT pT HatT) as HlT.
  assert (iT < length (mEventPools w)) as HiT by (apply lookup_lt_is_Some; eauto).
  change (exec construct (S (S fuel)) CallDispatchQueuedEvents w)
    with (EventBus_DispatchQueuedEvents (exec construct (S fuel)) w0).
  unfold EventBus_DispatchQueuedEvents.
  change (mEventPools w0) with (mEventPools w).
  replace (length (mEventPools w))
    with (iT + S (length (mEventPools w) - S iT)) by lia.
  rewrite dispatch_loop_app.
  destruct (dispatch_loop_passive_range (exec construct (S fuel)) iT 0 w0)
    as (w1 & Hrun1 & Hr1 & Hc1 & Hlog1 & Hm1).
  { intros j Hj. apply Hpass. lia. }
  { simpl. lia. }
  rewrite Hrun1. cbn [mbind Outcome_mbind Outcome_bind Nat.add dispatch_loop].
  change (mEventPools w0) with (mEventPools w) in Hm1.
  change (registry w0) with (registry w) in Hr1.
  assert (mEventPools w1 !! iT = Some (Some pT)) as HlT1.
  { rewrite Hm1, decide_False by lia. done. }
  rewrite HlT1.
  assert (wf w1) as Hwf1.
  { eapply (steps_wf construct); [exact Hwf0|].
    eapply (dispatch_loop_steps construct); [|done|exact Hrun1].
    apply (exec_steps construct). }
  assert (length (mEventPools w1) = length (mEventPools w)) as Hlen1.
  { apply same_length_of_lookups. intros j. rewrite Hm1.
    case_decide; [by rewrite fmap_is_Some|done]. }
  assert (Registry.eventID (registry w1) !! T = Some iT) as HidT1 by by rewrite Hr1.
  assert (pool_of w1 T = pool_of w T) as Hsame.
  { unfold pool_of. rewrite Hr1, HidT. simpl. unfold pool_at. by rewrite HlT1, HlT. }
  assert (bound w1 T = bound w T) as HbT1 by (unfold bound; by rewrite Hsame).
  assert (pending w1 T = pending w T) as HqT1 by (unfold pending; by rewrite Hsame).
  destruct (flush_enqueuers_other T V iT fuel Hne (length (pending w1 T)) 0 w1)
    as (w' & Hrun & Hwf' & Hid' & HpT' & HbT' & HpV'); try done.
  { by rewrite HbT1. }
  rewrite drop_0, firstn_all, HbT1, HqT1 in HpV'.
  unfold EventPool_DispatchQueuedEvents.
  rewrite (queue_at_pending w1 T iT HidT1), Hrun.
  cbn [mbind Outcome_mbind Outcome_bind].
  rewrite decide_False; [done|].
  unfold EventPool_ClearEventQueue, update_pool. simpl. rewrite length_alter.
  intros Hlen.
  assert (∃ ev, ev ∈ enqueued_by construct (bound w T) (pending w T)) as [ev Hev].
  { destruct (pending w T) as [|e q] eqn:Hq; [done|].
    apply Exists_exists in Hact as (s & Hs & Hbody).
    specialize (Hbody (ev_value e)).
    pose proof Hss as Hss'. eapply Forall_forall in Hss'; [|exact Hs].
    specialize (Hss' (ev_value e)).
    destruct (slot_body s (ev_value e)) as [|c cs] eqn:Hcs; [done|].
    apply Forall_cons in Hss' as [Hc _].
    destruct c as [V' a|V' a| |Ts| |Ts|V' name body|k|V']; try done.
    exists (build construct V' a). unfold enqueued_by.
    apply list_elem_of_bind. exists e. split; [|by left].
    apply list_elem_of_bind. exists s. split; [|done].
    rewrite Hcs. simpl. by left. }
  assert (pending w' V ≠ []) as HV.
  { rewrite HpV'. intros [_ Heq]%app_eq_nil. rewrite Heq in Hev.
    by apply elem_of_nil in Hev. }
  destruct (pool_of w' V) as [pV|] eqn:HpV0;
    [|by unfold pending in HV; rewrite HpV0 in HV].
  apply pool_of_at in HpV0 as (iV & HidV' & HatV).
  assert (iV < length (mEventPools w')) as HiV.
  { apply lookup_lt_is_Some. unfold pool_at in HatV.
    destruct (mEventPools w' !! iV); [eauto|done]. }
  assert (Registry.id (registry w1) ≤ iV) as Hfresh.
  { destruct (decide (iV < Registry.id (registry w1))) as [Hlt|]; [|lia]. exfalso.
    destruct (Registry.wf_dense _ (wf_registry _ Hwf1) iV Hlt) as (T' & HT').
    pose proof (flush_steps construct (exec construct (S fuel))
                  (exec_steps construct (S fuel)) _ _ iT w1 w' Hwf1 Hrun) as Hsteps.
    destruct (steps_stays w1 w' Hwf1 Hsteps) as (Hkeep & _).
    apply Hkeep in HT' as HT''.
    assert (T' = V) as -> by by eapply (Registry.wf_inj _ (wf_registry _ Hwf')).
    rewrite Hr1 in HT'. congruence. }
  rewrite Hr1 in Hfresh. lia.
Qed.

(** ** Unsubscribing *)

(** [UnsubscribeFromEvent] goes through the connection only; it does not call
    [GetEventHandler].  Whatever the connection is, also one that names no
    pool or no binding, the call returns, invokes nothing, requests no id,
    leaves the vector at its length, creates no pool and leaves every buffer
    as it was; what stays bound to a type is what was bound, in the same
    order, without the binding of the connection. *)
Theorem UnsubscribeFromEvent_resolves_no_handler (c : Connection)
    (w : @World Args Payload) fuel :
  ∃ w', exec construct (S fuel) (CallUnsubscribeFromEvent c) w = Done w' ∧
    log w' = log w ++ [Entered (CallUnsubscribeFromEvent c)] ∧
    registry w' = registry w ∧
    length (mEventPools w') = length (mEventPools w) ∧
    (∀ T, pool_exists w' T ↔ pool_exists w T) ∧
    (∀ T, pending w' T = pending w T) ∧
    (∀ T, bound w' T
          = if decide (Registry.eventID (registry w) !! T = Some (conn_pool c))
            then filter (λ s, slot_id s ≠ conn_slot c) (bound w T)
            else bound w T).
Proof.
  eexists. split; [reflexivity|]. split_and!.
  - done.
  - done.
  - unfold EventBus_UnsubscribeFromEvent, update_pool. simpl.
    by rewrite length_alter.
  - intros T. unfold pool_exists, EventBus_UnsubscribeFromEvent.
    rewrite pool_of_update.
    change (registry (note ?o w)) with (registry w).
    change (pool_of (note ?o w) T) with (pool_of w T).
    case_decide; [|done]. by rewrite fmap_is_Some.
  - intros T. unfold pending, EventBus_UnsubscribeFromEvent.
    rewrite pool_of_update.
    change (registry (note ?o w)) with (registry w).
    change (pool_of (note ?o w) T) with (pool_of w T).
    case_decide; [|done]. by destruct (pool_of w T).
  - intros T. unfold bound, EventBus_UnsubscribeFromEvent.
    rewrite pool_of_update.
    change (registry (note ?o w)) with (registry w).
    change (pool_of (note ?o w) T) with (pool_of w T).
    case_decide; [|done]. by destruct (pool_of w T).
Qed.

End More.

(** ** Witnesses *)

Lemma GetEventHandler_cast_is_safe_witness :
  let w := Examples.run_of Examples.damage_setup in
  ∃ p, pool_at (GetEventHandler "Heal" w).1 (GetEventHandler "Heal" w).2 = Some p ∧
    pool_type p = "Heal" ∧
    (∀ s, s ∈ slots (mSignal p) → slot_type s = "Heal") ∧
    (∀ e, e ∈ mEventQueue p → ev_type e = "Heal").
Proof.
  apply (GetEventHandler_cast_is_safe Examples.ctor "Heal"
           (Examples.run_of Examples.damage_setup)).
  apply Reachable_run_of. vm_compute. reflexivity.
Defined.

Lemma EnqueueEvent_appends_one_event_witness :
  let w := Examples.run_of Examples.damage_setup in
  let c := CallEnqueueEvent "Heal" (FromArgs 4%Z) in
  ∃ w', exec Examples.ctor 1 c w = Done w' ∧
    log w' = log w ++ [Entered c] ∧
    pending w' "Heal" = pending w "Heal" ++ [build Examples.ctor "Heal" (FromArgs 4%Z)] ∧
    (∀ U, U ≠ "Heal" → pending w' U = pending w U) ∧
    (∀ U, bound w' U = bound w U).
Proof.
  apply (EnqueueEvent_appends_one_event Examples.ctor "Heal" (FromArgs 4%Z)
           (Examples.run_of Examples.damage_setup) 0).
  apply Reachable_run_of. vm_compute. reflexivity.
Defined.

Lemma selective_ClearEventQueues_clears_named_witness :
  let w := Examples.run_of Examples.damage_setup in
  ∃ w', exec Examples.ctor 1 (CallClearEventQueuesOf ["Heal"; "Armor"]) w = Done w' ∧
    log w' = log w ++ [Entered (CallClearEventQueuesOf ["Heal"; "Armor"])] ∧
    (∀ U, pending w' U = if decide (U ∈ ["Heal"; "Armor"]) then [] else pending w U) ∧
    (∀ U, bound w' U = bound w U).
Proof.
  apply (selective_ClearEventQueues_clears_named Examples.ctor ["Heal"; "Armor"]
           (Examples.run_of Examples.damage_setup) 0).
  apply Reachable_run_of. vm_compute. reflexivity.
Defined.

Lemma ids_and_vector_are_stable_witness :
  let w := Examples.run_of Examples.damage_setup in
  let c := CallTriggerEvent "Armor" (FromArgs 1%Z) in
  let w' := Examples.run_of (Examples.damage_setup ++ [c]) in
  (∀ T i, Registry.eventID (registry w) !! T = Some i →
          Registry.eventID (registry w') !! T = Some i) ∧
  length (mEventPools w) ≤ length (mEventPools w') ∧
  length (mEventPools w') ≤ Registry.id (registry w').
Proof.
  apply (ids_and_vector_are_stable Examples.ctor 1
           (CallTriggerEvent "Armor" (FromArgs 1%Z))
           (Examples.run_of Examples.damage_setup)).
  - apply Reachable_run_of. vm_compute. reflexivity.
  - vm_compute. reflexivity.
Defined.

Lemma SubscribeToEvent_binds_last_witness :
  let w := Examples.run_of Examples.damage_setup in
  let c := CallSubscribeToEvent "Damage" 5 Examples.observer in
  ∃ w' s, exec Examples.ctor 1 c w = Done w' ∧
    log w' = log w ++ [Entered c] ∧
    slot_type s = "Damage" ∧ slot_name s = 5 ∧ slot_body s = Examples.observer ∧
    bound w' "Damage" = bound w "Damage" ++ [s] ∧
    (∀ U, U ≠ "Damage" → bound w' U = bound w U) ∧
    (∀ U, pending w' U = pending w U).
Proof.
  apply (SubscribeToEvent_binds_last Examples.ctor "Damage" 5 Examples.observer
           (Examples.run_of Examples.damage_setup) 0).
  apply Reachable_run_of. vm_compute. reflexivity.
Defined.

Lemma late_subscriber_gets_buffered_events_witness :
  let w := Examples.run_of Examples.damage_setup in
  ∃ w' s tr,
    program Examples.ctor 1
      [CallSubscribeToEvent "Heal" 5 Examples.observer; CallDispatchQueuedEvents] w
    = Done w' ∧
    log w' = log w ++ tr ∧
    slot_name s = 5 ∧ slot_body s = Examples.observer ∧
    deliveries_to "Heal" tr = pairing (bound w "Heal" ++ [s]) (pending w "Heal") ∧
    pending w' "Heal" = [].
Proof.
  apply (late_subscriber_gets_buffered_events Examples.ctor "Heal" 5 Examples.observer
           (Examples.run_of Examples.damage_setup) 0).
  - apply Reachable_run_of. vm_compute. reflexivity.
  - apply all_passive_pools. vm_compute. repeat constructor.
  - reflexivity.
Defined.

Lemma second_dispatch_invokes_nothing_witness :
  let w := Examples.run_of Examples.damage_setup in
  ∃ w',
    program Examples.ctor 1 [CallDispatchQueuedEvents; CallDispatchQueuedEvents] w
    = Done w' ∧
    log w' = log w ++ Entered CallDispatchQueuedEvents
                      :: (pools_in_order w ≫= pool_obs)
                      ++ [Entered CallDispatchQueuedEvents] ∧
    (∀ U, pending w' U = []).
Proof.
  apply (second_dispatch_invokes_nothing Examples.ctor
           (Examples.run_of Examples.damage_setup) 0).
  - apply Reachable_run_of. vm_compute. reflexivity.
  - apply all_passive_pools. vm_compute. repeat constructor.
Defined.

Lemma nested_trigger_completes_first_witness :
  let w := Examples.run_of
    [CallSubscribeToEvent "Hit" 1 (λ v, [CallTriggerEvent "Damage" (FromArgs v)]);
     CallSubscribeToEvent "Hit" 2 Examples.observer;
     CallSubscribeToEvent "Damage" 3 Examples.observer] in
  let c := CallTriggerEvent "Hit" (FromArgs 9%Z) in
  ∃ w', exec Examples.ctor 2 c w = Done w' ∧
    log w' = log w ++ Entered c
      :: (s ← bound w "Hit";
          Invoked s (build Examples.ctor "Hit" (FromArgs 9%Z))
            :: nested_obs Examples.ctor (bound w "Damage")
                 (slot_body s (ev_value (build Examples.ctor "Hit" (FromArgs 9%Z))))) ∧
    (∀ V, pending w' V = pending w V) ∧
    (∀ V, bound w' V = bound w V).
Proof.
  apply (nested_trigger_completes_first Examples.ctor "Hit" "Damage" (FromArgs 9%Z) _ 0).
  - apply Reachable_run_of. vm_compute. reflexivity.
  - vm_compute. repeat constructor.
  - vm_compute. repeat constructor.
Defined.

Lemma self_trigger_never_returns_witness :
  let w := Examples.run_of
    [CallSubscribeToEvent "Loop" 1 (λ v, [CallTriggerEvent "Loop" (FromValue v)])] in
  exec Examples.ctor 7 (CallTriggerEvent "Loop" (FromArgs 0%Z)) w = OutOfFuel.
Proof.
  eapply (self_trigger_never_returns Examples.ctor "Loop" (FromArgs 0%Z)).
  - apply Reachable_run_of. vm_compute. reflexivity.
  - vm_compute. reflexivity.
  - intros v. eexists _, _. reflexivity.
Defined.

Lemma enqueue_during_trigger_stays_pending_witness :
  let w := Examples.run_of Examples.tick_setup in
  let a := FromArgs 5%Z in
  ∃ w' tr, exec Examples.ctor 2 (CallTriggerEvent "Tick" a) w = Done w' ∧
    log w' = log w ++ tr ∧
    deliveries tr = (λ s, (s, build Examples.ctor "Tick" a)) <$> bound w "Tick" ∧
    pending w' "Tick"
    = pending w "Tick"
      ++ omap (call_event Examples.ctor)
           (s ← bound w "Tick"; slot_body s (ev_value (build Examples.ctor "Tick" a))) ∧
    (∀ V, V ≠ "Tick" → pending w' V = pending w V) ∧
    (∀ V, bound w' V = bound w V).
Proof.
  apply (enqueue_during_trigger_stays_pending Examples.ctor "Tick" "Tick" (FromArgs 5%Z) _ 0).
  - apply Reachable_run_of. vm_compute. reflexivity.
  - vm_compute. repeat constructor.
Defined.

Lemma clearing_callable_breaks_flush_witness :
  let w := Examples.run_of
    [CallSubscribeToEvent "Tick" 1 (λ _, [CallClearEventQueues]);
     CallEnqueueEvent "Tick" (FromArgs 1%Z);
     CallEnqueueEvent "Tick" (FromArgs 2%Z)] in
  EventPool_DispatchQueuedEvents (exec Examples.ctor 1) 0 w = Undefined.
Proof.
  apply (clearing_callable_breaks_flush Examples.ctor 0 0).
  - vm_compute. discriminate.
  - vm_compute. repeat constructor.
  - vm_compute. lia.
Defined.


Lemma enqueue_for_later_pool_is_flushed_in_same_pass_witness :
  let w := Examples.run_of
    [CallSubscribeToEvent "A" 1 (λ v, [CallEnqueueEvent "B" (FromArgs (v + 10)%Z)]);
     CallSubscribeToEvent "B" 2 Examples.observer;
     CallEnqueueEvent "A" (FromArgs 1%Z);
     CallEnqueueEvent "B" (FromArgs 2%Z)] in
  ∃ w' tr,
    exec Examples.ctor 2 CallDispatchQueuedEvents w = Done w' ∧
    log w' = log w ++ tr ∧
    deliveries_to "B" tr
    = pairing (bound w "B")
        (pending w "B" ++ enqueued_by Examples.ctor (bound w "A") (pending w "A")) ∧
    pending w' "B" = [].
Proof.
  apply (enqueue_for_later_pool_is_flushed_in_same_pass Examples.ctor "A" "B" 0 1 0).
  - apply Reachable_run_of. vm_compute. reflexivity.
  - vm_compute. reflexivity.
  - vm_compute. reflexivity.
  - vm_compute. eexists. reflexivity.
  - vm_compute. eexists. reflexivity.
  - vm_compute. repeat constructor.
  - intros [|[|j]] Hj; [done| |]; vm_compute; repeat constructor.
  - lia.
Defined.


Lemma new_type_during_dispatch_is_undefined_witness :
  let w := Examples.run_of
    [CallSubscribeToEvent "B" 2 Examples.observer;
     CallSubscribeToEvent "A" 1 (λ v, [CallEnqueueEvent "C" (FromArgs v)]);
     CallEnqueueEvent "A" (FromArgs 1%Z);
     CallEnqueueEvent "B" (FromArgs 2%Z)] in
  exec Examples.ctor 2 CallDispatchQueuedEvents w = Undefined.
Proof.
  apply (new_type_during_dispatch_is_undefined Examples.ctor "A" "C" 1 _ 0).
  - apply Reachable_run_of. vm_compute. reflexivity.
  - vm_compute. reflexivity.
  - vm_compute. reflexivity.
  - vm_compute. discriminate.
  - vm_compute. repeat constructor.
  - vm_compute. constructor. intros v. discriminate.
  - intros [|j] Hj; [|lia]. vm_compute. repeat constructor.
Defined.
